(** * Functions-Solver: lexer, Pratt parser, evaluator, symbolic conversion
      and adaptive sampler, embedded from the Python sources.

    Layout of the development:
    - Part I, the program: exceptions and the outcome of running a
      method; host numbers (Python [int] is [Z]; Python [float] and the
      [math] module are an interface, [Host], the evaluator is parametric
      in); [Token], [ASTNode], [Lexer], [Parser], [Evaluator],
      [to_sympy_expr]; the sampler of [utils/helpers.py], generic in the
      ordered type of grid values, with its instance on binary64 floats,
      the arrays of the program, and an instance in exact arithmetic on
      the rationals;
    - Part II, the vocabulary the statements use;
    - Part III, lemmas: fuel and progress of the lexer and the parser,
      the parser on a longer or shorter token list, sorting and duplicate
      removal, the refinement pass; what the lexer and the parser raise
      and build, the tokens a run consumes, the symbolic conversion and
      the integer arithmetic of the evaluator; the order of binary64 and
      [np.linspace] on it;
    - Part IV, the properties of the program, one theorem each. *)

From Stdlib Require Import ZArith QArith Qabs List String Ascii Bool Lia Lqa Arith.
From Stdlib Require Import Sorting.Sorted.
From Stdlib Require Import Floats.
Import ListNotations.

Set Implicit Arguments.
Local Open Scope string_scope.
Local Open Scope Z_scope.

(* ################################################################## *)
(** * Part I: the program *)
(* ################################################################## *)

(* ================================================================== *)
(** ** Exceptions and results *)
(* ================================================================== *)

(** The exception classes of the repository and the built-in ones its
    code can raise.  Each carries the argument given to its constructor;
    [exn_str] is Python's [str(e)]. *)
Inductive exn : Type :=
| LexerError (message : string) (position : nat)
| ParserError (message : string)
(** Modelled from the spec: [EvaluatorError.py] is imported by
    [evaluator.py] and [helpers.py] but is not among the sources.  The
    spec and [test_evaluator.py] fix its rendering,
    [EvaluatorError: {message}], and that it is a class of its own;
    [UnknownFunctionError] derives from [Exception] directly
    ([UnknownFunctionError.py]), so it is no [EvaluatorError]. *)
| EvaluatorError (message : string)
| UnknownFunctionError (message : string)
| TypeError (message : string)
| KeyError (message : string)
| IndexError (message : string)
| ValueError (message : string)
| OverflowError (message : string)
| ZeroDivisionError (message : string).

Fixpoint digits_of_pos_aux (fuel : nat) (n : N) (acc : string) : string :=
  match fuel with
  | O => acc
  | S fuel' =>
      let d := ascii_of_N (48 + N.modulo n 10) in
      let acc' := String d acc in
      if N.ltb n 10 then acc' else digits_of_pos_aux fuel' (N.div n 10) acc'
  end.

(** Decimal rendering of a natural number, for [{position}]. *)
Definition str_of_N (n : N) : string :=
  digits_of_pos_aux (S (N.to_nat (N.log2 n))) n "".

Definition str_of_Z (z : Z) : string :=
  if z <? 0 then "-" ++ str_of_N (Z.to_N (- z)) else str_of_N (Z.to_N z).

(** [sys.int_max_str_digits], at its default: the longest run of digits
    [int] converts from text, and [str] to text. *)
Definition int_max_str_digits : Z := 4300.

Definition exn_str (e : exn) : string :=
  match e with
  | LexerError m p =>
      "LexerError at position " ++ str_of_N (N.of_nat p) ++ ": " ++ m
  | ParserError m => "ParserError: " ++ m
  | EvaluatorError m => "EvaluatorError: " ++ m
  | UnknownFunctionError m => "Unknown Function: " ++ m
  | TypeError m | KeyError m | IndexError m | ValueError m
  | OverflowError m | ZeroDivisionError m => m
  end.

(** [isinstance(e, EvaluatorError)]: what [except EvaluatorError] catches. *)
Definition is_EvaluatorError (e : exn) : bool :=
  match e with EvaluatorError _ => true | _ => false end.

(** Outcome of running a method: a value, a raised exception, or (for the
    models that recurse on fuel) the fuel ran out before the method
    returned.  The last case is not a behaviour of the program; the
    totality lemmas show the entry points never produce it. *)
Inductive result (A : Type) : Type :=
| Ok (a : A)
| Raise (e : exn)
| OutOfFuel.

Arguments Ok {A} a.
Arguments Raise {A} e.
Arguments OutOfFuel {A}.

Definition rbind {A B} (m : result A) (k : A -> result B) : result B :=
  match m with
  | Ok a => k a
  | Raise e => Raise e
  | OutOfFuel => OutOfFuel
  end.

Declare Scope py_scope.
Delimit Scope py_scope with py.
Notation "x <- m ;; k" := (rbind m (fun x => k))
  (at level 61, m at next level, right associativity) : py_scope.
Notation "' p <- m ;; k" := (rbind m (fun p => k))
  (at level 61, p pattern, m at next level, right associativity) : py_scope.
Local Open Scope py_scope.

(** The number of decimal digits of [z]. *)
Definition digit_count (z : Z) : Z :=
  Z.of_nat (String.length (str_of_N (Z.abs_N z))).

(** [str(z)], as an f-string takes it of an [int]: [ValueError] when [z]
    has more than [int_max_str_digits] digits. *)
Definition py_str_int (z : Z) : result string :=
  if int_max_str_digits <? digit_count z
  then
    Raise (ValueError
      ("Exceeds the limit (4300 digits) for integer string conversion; "
       ++ "use sys.set_int_max_str_digits() to increase the limit"))
  else Ok (str_of_Z z).

(* ================================================================== *)
(** ** Host numbers *)
(* ================================================================== *)

(** Python's [float] and the functions of [math] are the host's: binary64
    arithmetic and the C library.  The evaluator is parametric in them.
    Every operation that can raise in Python ([OverflowError] when an
    [int] is too large to convert, [ZeroDivisionError] of [0.0 ** -1],
    [ValueError] of [math.sin(inf)], [TypeError] on the complex result of
    a negative base with a fractional exponent) returns a [result]. *)
Class Host : Type := {
  float : Type;
  (** [float(num)] on the text of a literal with a decimal point. *)
  float_of_str : string -> float;
  (** [repr] of a float, for messages. *)
  float_repr : float -> string;
  (** [int] to [float]. *)
  float_of_int : Z -> result float;
  fneg : float -> float;
  fadd : float -> float -> float;
  fsub : float -> float -> float;
  fmul : float -> float -> float;
  (** float division by a divisor already known to be non-zero. *)
  fdiv : float -> float -> float;
  (** true division of two ints, the divisor non-zero. *)
  int_truediv : Z -> Z -> result float;
  (** [int ** int] with a negative exponent. *)
  int_pow_neg : Z -> Z -> result float;
  (** [float ** float]; in Python the result can be a [complex]
      number, on which later comparisons raise: the host reports the
      failure. *)
  fpow : float -> float -> result float;
  (** comparisons of a float with [0]; all false on NaN. *)
  feq0 : float -> bool;
  flt0 : float -> bool;
  fle0 : float -> bool;
  math_sqrt : float -> result float;
  math_log10 : float -> result float;
  (** [math.log10] of an int is computed without converting it first. *)
  math_log10_int : Z -> result float;
  math_sin : float -> result float;
  math_cos : float -> result float
}.

(** The interface is inhabited: the host whose only float is NaN.  Its
    arithmetic returns NaN and its comparisons with [0] are false, as
    they are on NaN; the programs that stay within the ints run on it as
    on any host. *)
Definition nan_host : Host := {|
  float := unit;
  float_of_str := fun _ => tt;
  float_repr := fun _ => "nan";
  float_of_int := fun _ => Ok tt;
  fneg := fun _ => tt;
  fadd := fun _ _ => tt;
  fsub := fun _ _ => tt;
  fmul := fun _ _ => tt;
  fdiv := fun _ _ => tt;
  int_truediv := fun _ _ => Ok tt;
  int_pow_neg := fun _ _ => Ok tt;
  fpow := fun _ _ => Ok tt;
  feq0 := fun _ => false;
  flt0 := fun _ => false;
  fle0 := fun _ => false;
  math_sqrt := fun _ => Ok tt;
  math_log10 := fun _ => Ok tt;
  math_log10_int := fun _ => Ok tt;
  math_sin := fun _ => Ok tt;
  math_cos := fun _ => Ok tt
|}.

Section Values.
Context {H : Host}.

(** A Python number: [int | float]. *)
Inductive value : Type :=
| VInt (z : Z)
| VFloat (f : float).

Definition to_float (v : value) : result float :=
  match v with
  | VInt z => float_of_int z
  | VFloat f => Ok f
  end.

Definition lift_float (op : float -> float -> float) (a b : value)
  : result value :=
  x <- to_float a ;; y <- to_float b ;; Ok (VFloat (op x y)).

(** [-a] *)
Definition py_neg (a : value) : value :=
  match a with
  | VInt z => VInt (- z)
  | VFloat f => VFloat (fneg f)
  end.

(** [a + b] *)
Definition py_add (a b : value) : result value :=
  match a, b with
  | VInt x, VInt y => Ok (VInt (x + y))
  | _, _ => lift_float fadd a b
  end.

(** [a - b] *)
Definition py_sub (a b : value) : result value :=
  match a, b with
  | VInt x, VInt y => Ok (VInt (x - y))
  | _, _ => lift_float fsub a b
  end.

(** [a * b] *)
Definition py_mul (a b : value) : result value :=
  match a, b with
  | VInt x, VInt y => Ok (VInt (x * y))
  | _, _ => lift_float fmul a b
  end.

(** [a / b] for [b != 0] (the evaluator tests the divisor first). *)
Definition py_truediv (a b : value) : result value :=
  match a, b with
  | VInt x, VInt y => f <- int_truediv x y ;; Ok (VFloat f)
  | _, _ => lift_float fdiv a b
  end.

(** [a ** b]: exact on ints with a non-negative exponent. *)
Definition py_pow (a b : value) : result value :=
  match a, b with
  | VInt x, VInt y =>
      if 0 <=? y then Ok (VInt (x ^ y))
      else f <- int_pow_neg x y ;; Ok (VFloat f)
  | _, _ =>
      x <- to_float a ;; y <- to_float b ;;
      f <- fpow x y ;; Ok (VFloat f)
  end.

(** [a == 0], [a < 0], [a <= 0] *)
Definition py_eq0 (a : value) : bool :=
  match a with VInt z => z =? 0 | VFloat f => feq0 f end.
Definition py_lt0 (a : value) : bool :=
  match a with VInt z => z <? 0 | VFloat f => flt0 f end.
Definition py_le0 (a : value) : bool :=
  match a with VInt z => z <=? 0 | VFloat f => fle0 f end.

Definition py_math_sqrt (a : value) : result value :=
  x <- to_float a ;; f <- math_sqrt x ;; Ok (VFloat f).
Definition py_math_log10 (a : value) : result value :=
  match a with
  | VInt z => f <- math_log10_int z ;; Ok (VFloat f)
  | VFloat x => f <- math_log10 x ;; Ok (VFloat f)
  end.
Definition py_math_sin (a : value) : result value :=
  x <- to_float a ;; f <- math_sin x ;; Ok (VFloat f).
Definition py_math_cos (a : value) : result value :=
  x <- to_float a ;; f <- math_cos x ;; Ok (VFloat f).

(** [f"{v}"] of a number. *)
Definition value_str (v : value) : result string :=
  match v with
  | VInt z => py_str_int z
  | VFloat f => Ok (float_repr f)
  end.

(* ================================================================== *)
(** ** Tokens ([calc/token/token.py]) *)
(* ================================================================== *)

(** [TokenType = Literal["number", "variable", ...]] *)
Inductive TokenType : Type :=
| number | variable | minus | plus | slash | asterisk | dot
| exponent | lparen | rparen | function.

Definition TokenType_eqb (a b : TokenType) : bool :=
  match a, b with
  | number, number | variable, variable | minus, minus | plus, plus
  | slash, slash | asterisk, asterisk | dot, dot | exponent, exponent
  | lparen, lparen | rparen, rparen | function, function => true
  | _, _ => false
  end.

(** [value: str | float | int] *)
Inductive token_value : Type :=
| TStr (s : string)
| TNum (v : value).

Record Token : Type := mkToken { type : TokenType; tvalue : token_value }.

Definition token_value_str (v : token_value) : result string :=
  match v with
  | TStr s => Ok s
  | TNum n => value_str n
  end.

(* ================================================================== *)
(** ** Expression tree ([calc/ast/ast.py]) *)
(* ================================================================== *)

Inductive ASTNode : Type :=
| NumberLiteral (v : value)
| VariableNode (name : string)
| PrefixExpression (operator : string) (operand : ASTNode)
| InfixExpression (left : ASTNode) (operator : string) (right : ASTNode)
| FunctionCall (function_name : string) (parameter : ASTNode).

End Values.

Arguments Token : clear implicits.
Arguments token_value : clear implicits.
Arguments ASTNode : clear implicits.
Arguments value : clear implicits.

(** [__repr__] of the nodes: the f-strings [f"{self.value}"],
    [f"{self.operator}{self.operand}"],
    [f"{self.left}{self.operator}{self.right}"] and
    [f"{self.function}({self.parameter})"]. *)
Fixpoint ASTNode_repr {H : Host} (node : ASTNode H) : result string :=
  match node with
  | NumberLiteral v => value_str v
  | VariableNode name => Ok name
  | PrefixExpression operator operand =>
      s <- ASTNode_repr operand ;; Ok (operator ++ s)
  | InfixExpression l operator r =>
      sl <- ASTNode_repr l ;; sr <- ASTNode_repr r ;;
      Ok (sl ++ operator ++ sr)
  | FunctionCall fn parameter =>
      s <- ASTNode_repr parameter ;; Ok (fn ++ "(" ++ s ++ ")")
  end.

(* ================================================================== *)
(** ** Lexer ([calc/lexer/lexer.py]) *)
(* ================================================================== *)

(** A character of the text is a code point below 256, [ascii_of_nat n]
    being [chr(n)]: the text is any [str] of such characters.  The
    predicates of [str] are the ones Python has on these code points:
    [isdecimal] holds of ["0"] to ["9"]; [isdigit] of these and of the
    superscripts [chr(178)], [chr(179)], [chr(185)]; [isnumeric] of these
    and of the fractions [chr(188)] to [chr(190)]; [isalpha] and
    [isspace] of the letters and of the white space of Latin-1. *)
Definition code_in (lo hi : nat) (c : ascii) : bool :=
  let n := nat_of_ascii c in (lo <=? n)%nat && (n <=? hi)%nat.

Definition isdecimal (c : ascii) : bool := code_in 48 57 c.

Definition isdigit (c : ascii) : bool :=
  isdecimal c || code_in 178 179 c || code_in 185 185 c.

Definition isnumeric (c : ascii) : bool := isdigit c || code_in 188 190 c.

Definition isspace (c : ascii) : bool :=
  code_in 9 13 c || code_in 28 32 c || code_in 133 133 c
  || code_in 160 160 c.

Definition isalpha (c : ascii) : bool :=
  code_in 65 90 c || code_in 97 122 c || code_in 170 170 c
  || code_in 181 181 c || code_in 186 186 c || code_in 192 214 c
  || code_in 216 246 c || code_in 248 255 c.

(** [c.isalnum()] is [c.isalpha() or c.isdecimal() or c.isdigit() or
    c.isnumeric()]. *)
Definition isalnum (c : ascii) : bool :=
  isalpha c || isdecimal c || isdigit c || isnumeric c.

Definition str1 (c : ascii) : string := String c EmptyString.

(** The value of a string of decimal digits. *)
Fixpoint int_of_digits_aux (s : string) (acc : Z) : Z :=
  match s with
  | EmptyString => acc
  | String c s' =>
      int_of_digits_aux s' (10 * acc + (Z.of_nat (nat_of_ascii c) - 48))
  end.

Definition int_of_digits (s : string) : Z := int_of_digits_aux s 0.

Fixpoint string_forallb (p : ascii -> bool) (s : string) : bool :=
  match s with
  | EmptyString => true
  | String c s' => p c && string_forallb p s'
  end.

Definition decimal_or_dot (c : ascii) : bool :=
  isdecimal c || Ascii.eqb c ".".

(** The decimal digits [s] starts with. *)
Fixpoint leading_decimals (s : string) : string :=
  match s with
  | EmptyString => EmptyString
  | String c s' =>
      if isdecimal c then String c (leading_decimals s') else EmptyString
  end.

Definition exceeds_int_max_str_digits (digits : string) : bool :=
  int_max_str_digits <? Z.of_nat (String.length digits).

(** [int(num)] on a string of characters [str.isdigit] holds of, as
    [read_number] collects them.  [int] reads the decimal digits [num]
    starts with: it raises [ValueError] when they are more than
    [int_max_str_digits], and when [num] is empty or a character follows
    them ([str.isdigit] holds of the superscripts, which are no decimal
    digits).  The message shows the first 200 characters of
    [repr(num)]. *)
Definition py_int (num : string) : result Z :=
  let digits := leading_decimals num in
  if exceeds_int_max_str_digits digits then
    Raise (ValueError
      ("Exceeds the limit (4300 digits) for integer string conversion: "
       ++ "value has " ++ str_of_N (N.of_nat (String.length digits))
       ++ " digits; use sys.set_int_max_str_digits() to increase the limit"))
  else if negb (String.eqb num "") && string_forallb isdecimal num
  then Ok (int_of_digits num)
  else
    Raise (ValueError
      ("invalid literal for int() with base 10: "
       ++ substring 0 200 ("'" ++ num ++ "'"))).

Section LexerMethods.
Context {H : Host}.
Variable text : string.
Variable variable_symbol : string.

(** [self.text[i]]; the lexer reads it only under [i < len(self.text)]. *)
Definition text_at (i : nat) : ascii :=
  match String.get i text with Some c => c | None => Ascii.zero end.

(** The [while] loop of [read_number]; returns [num], [hasDecimalPoint]
    and the position reached.  Each turn of a loop of the lexer spends
    one unit of fuel and advances one character, so the characters left
    plus one are enough fuel. *)
Fixpoint read_number_loop (fuel : nat) (curPosition : nat) (num : string)
  (hasDecimalPoint : bool) : result (string * bool * nat) :=
  match fuel with
  | O => OutOfFuel
  | S fuel' =>
      if (curPosition <? String.length text)%nat then
        let c := text_at curPosition in
        let dot_then_digit :=
          Ascii.eqb c "."%char
          && (curPosition + 1 <? String.length text)%nat
          && isdigit (text_at (curPosition + 1)) in
        if isdigit c then
          read_number_loop fuel' (curPosition + 1) (num ++ str1 c)
            hasDecimalPoint
        else if dot_then_digit && negb hasDecimalPoint then
          read_number_loop fuel' (curPosition + 1) (num ++ ".") true
        else if dot_then_digit && hasDecimalPoint then
          Raise (LexerError "Multiple decimal points" (curPosition + 1))
        else Ok (num, hasDecimalPoint, curPosition)
      else Ok (num, hasDecimalPoint, curPosition)
  end.

(** [float(num)] on the digits and the decimal point [read_number] has
    collected: [ValueError] on a digit that is not decimal; the host
    converts the decimal digits. *)
Definition py_float (num : string) : result float :=
  if string_forallb decimal_or_dot num
  then Ok (float_of_str num)
  else
    Raise (ValueError
      ("could not convert string to float: '" ++ num ++ "'")).

Definition read_number (curPosition : nat) : result (Token H * nat) :=
  '(num, hasDecimalPoint, cur) <-
     read_number_loop (S (String.length text - curPosition)) curPosition
       "" false ;;
  if hasDecimalPoint
  then f <- py_float num ;; Ok (mkToken number (TNum (VFloat f)), cur)
  else z <- py_int num ;; Ok (mkToken number (TNum (VInt z)), cur).

Fixpoint read_function_loop (fuel : nat) (curPosition : nat) (fn : string)
  : result (string * nat) :=
  match fuel with
  | O => OutOfFuel
  | S fuel' =>
      if (curPosition <? String.length text)%nat
         && isalnum (text_at curPosition)
      then read_function_loop fuel' (curPosition + 1)
             (fn ++ str1 (text_at curPosition))
      else Ok (fn, curPosition)
  end.

Definition read_function (curPosition : nat) : result (Token H * nat) :=
  '(fn, cur) <-
     read_function_loop (S (String.length text - curPosition)) curPosition
       "" ;;
  Ok (mkToken function (TStr fn), cur).

Fixpoint ignoreWhitespaces_loop (fuel : nat) (curPosition : nat)
  : result nat :=
  match fuel with
  | O => OutOfFuel
  | S fuel' =>
      if (curPosition <? String.length text)%nat
         && isspace (text_at curPosition)
      then ignoreWhitespaces_loop fuel' (curPosition + 1)
      else Ok curPosition
  end.

Definition ignoreWhitespaces (curPosition : nat) : result nat :=
  ignoreWhitespaces_loop (S (String.length text - curPosition)) curPosition.

(** The [match] on one character for the tokens that take one character;
    [None] is the final [case _]. *)
Definition single_char_token (char : ascii) : option (Token H) :=
  if Ascii.eqb char "-" then Some (mkToken minus (TStr (str1 char)))
  else if Ascii.eqb char "+" then Some (mkToken plus (TStr (str1 char)))
  else if Ascii.eqb char "*" then Some (mkToken asterisk (TStr (str1 char)))
  else if Ascii.eqb char "/" then Some (mkToken slash (TStr (str1 char)))
  else if Ascii.eqb char "^" then Some (mkToken exponent (TStr (str1 char)))
  else if Ascii.eqb char "(" then Some (mkToken lparen (TStr "("))
  else if Ascii.eqb char ")" then Some (mkToken rparen (TStr ")"))
  else None.

(** [Lexer.lex]: the cases in the order of the source. *)
Fixpoint lex (fuel : nat) (curPosition : nat) (tokens : list (Token H))
  : result (list (Token H)) :=
  match fuel with
  | O => OutOfFuel
  | S fuel' =>
      if (curPosition <? String.length text)%nat then
        let char := text_at curPosition in
        if String.eqb (str1 char) variable_symbol then
          lex fuel' (curPosition + 1)
            (tokens ++ [mkToken variable (TStr "x")])%list
        else if isdigit char then
          '(tok, cur) <- read_number curPosition ;;
          lex fuel' cur (tokens ++ [tok])%list
        else if isspace char then
          cur <- ignoreWhitespaces curPosition ;;
          lex fuel' cur tokens
        else
          match single_char_token char with
          | Some tok => lex fuel' (curPosition + 1) (tokens ++ [tok])%list
          | None =>
              if isalpha char then
                '(tok, cur) <- read_function curPosition ;;
                lex fuel' cur (tokens ++ [tok])%list
              else if Ascii.eqb char "." then
                lex fuel' (curPosition + 1)
                  (tokens ++ [mkToken dot (TStr (str1 char))])%list
              else Raise (LexerError "Invalid character" (curPosition + 1))
          end
      else Ok tokens
  end.

End LexerMethods.

(** [Lexer(text, variable).tokens] *)
Definition Lexer_with {H : Host} (text : string) (variable_symbol : string)
  : result (list (Token H)) :=
  lex text variable_symbol (S (String.length text)) 0 [].

(** [Lexer(text).tokens], the variable being ["x"]. *)
Definition Lexer {H : Host} (text : string) : result (list (Token H)) :=
  Lexer_with text "x".

(* ================================================================== *)
(** ** Parser ([calc/parser/parser.py]) *)
(* ================================================================== *)

(** The [precedences] dictionary; [None] when the key is absent. *)
Definition precedences (t : TokenType) : option Z :=
  match t with
  | plus => Some 1
  | minus => Some 1
  | asterisk => Some 2
  | slash => Some 2
  | exponent => Some 3
  | variable => Some 4
  | lparen => Some 4
  | function => Some 4
  | _ => None
  end.

(** Tokens that can have implicit multiplication. *)
Definition implicitMultiplications : list TokenType :=
  [variable; function; lparen].

Definition TokenType_in (t : TokenType) (l : list TokenType) : bool :=
  existsb (TokenType_eqb t) l.

(** [precedences[key]], raising [KeyError] on an absent key. *)
Definition precedences_get (t : TokenType) : result Z :=
  match precedences t with
  | Some p => Ok p
  | None => Raise (KeyError "precedences")
  end.

Section ParserMethods.
Context {H : Host}.

(** [self.tokens], never assigned after [__init__]. *)
Variable tokens : list (Token H).

(** A method of [Parser]: it reads and advances [self.curToken]. *)
Definition parser (A : Type) : Type := nat -> result (A * nat).

(** [self.tokens[i]] *)
Definition tokens_get (i : nat) : result (Token H) :=
  match nth_error tokens i with
  | Some t => Ok t
  | None => Raise (IndexError "list index out of range")
  end.

Definition parseNumber (token : Token H) : parser (ASTNode H) :=
  fun curToken =>
    match tvalue token with
    | TNum v => Ok (NumberLiteral v, curToken)
    | TStr _ => Raise (TypeError "token.value must be int or float")
    end.

Definition parseVariable (token : Token H) : parser (ASTNode H) :=
  fun curToken =>
    match tvalue token with
    | TStr s => Ok (VariableNode s, curToken)
    | TNum _ => Raise (TypeError "toke.value must be str")
    end.

(** [getPrecedence]: precedence of the current token, [0] when it has
    none. *)
Definition getPrecedence (curToken : nat) : result Z :=
  t <- tokens_get curToken ;;
  match precedences (type t) with
  | None => Ok 0
  | Some p => Ok p
  end.

Section Handlers.
(** The handlers call back into [parseExpression]; it is passed to them
    so that the recursion is tied in one place below. *)
Variable parseExpression : Z -> parser (ASTNode H).

Definition parseImplicitMultiplication (left : ASTNode H) (_ : Token H)
  : parser (ASTNode H) :=
  fun curToken =>
    p <- precedences_get asterisk ;;
    '(right', curToken) <- parseExpression p curToken ;;
    Ok (InfixExpression left "*" right', curToken).

Definition parsePrefixExpression (token : Token H) : parser (ASTNode H) :=
  fun curToken =>
    match tvalue token with
    | TNum _ => Raise (TypeError "toke.value must be str")
    | TStr op =>
        '(operand, curToken) <- parseExpression 0 curToken ;;
        Ok (PrefixExpression op operand, curToken)
    end.

Definition parseInfixExpression (left : ASTNode H) (token : Token H)
  : parser (ASTNode H) :=
  fun curToken =>
    match tvalue token with
    | TNum _ => Raise (TypeError "toke.value must be str")
    | TStr op =>
        if TokenType_eqb (type token) exponent then
          p <- precedences_get (type token) ;;
          '(right', curToken) <- parseExpression (p - 1) curToken ;;
          Ok (InfixExpression left op right', curToken)
        else
          p <- precedences_get (type token) ;;
          '(right', curToken) <- parseExpression p curToken ;;
          Ok (InfixExpression left op right', curToken)
    end.

Definition parseParen (_ : Token H) : parser (ASTNode H) :=
  fun curToken =>
    '(node, curToken) <- parseExpression 0 curToken ;;
    if (curToken <? List.length tokens)%nat then
      t <- tokens_get curToken ;;
      if negb (TokenType_eqb (type t) rparen)
      then Raise (ParserError "Expected right parenthesis")
      else Ok (node, (curToken + 1)%nat)
    else Ok (node, (curToken + 1)%nat).

Definition parseFunction (token : Token H) : parser (ASTNode H) :=
  fun curToken =>
    if (List.length tokens <=? curToken)%nat
    then Raise (ParserError "Expected left parenthesis")
    else
      t <- tokens_get curToken ;;
      if negb (TokenType_eqb (type t) lparen)
      then Raise (ParserError "Expected left parenthesis")
      else
        let curToken := (curToken + 1)%nat in
        match tvalue token with
        | TNum _ => Raise (TypeError "Functions must be strings")
        | TStr name =>
            '(arg, curToken) <- parseParen token curToken ;;
            Ok (FunctionCall name arg, curToken)
        end.

(** [self.prefixFunctions], as registered in [__init__]. *)
Definition prefixFunctions (t : TokenType)
  : option (Token H -> parser (ASTNode H)) :=
  match t with
  | number => Some parseNumber
  | variable => Some parseVariable
  | minus => Some parsePrefixExpression
  | plus => Some (fun _ => parseExpression 0)
  | lparen => Some parseParen
  | function => Some parseFunction
  | _ => None
  end.

(** [self.infixFunctions], as registered in [__init__]. *)
Definition infixFunctions (t : TokenType)
  : option (ASTNode H -> Token H -> parser (ASTNode H)) :=
  match t with
  | plus | minus | asterisk | slash | exponent => Some parseInfixExpression
  | variable | lparen | function => Some parseImplicitMultiplication
  | _ => None
  end.

End Handlers.

(** [parseExpression] and its [while] loop.  Each call and each turn of
    the loop spends one unit of fuel. *)
Fixpoint parseExpression (fuel : nat) (precedence : Z) (curToken : nat)
  {struct fuel} : result (ASTNode H * nat) :=
  match fuel with
  | O => OutOfFuel
  | S fuel' =>
      if (List.length tokens <=? curToken)%nat then
        Raise (ParserError "Nothing to parse at the end of the input")
      else
        token <- tokens_get curToken ;;
        let curToken := (curToken + 1)%nat in
        match prefixFunctions (parseExpression fuel') (type token) with
        | None =>
            v <- token_value_str (tvalue token) ;;
            Raise (ParserError ("No prefix function for " ++ v))
        | Some prefix =>
            '(left', curToken) <- prefix token curToken ;;
            parseExpression_while fuel' precedence left' curToken
        end
  end
with parseExpression_while (fuel : nat) (precedence : Z) (left : ASTNode H)
  (curToken : nat) {struct fuel} : result (ASTNode H * nat) :=
  match fuel with
  | O => OutOfFuel
  | S fuel' =>
      if (curToken <? List.length tokens)%nat then
        p <- getPrecedence curToken ;;
        if precedence <? p then
          token <- tokens_get curToken ;;
          let curToken :=
            if negb (TokenType_in (type token) implicitMultiplications)
            then (curToken + 1)%nat else curToken in
          match infixFunctions (parseExpression fuel') (type token) with
          | None => Raise (KeyError "infixFunctions")
          | Some infix =>
              '(left', curToken) <- infix left token curToken ;;
              parseExpression_while fuel' precedence left' curToken
          end
        else Ok (left, curToken)
      else Ok (left, curToken)
  end.

(** Fuel that suffices from the start of the token list (lemma
    [parse_total]). *)
Definition parse_fuel : nat := (2 * List.length tokens + 1)%nat.

(** [Parser(tokens).parse()] *)
Definition parse : result (ASTNode H) :=
  '(tree, curToken) <- parseExpression parse_fuel 0 0 ;;
  if (curToken <? List.length tokens)%nat
  then Raise (ParserError "Not a valid expression")
  else Ok tree.

End ParserMethods.

(** [parse_expression] of [utils/helpers.py]. *)
Definition parse_expression {H : Host} (expr : string)
  : result (ASTNode H) :=
  tokens <- Lexer expr ;; parse tokens.

(* ================================================================== *)
(** ** Evaluator ([calc/evaluator/evaluator.py]) *)
(* ================================================================== *)

Section EvaluatorMethods.
Context {H : Host}.

(** [self.variable_value], set by [evaluate] before the tree walk. *)
Variable variable_value : value H.

(** [evaluate_expression] with the methods it dispatches to
    ([evaluate_number], [evaluate_variable], [evaluate_prefix_expression],
    [evaluate_infix_expression], [evaluate_function_call]) written in
    place.  Operands are evaluated left to right, as Python does. *)
Fixpoint evaluate_expression (ast : ASTNode H) : result (value H) :=
  match ast with
  | NumberLiteral v => Ok v
  | VariableNode _ => Ok variable_value
  | PrefixExpression operator operand =>
      if String.eqb operator "-" then
        v <- evaluate_expression operand ;; Ok (py_neg v)
      else if String.eqb operator "+" then evaluate_expression operand
      else Raise (EvaluatorError "Not a vaild prefix operator")
  | InfixExpression l operator r =>
      if String.eqb operator "+" then
        a <- evaluate_expression l ;; b <- evaluate_expression r ;;
        py_add a b
      else if String.eqb operator "-" then
        a <- evaluate_expression l ;; b <- evaluate_expression r ;;
        py_sub a b
      else if String.eqb operator "*" then
        a <- evaluate_expression l ;; b <- evaluate_expression r ;;
        py_mul a b
      else if String.eqb operator "/" then
        dividend <- evaluate_expression l ;;
        divisor <- evaluate_expression r ;;
        if py_eq0 divisor then Raise (EvaluatorError "Division by zero")
        else py_truediv dividend divisor
      else if String.eqb operator "^" then
        a <- evaluate_expression l ;; b <- evaluate_expression r ;;
        py_pow a b
      else Raise (EvaluatorError "Not a vaild infix operator")
  | FunctionCall fn parameter =>
      if String.eqb fn "sqrt" then
        v <- evaluate_expression parameter ;;
        if py_lt0 v
        then Raise (EvaluatorError "Square root of negative number")
        else py_math_sqrt v
      else if String.eqb fn "log10" then
        v <- evaluate_expression parameter ;;
        if py_le0 v
        then Raise (EvaluatorError "Logarithm of non-positive number")
        else py_math_log10 v
      else if String.eqb fn "sin" then
        v <- evaluate_expression parameter ;; py_math_sin v
      else if String.eqb fn "cos" then
        v <- evaluate_expression parameter ;; py_math_cos v
      else Raise (UnknownFunctionError fn)
  end.

End EvaluatorMethods.

(** [Evaluator(ast).evaluate(variable_value)] *)
Definition evaluate {H : Host} (ast : ASTNode H) (variable_value : value H)
  : result (value H) :=
  evaluate_expression variable_value ast.


(* ================================================================== *)
(** ** Symbolic conversion ([to_sympy_expr] in [calc/ast/ast.py]) *)
(* ================================================================== *)

(** A positional argument of a constructor call. *)
Inductive pyarg : Type :=
| ArgStr (s : string)
| ArgInt (z : Z).

(** Calling the class [ParserError]: its [__init__(self, message)] takes
    one positional argument besides [self]; with any other number of
    arguments the call itself raises [TypeError] and no [ParserError]
    is built. *)
Definition ParserError_call (args : list pyarg) : result exn :=
  match args with
  | [ArgStr message] => Ok (ParserError message)
  | [ArgInt z] => m <- py_str_int z ;; Ok (ParserError m)
  | [] =>
      Raise (TypeError
        "ParserError.__init__() missing 1 required positional argument: 'message'")
  | _ :: _ :: _ =>
      Raise (TypeError
        ("ParserError.__init__() takes 2 positional arguments but "
         ++ str_of_N (N.of_nat (S (List.length args))) ++ " were given"))
  end.

(** [raise C(args)]: the exception raised is the one the call builds, or
    the one the call raises. *)
Definition py_raise {A} (call : result exn) : result A :=
  e <- call ;; Raise e.

Section Sympy.
Context {H : Host}.

(** The terms built from [sympy]'s constructors; the backend's own
    simplification is outside this model. *)
Inductive Expr : Type :=
| Symbol_x
| Number (v : value H)
| Add (a b : Expr)
| Mul (a b : Expr)
| Pow (a b : Expr)
| sympy_sqrt (a : Expr)
| sympy_log (a base : Expr)
| sympy_sin (a : Expr)
| sympy_cos (a : Expr).

Fixpoint to_sympy_expr (node : ASTNode H) : result Expr :=
  match node with
  | NumberLiteral v => Ok (Number v)
  | VariableNode _ => Ok Symbol_x
  | PrefixExpression operator operand =>
      if String.eqb operator "-" then
        a <- to_sympy_expr operand ;; Ok (Mul a (Number (VInt (-1))))
      else py_raise (ParserError_call [ArgStr "Not a valid prefix operator"])
  | InfixExpression l operator r =>
      if String.eqb operator "+" then
        a <- to_sympy_expr l ;; b <- to_sympy_expr r ;; Ok (Add a b)
      else if String.eqb operator "-" then
        a <- to_sympy_expr l ;; b <- to_sympy_expr r ;;
        Ok (Add a (Mul b (Number (VInt (-1)))))
      else if String.eqb operator "*" then
        a <- to_sympy_expr l ;; b <- to_sympy_expr r ;; Ok (Mul a b)
      else if String.eqb operator "/" then
        a <- to_sympy_expr l ;; b <- to_sympy_expr r ;;
        Ok (Mul a (Pow b (Number (VInt (-1)))))
      else if String.eqb operator "^" then
        a <- to_sympy_expr l ;; b <- to_sympy_expr r ;; Ok (Pow a b)
      else py_raise (ParserError_call [ArgStr "Not a valid infix operator"])
  | FunctionCall fn parameter =>
      if String.eqb fn "sqrt" then
        a <- to_sympy_expr parameter ;; Ok (sympy_sqrt a)
      else if String.eqb fn "log10" then
        a <- to_sympy_expr parameter ;; Ok (sympy_log a (Number (VInt 10)))
      else if String.eqb fn "sin" then
        a <- to_sympy_expr parameter ;; Ok (sympy_sin a)
      else if String.eqb fn "cos" then
        a <- to_sympy_expr parameter ;; Ok (sympy_cos a)
      else
        py_raise (ParserError_call [ArgStr "Not a valid function";
                                    ArgInt (-1)])
  end.

(** The function names [to_sympy_expr] and the evaluator know. *)
Definition known_function (fn : string) : bool :=
  String.eqb fn "sqrt" || String.eqb fn "log10"
  || String.eqb fn "sin" || String.eqb fn "cos".

End Sympy.

Arguments Expr : clear implicits.

(* ================================================================== *)
(** ** Sampler ([utils/helpers.py]) *)
(* ================================================================== *)

Section Sampler.
Local Open Scope list_scope.

(** Grid values: the entries of a [float64] array, with the order a
    sort puts them in ([a] before [b] when [leb a b]). *)
Variable X : Type.
Variable leb : X -> X -> bool.

(** The constants [0], [-100] and [100] as grid values. *)
Variable x_zero x_neg100 x_pos100 : X.

(** [np.linspace(start, stop, num)] for [num >= 0]. *)
Variable linspace : X -> X -> nat -> list X.

(** Sampled values: the entries of the [y] array, [np.nan] among them;
    [absdiff a b] is [np.abs(b - a)] and [gt d t] is [d > t]. *)
Variable Y : Type.
Variable nan : Y.
Variable absdiff : Y -> Y -> Y.
Variable gt : Y -> Y -> bool.

Definition x_lt (a b : X) : bool := leb a b && negb (leb b a).
Definition x_eq (a b : X) : bool := leb a b && leb b a.

(** Python's [min(a, b)] and [max(a, b)]: the first argument unless the
    second is strictly smaller (larger). *)
Definition py_min (a b : X) : X := if x_lt b a then b else a.
Definition py_max (a b : X) : X := if x_lt a b then b else a.

(** [np.linspace] refuses a negative number of samples. *)
Definition np_linspace (start stop : X) (num : Z) : result (list X) :=
  if num <? 0
  then
    n <- py_str_int num ;;
    Raise (ValueError
      ("Number of samples, " ++ n ++ ", must be non-negative."))
  else Ok (linspace start stop (Z.to_nat num)).

(** Sorting in ascending order ([ndarray.sort], [np.sort]). *)
Fixpoint insert_sorted (a : X) (l : list X) : list X :=
  match l with
  | [] => [a]
  | b :: l' => if leb a b then a :: l else b :: insert_sorted a l'
  end.

Fixpoint np_sort (l : list X) : list X :=
  match l with
  | [] => []
  | a :: l' => insert_sorted a (np_sort l')
  end.

(** [np.unique] after the sort: entry [i] is kept when it differs from
    entry [i - 1]; the first entry is kept. *)
Fixpoint unique_mask (prev : X) (l : list X) : list X :=
  match l with
  | [] => []
  | a :: l' =>
      if negb (x_eq a prev) then a :: unique_mask a l' else unique_mask a l'
  end.

Definition np_unique (l : list X) : list X :=
  match np_sort l with
  | [] => []
  | a :: l' => a :: unique_mask a l'
  end.

(** [np.union1d(a, b) = np.unique(np.concatenate((a, b)))] *)
Definition union1d (a b : list X) : list X := np_unique (a ++ b).

(** The points [func] was called on, in order. *)
Definition call_log : Type := list X.

(** [safe_evaluate]: the loop over [x_values].  An [EvaluatorError] is
    caught and recorded as [nan]; any other exception leaves the loop and
    the function. *)
Fixpoint safe_evaluate_loop (func : X -> result Y) (x_values : list X)
  (y : list Y) (log : call_log) : result (list Y) * call_log :=
  match x_values with
  | [] => (Ok y, log)
  | x :: rest =>
      match func x with
      | Ok v => safe_evaluate_loop func rest (y ++ [v]) (log ++ [x])
      | Raise e =>
          if is_EvaluatorError e
          then safe_evaluate_loop func rest (y ++ [nan]) (log ++ [x])
          else (Raise e, log ++ [x])
      | OutOfFuel => (OutOfFuel, log ++ [x])
      end
  end.

Definition safe_evaluate (func : X -> result Y) (x_values : list X)
  (log : call_log) : result (list Y) * call_log :=
  safe_evaluate_loop func x_values [] log.

(** [np.abs(np.diff(y))] *)
Fixpoint abs_diff (y : list Y) : list Y :=
  match y with
  | a :: ((b :: _) as y') => absdiff a b :: abs_diff y'
  | _ => []
  end.

(** [np.where(mask)[0]]: the indices at which the mask holds. *)
Fixpoint np_where_from (i : nat) (mask : list bool) : list nat :=
  match mask with
  | [] => []
  | b :: mask' =>
      if b then i :: np_where_from (S i) mask'
      else np_where_from (S i) mask'
  end.

Definition np_where (mask : list bool) : list nat := np_where_from 0 mask.

(** The initial grid of [adaptive_sampling]. *)
Definition initial_grid (x_min x_max : X) (num_points : Z)
  (must_evaluate_points : list X) : result (list X) :=
  let must_evaluate_points := must_evaluate_points ++ [x_zero] in
  grid <- np_linspace (py_min x_min x_neg100) (py_max x_max x_pos100)
            num_points ;;
  Ok (union1d grid must_evaluate_points).

(** The indices [high_curvature] computed from the first evaluation. *)
Definition high_curvature_of (y : list Y) (tolerance : Y) : list nat :=
  let dy := abs_diff y in
  np_where (map (fun d => gt d tolerance) dy).

(** The list [new_x] after the [for] loop. *)
Definition new_x_of (x : list X) (high_curvature : list nat) : list X :=
  flat_map (fun i => linspace (nth i x x_zero) (nth (i + 1) x x_zero) 10)
    high_curvature.

(** [adaptive_sampling]; the second component is the log of the calls
    made to [func]. *)
Definition adaptive_sampling (func : X -> result Y) (x_min x_max : X)
  (num_points : Z) (must_evaluate_points : list X) (tolerance : Y)
  : result (list X * list Y) * call_log :=
  match initial_grid x_min x_max num_points must_evaluate_points with
  | Ok x =>
      match safe_evaluate func x [] with
      | (Ok y, log) =>
          let high_curvature := high_curvature_of y tolerance in
          let new_x := new_x_of x high_curvature in
          let x := np_sort (union1d x new_x) in
          match safe_evaluate func x log with
          | (Ok y, log) => (Ok (x, y), log)
          | (Raise e, log) => (Raise e, log)
          | (OutOfFuel, log) => (OutOfFuel, log)
          end
      | (Raise e, log) => (Raise e, log)
      | (OutOfFuel, log) => (OutOfFuel, log)
      end
  | Raise e => (Raise e, [])
  | OutOfFuel => (OutOfFuel, [])
  end.

(** [m in x] on an array: some entry equals [m]. *)
Definition occurs (m : X) (x : list X) : bool := existsb (x_eq m) x.

End Sampler.

(* ================================================================== *)
(** ** The sampler on exact rationals *)
(* ================================================================== *)

(** Grid values as rationals: the sampler in exact arithmetic.  The
    arrays of the program are binary64, the instance of the next
    section; [np.linspace] rounds there, and overflows, which it does
    not here.  This instance runs the generic sampler where no property
    of the arithmetic is at stake: the calls made to [func], the
    exceptions absorbed and passed on. *)

(** An entry of a [y] array: a number or [np.nan]. *)
Inductive yval : Type :=
| YNum (q : Q)
| YNan.

(** [np.abs(b - a)]; [nan] if either is. *)
Definition yabsdiff (a b : yval) : yval :=
  match a, b with
  | YNum p, YNum q => YNum (Qabs (q - p)%Q)
  | _, _ => YNan
  end.

(** [d > t]; false if either is [nan]. *)
Definition ygt (d t : yval) : bool :=
  match d, t with
  | YNum p, YNum q => negb (Qle_bool p q)
  | _, _ => false
  end.

(** [np.linspace(start, stop, num)] without rounding:
    [arange(0, num) * step + start] with
    [step = (stop - start) / (num - 1)], the last entry set to [stop]. *)
Definition linspaceQ (start stop : Q) (num : nat) : list Q :=
  match num with
  | O => []
  | S O => [start]
  | S (S _ as div) =>
      let step := ((stop - start) / inject_Z (Z.of_nat div))%Q in
      (map (fun i => (inject_Z (Z.of_nat i) * step + start)%Q) (seq 0 div)
       ++ [stop])%list
  end.

Definition adaptive_sampling_Q (func : Q -> result yval) (x_min x_max : Q)
  (num_points : Z) (must_evaluate_points : list Q) (tolerance : yval)
  : result (list Q * list yval) * list Q :=
  adaptive_sampling Qle_bool 0%Q (-100)%Q 100%Q linspaceQ YNan yabsdiff ygt
    func x_min x_max num_points must_evaluate_points tolerance.

(** The default [tolerance = 1e-3]. *)
Definition default_tolerance : yval := YNum (1 # 1000).


(* ================================================================== *)
(** ** The sampler on binary64 *)
(* ================================================================== *)

(** Grid values and sampled values as the program has them: the entries
    of a [float64] array, IEEE 754 binary64 numbers with their
    infinities and NaN, here the primitive floats of the kernel.  Their
    arithmetic rounds to nearest even, as the processor does.  The
    sampled values are the entries of the array [np.array] makes of what
    [func] returned.  Entries that compare equal ([0.0] and [-0.0]) are
    one grid value; which of the two a sort leaves first is the choice
    of the sorting algorithm, here that of the insertion sort of
    [np_sort]. *)

(** The order of [np.sort] and [ndarray.sort] on floats: [a] is put
    before [b] when [a <= b], and NaN after every number.  Python's
    [min] and [max] compare with [<], which is false on NaN. *)
Definition float_sort_leb (a b : PrimFloat.float) : bool :=
  PrimFloat.leb a b || PrimFloat.is_nan b.

Definition py_min_float (a b : PrimFloat.float) : PrimFloat.float :=
  if PrimFloat.ltb b a then b else a.

Definition py_max_float (a b : PrimFloat.float) : PrimFloat.float :=
  if PrimFloat.ltb a b then b else a.

(** An array index or length as a float; arrays are shorter than
    [2^63]. *)
Definition float_of_nat (n : nat) : PrimFloat.float :=
  PrimFloat.of_uint63 (Uint63.of_Z (Z.of_nat n)).

(** [np.linspace(start, stop, num)] for [num >= 0], as
    [numpy/_core/function_base.py] computes it: with [div = num - 1] and
    [delta = stop - start], the array [arange(0, num)] is multiplied by
    [step = delta / div], or divided by [div] and multiplied by [delta]
    when [step == 0], or multiplied by [delta] when [div] is [0];
    [start] is added, and for [num > 1] the last entry is set to
    [stop]. *)
Definition linspace_float (start stop : PrimFloat.float) (num : nat)
  : list PrimFloat.float :=
  let div := (num - 1)%nat in
  let delta := PrimFloat.sub stop start in
  let y := map float_of_nat (seq 0 num) in
  let y :=
    if (0 <? div)%nat then
      let step := PrimFloat.div delta (float_of_nat div) in
      if PrimFloat.eqb step PrimFloat.zero
      then map (fun v =>
                  PrimFloat.mul (PrimFloat.div v (float_of_nat div)) delta)
             y
      else map (fun v => PrimFloat.mul v step) y
    else map (fun v => PrimFloat.mul v delta) y in
  let y := map (fun v => PrimFloat.add v start) y in
  if (1 <? num)%nat then (removelast y ++ [stop])%list else y.

(** [np.abs(b - a)] and [d > t] on floats. *)
Definition float_abs_diff (a b : PrimFloat.float) : PrimFloat.float :=
  PrimFloat.abs (PrimFloat.sub b a).

Definition float_gt (d t : PrimFloat.float) : bool := PrimFloat.ltb t d.

(** The constants [-100], [100] and [0] of [adaptive_sampling]. *)
Definition float_neg100 : PrimFloat.float :=
  PrimFloat.opp (float_of_nat 100).
Definition float_pos100 : PrimFloat.float := float_of_nat 100.

(** The initial grid on floats.  The two ends of the [linspace] are
    computed with Python's [min] and [max]; the generic grid takes the
    minimum and the maximum of each with itself, which leaves them as
    they are. *)
Definition initial_grid_float (x_min x_max : PrimFloat.float)
  (num_points : Z) (must_evaluate_points : list PrimFloat.float)
  : result (list PrimFloat.float) :=
  let lo := py_min_float x_min float_neg100 in
  let hi := py_max_float x_max float_pos100 in
  initial_grid float_sort_leb PrimFloat.zero lo hi linspace_float lo hi
    num_points must_evaluate_points.

(** [adaptive_sampling] on floats, with the log of the calls to
    [func]. *)
Definition adaptive_sampling_float
  (func : PrimFloat.float -> result PrimFloat.float)
  (x_min x_max : PrimFloat.float) (num_points : Z)
  (must_evaluate_points : list PrimFloat.float)
  (tolerance : PrimFloat.float)
  : result (list PrimFloat.float * list PrimFloat.float)
    * list PrimFloat.float :=
  let lo := py_min_float x_min float_neg100 in
  let hi := py_max_float x_max float_pos100 in
  adaptive_sampling float_sort_leb PrimFloat.zero lo hi linspace_float
    PrimFloat.nan float_abs_diff float_gt func lo hi num_points
    must_evaluate_points tolerance.

(** The default [tolerance = 1e-3]: the float nearest to it. *)
Definition default_tolerance_float : PrimFloat.float :=
  PrimFloat.div (float_of_nat 1) (float_of_nat 1000).

(* ################################################################## *)
(** * Part II: vocabulary *)
(* ################################################################## *)

(* ================================================================== *)
(** ** Vocabulary of the statements *)
(* ================================================================== *)

(** [res_le r r']: [r'] is [r] unless [r] ran out of fuel. *)
Definition res_le {A} (r r' : result A) : Prop := r = OutOfFuel \/ r' = r.

Section ParserVocabulary.
Context {H : Host}.

(** The callee [pE'] returns what [pE] returns, with more fuel. *)
Definition callee_le (pE pE' : Z -> parser (ASTNode H)) : Prop :=
  forall p c, res_le (pE p c) (pE' p c).

(** A call that returns has consumed a token. *)
Definition callee_progress (pE : Z -> parser (ASTNode H)) : Prop :=
  forall p c t c', pE p c = Ok (t, c') -> (c < c')%nat.

(** From position [c0] on, the callee has enough fuel. *)
Definition callee_total_from (pE : Z -> parser (ASTNode H)) (c0 : nat)
  : Prop :=
  forall p c, (c0 <= c)%nat -> pE p c <> OutOfFuel.

(** The condition of the [while] loop is false at [c]. *)
Definition loop_done (tokens : list (Token H)) (precedence : Z) (c : nat)
  : Prop :=
  (c <? List.length tokens)%nat = false \/
  exists q, getPrecedence tokens c = Ok q /\ (precedence <? q) = false.

(** The same result, one position further. *)
Definition shift_res (r : result (ASTNode H * nat))
  : result (ASTNode H * nat) :=
  '(t, c) <- r ;; Ok (t, S c).

Definition callee_shift (pE pE' : Z -> parser (ASTNode H)) : Prop :=
  forall p c, pE' p (S c) = shift_res (pE p c).

(** [r] is a run on [tokens ++ [rp]], [r'] the same run on [tokens]:
    when the first returns, the second returns the same. *)
Definition trunc_rel (r r' : result (ASTNode H * nat)) : Prop :=
  forall t c, r = Ok (t, c) -> r' = Ok (t, c).

Definition callee_trunc (pE pE' : Z -> parser (ASTNode H)) : Prop :=
  forall p c, trunc_rel (pE p c) (pE' p c).

(** The token the lexer makes of ["-"]. *)
Definition minus_token : Token H := mkToken minus (TStr "-").

(** The token of a number. *)
Definition number_token (v : value H) : Token H :=
  mkToken number (TNum v).

End ParserVocabulary.

(** The binary operators: token type and text. *)
Definition binary_operators : list (TokenType * string) :=
  [(plus, "+"); (minus, "-"); (asterisk, "*"); (slash, "/");
   (exponent, "^")].

(** The messages of [ParserError] that section 6 of the spec lists as
    stable: "No prefix function for {value}", "Nothing to parse at the end
    of the input", "Expected left parenthesis", "Not a valid
    expression". *)
Definition spec_listed_parser_message (m : string) : Prop :=
  (exists v, m = "No prefix function for " ++ v)
  \/ m = "Nothing to parse at the end of the input"
  \/ m = "Expected left parenthesis"
  \/ m = "Not a valid expression".

(** The same exception, raised one character further in the text. *)
Definition shift_exn (e : exn) : exn :=
  match e with
  | LexerError m p => LexerError m (S p)
  | _ => e
  end.

(** The same outcome, with the positions it carries moved by [f] and a
    lexical error one character further. *)
Definition at_next {A B} (f : A -> B) (r : result A) : result B :=
  match r with
  | Ok a => Ok (f a)
  | Raise e => Raise (shift_exn e)
  | OutOfFuel => OutOfFuel
  end.

(** What [safe_evaluate] records for one point whose evaluation returned
    or raised [EvaluatorError]. *)
Definition absorbed {X Y : Type} (nan : Y) (func : X -> result Y) (x : X)
  : Y :=
  match func x with
  | Ok v => v
  | _ => nan
  end.

(** [func] at [x] returns or raises [EvaluatorError]. *)
Definition absorbable {X Y : Type} (func : X -> result Y) (x : X) : bool :=
  match func x with
  | Ok _ => true
  | Raise e => is_EvaluatorError e
  | OutOfFuel => false
  end.

(** The test of the refinement on the grid pair [(a, b)]: the absolute
    difference of the two sampled values exceeds the tolerance. *)
Definition pair_exceeds (func : Q -> result yval) (tol : yval) (a b : Q)
  : bool :=
  ygt (yabsdiff (absorbed YNan func a) (absorbed YNan func b)) tol.

(** A function with a jump at [50]. *)
Definition step_at_50 (x : Q) : result yval :=
  if Qle_bool 50 x then Ok (YNum 1) else Ok (YNum 0).


(* ================================================================== *)
(** ** Vocabulary of the further properties *)
(* ================================================================== *)

Section TokenVocabulary.
Context {H : Host}.

(** The tokens the lexer makes of ["+"] and ["*"]. *)
Definition plus_token : Token H := mkToken plus (TStr "+").
Definition asterisk_token : Token H := mkToken asterisk (TStr "*").

(** A token as [Lexer] builds it: a number token carries a number, an
    [int] that is not negative or a [float]; a token of one character
    carries that character, a variable token ["x"], a function token a
    name that is not empty. *)
Definition lexer_token (t : Token H) : bool :=
  match type t, tvalue t with
  | number, TNum (VInt z) => 0 <=? z
  | number, TNum (VFloat _) => true
  | variable, TStr s => String.eqb s "x"
  | minus, TStr s => String.eqb s "-"
  | plus, TStr s => String.eqb s "+"
  | slash, TStr s => String.eqb s "/"
  | asterisk, TStr s => String.eqb s "*"
  | dot, TStr s => String.eqb s "."
  | exponent, TStr s => String.eqb s "^"
  | lparen, TStr s => String.eqb s "("
  | rparen, TStr s => String.eqb s ")"
  | function, TStr s => negb (String.eqb s "")
  | _, _ => false
  end.

(** A number token or a variable token: a token that is an operand on
    its own. *)
Definition atom_token (t : Token H) : bool :=
  match type t, tvalue t with
  | number, TNum _ => true
  | variable, TStr _ => true
  | _, _ => false
  end.

End TokenVocabulary.

(** [e] is one of the two errors of the lexer, at a position of [text]
    counted from 1, on the character the message is about. *)
Definition lexer_error_at (text : string) (e : exn) : Prop :=
  exists m p,
    e = LexerError m p
    /\ (1 <= p <= String.length text)%nat
    /\ ((m = "Multiple decimal points"
         /\ text_at text (p - 1) = "."%char)
        \/ (m = "Invalid character"
            /\ isalpha (text_at text (p - 1)) = false
            /\ isdigit (text_at text (p - 1)) = false
            /\ isspace (text_at text (p - 1)) = false)).

(** [text] has a character [str.isdigit] holds of that is no decimal
    digit. *)
Definition has_odd_digit (text : string) : Prop :=
  exists i,
    (i < String.length text)%nat
    /\ isdigit (text_at text i) = true
    /\ isdecimal (text_at text i) = false.

(** [e] is the [ValueError] of [int] or [float] on a number of [text]:
    then the text has a digit that is not decimal, or more than
    [int_max_str_digits] characters. *)
Definition conversion_error_of (text : string) (e : exn) : Prop :=
  (exists m, e = ValueError m)
  /\ (has_odd_digit text
      \/ int_max_str_digits < Z.of_nat (String.length text)).

(** The text of [n] times the character [c]. *)
Fixpoint repeat_char (c : ascii) (n : nat) : string :=
  match n with
  | O => EmptyString
  | S n' => String c (repeat_char c n')
  end.

(** Every character of [s] is a decimal digit. *)
Fixpoint all_digits (s : string) : bool :=
  match s with
  | EmptyString => true
  | String c s' => isdecimal c && all_digits s'
  end.

(** Every character of [s] is a letter or a digit; is white space. *)
Fixpoint all_alnum (s : string) : bool :=
  match s with
  | EmptyString => true
  | String c s' => isalnum c && all_alnum s'
  end.

Fixpoint all_space (s : string) : bool :=
  match s with
  | EmptyString => true
  | String c s' => isspace c && all_space s'
  end.

(** The messages of the [ParserError]s the parser raises: those of
    [spec_listed_parser_message], and ["Expected right parenthesis"]. *)
Definition parser_message (m : string) : Prop :=
  spec_listed_parser_message m \/ m = "Expected right parenthesis".

(** The precedence of a binary operator in [precedences], and the
    precedence [parseInfixExpression] reads its right operand with: the
    operator's own, one less for [exponent]. *)
Definition operator_precedence (ty : TokenType) : Z :=
  match precedences ty with Some p => p | None => 0 end.

Definition right_operand_precedence (ty : TokenType) : Z :=
  if TokenType_eqb ty exponent then operator_precedence ty - 1
  else operator_precedence ty.

Section TreeVocabulary.
Context {H : Host}.

(** The operators of the tree are those the evaluator and the symbolic
    conversion know: prefix [-], infix [+ - * / ^]. *)
Fixpoint operators_valid (t : ASTNode H) : bool :=
  match t with
  | NumberLiteral _ | VariableNode _ => true
  | PrefixExpression op e => String.eqb op "-" && operators_valid e
  | InfixExpression l op r =>
      (String.eqb op "+" || String.eqb op "-" || String.eqb op "*"
       || String.eqb op "/" || String.eqb op "^")
      && operators_valid l && operators_valid r
  | FunctionCall _ p => operators_valid p
  end.

(** Every function called in the tree is one of [sqrt], [log10], [sin],
    [cos]. *)
Fixpoint functions_known (t : ASTNode H) : bool :=
  match t with
  | NumberLiteral _ | VariableNode _ => true
  | PrefixExpression _ e => functions_known e
  | InfixExpression l _ r => functions_known l && functions_known r
  | FunctionCall fn p => known_function fn && functions_known p
  end.

(** The tree has a [Variable] node. *)
Fixpoint mentions_variable (t : ASTNode H) : bool :=
  match t with
  | NumberLiteral _ => false
  | VariableNode _ => true
  | PrefixExpression _ e => mentions_variable e
  | InfixExpression l _ r => mentions_variable l || mentions_variable r
  | FunctionCall _ p => mentions_variable p
  end.

(** Integer arithmetic on a tree, the variable bound to the integer
    [x]: defined on [int] literals, the variable, prefix [-] and [+],
    infix [+], [-], [*], and [^] with an exponent that is not negative;
    undefined on anything else. *)
Fixpoint integer_value (t : ASTNode H) (x : Z) : option Z :=
  match t with
  | NumberLiteral (VInt z) => Some z
  | NumberLiteral (VFloat _) => None
  | VariableNode _ => Some x
  | PrefixExpression op e =>
      if String.eqb op "-" then option_map Z.opp (integer_value e x)
      else if String.eqb op "+" then integer_value e x
      else None
  | InfixExpression l op r =>
      match integer_value l x, integer_value r x with
      | Some a, Some b =>
          if String.eqb op "+" then Some (a + b)
          else if String.eqb op "-" then Some (a - b)
          else if String.eqb op "*" then Some (a * b)
          else if String.eqb op "/" then None
          else if String.eqb op "^" then
            if 0 <=? b then Some (a ^ b) else None
          else None
      | _, _ => None
      end
  | FunctionCall _ _ => None
  end.

(** What a run of the parser on lexed tokens gives: a tree with valid
    operators, or a [ParserError] with one of the parser's messages. *)
Definition good_res (r : result (ASTNode H * nat)) : Prop :=
  match r with
  | Ok (t, _) => operators_valid t = true
  | Raise e => exists m, e = ParserError m /\ parser_message m
  | OutOfFuel => True
  end.

Definition callee_good (pE : Z -> parser (ASTNode H)) : Prop :=
  forall p c, 0 <= p -> good_res (pE p c).

(** No token of [tokens] at a position from [c] up to [c'], [c']
    excluded, is a [dot]. *)
Definition no_dot_between (tokens : list (Token H)) (c c' : nat) : Prop :=
  forall i tok,
    (c <= i < c')%nat -> nth_error tokens i = Some tok -> type tok <> dot.

Definition callee_no_dot (tokens : list (Token H))
  (pE : Z -> parser (ASTNode H)) : Prop :=
  forall p c t c', pE p c = Ok (t, c') -> no_dot_between tokens c c'.

(** What the callee [pE] returns on a token list, with a precedence that
    is not negative, [pE'] returns on the list with a closing
    parenthesis added. *)
Definition callee_extend (pE pE' : Z -> parser (ASTNode H)) : Prop :=
  forall p c, 0 <= p -> trunc_rel (pE p c) (pE' p c).

End TreeVocabulary.

(** The exception of the call [ParserError("Not a valid function", -1)]. *)
Definition not_a_valid_function_TypeError : exn :=
  TypeError
    "ParserError.__init__() takes 2 positional arguments but 3 were given".

(** A constant function. *)
Definition constant_one (x : Q) : result yval := Ok (YNum 1).

(* ================================================================== *)
(** ** Vocabulary of the sampler on binary64 *)
(* ================================================================== *)


(** Two floats are the same grid value for [np.unique]: they are equal
    ([0.0] and [-0.0] are), or both are NaN. *)
Definition same_float (a b : PrimFloat.float) : bool :=
  PrimFloat.eqb a b || (PrimFloat.is_nan a && PrimFloat.is_nan b).

(** [m] is a value of the array [x]: for a number [m], [m in x]. *)
Definition float_in (m : PrimFloat.float) (x : list PrimFloat.float)
  : bool :=
  existsb (same_float m) x.


(** The test of the refinement on the grid pair [(a, b)], on floats. *)
Definition pair_exceeds_float
  (func : PrimFloat.float -> result PrimFloat.float)
  (tol a b : PrimFloat.float) : bool :=
  float_gt
    (float_abs_diff (absorbed PrimFloat.nan func a)
       (absorbed PrimFloat.nan func b))
    tol.

(** [func] returned a value at [a]. *)
Definition defined_at (func : PrimFloat.float -> result PrimFloat.float)
  (a : PrimFloat.float) : Prop :=
  exists v, func a = Ok v.


(** The bounds [-10] and [10]. *)
Definition float_neg10 : PrimFloat.float := PrimFloat.opp (float_of_nat 10).
Definition float_pos10 : PrimFloat.float := float_of_nat 10.

Definition float_below_100 : PrimFloat.float := 0x1.8ffffffffffffp+6%float.


Definition step_at_50_float (x : PrimFloat.float)
  : result PrimFloat.float :=
  if PrimFloat.leb (float_of_nat 50) x then Ok (float_of_nat 1)
  else Ok PrimFloat.zero.

Definition step_at_100_float (x : PrimFloat.float)
  : result PrimFloat.float :=
  if PrimFloat.leb float_pos100 x then Ok (float_of_nat 1)
  else Ok PrimFloat.zero.

Definition undefined_below_0_float (x : PrimFloat.float)
  : result PrimFloat.float :=
  if PrimFloat.leb PrimFloat.zero x then Ok x
  else Raise (EvaluatorError "Square root of negative number").

(* ################################################################## *)
(** * Part III: lemmas *)
(* ################################################################## *)

(* ================================================================== *)
(** ** Facts about results *)
(* ================================================================== *)

Lemma rbind_Ok_inv {A B} (m : result A) (k : A -> result B) (b : B) :
  rbind m k = Ok b -> exists a, m = Ok a /\ k a = Ok b.
Proof.
  destruct m as [a | e |]; simpl; intros E; try discriminate.
  exists a; split; [reflexivity | exact E].
Qed.

Lemma rbind_not_OutOfFuel {A B} (m : result A) (k : A -> result B) :
  m <> OutOfFuel -> (forall a, m = Ok a -> k a <> OutOfFuel) ->
  rbind m k <> OutOfFuel.
Proof.
  destruct m as [a | e |]; simpl; intros Hm Hk.
  - apply Hk; reflexivity.
  - discriminate.
  - contradiction.
Qed.

Lemma res_le_refl {A} (r : result A) : res_le r r.
Proof. right; reflexivity. Qed.

Lemma res_le_bind {A B} (m m' : result A) (k k' : A -> result B) :
  res_le m m' -> (forall a, res_le (k a) (k' a)) ->
  res_le (rbind m k) (rbind m' k').
Proof.
  intros [Hm | Hm] Hk.
  - left; rewrite Hm; reflexivity.
  - rewrite Hm. destruct m as [a | e |]; simpl.
    + apply Hk.
    + right; reflexivity.
    + left; reflexivity.
Qed.

Lemma res_le_eq {A} (r r' : result A) :
  res_le r r' -> r <> OutOfFuel -> r' = r.
Proof. intros [E | E] Hn; [contradiction | exact E]. Qed.

(* ================================================================== *)
(** ** Parser: unfolding, fuel and progress *)
(* ================================================================== *)

(** The branch of [parseExpression] for a token with no prefix function
    raises: the [ParserError], or the [ValueError] of formatting the
    token's value. *)
Lemma no_prefix_function_raises {H : Host} (v : token_value H) :
  exists e,
    (s <- token_value_str v ;;
     Raise (ParserError ("No prefix function for " ++ s)))
    = (Raise e : result (ASTNode H * nat)).
Proof.
  destruct v as [s | [z | f]]; simpl; try (eexists; reflexivity).
  unfold py_str_int. destruct (_ <? _); eexists; reflexivity.
Qed.

Ltac no_prefix tok :=
  let e := fresh "e" in
  let Ee := fresh "Ee" in
  destruct (no_prefix_function_raises (tvalue tok)) as (e & Ee);
  rewrite Ee in *.

Section ParserFacts.
Context {H : Host}.
Variable tokens : list (Token H).

Lemma parseExpression_S (fuel : nat) (precedence : Z) (curToken : nat) :
  parseExpression tokens (S fuel) precedence curToken =
  if (List.length tokens <=? curToken)%nat then
    Raise (ParserError "Nothing to parse at the end of the input")
  else
    token <- tokens_get tokens curToken ;;
    match prefixFunctions tokens (parseExpression tokens fuel) (type token)
    with
    | None =>
        v <- token_value_str (tvalue token) ;;
        Raise (ParserError ("No prefix function for " ++ v))
    | Some prefix =>
        '(left', cur) <- prefix token (curToken + 1)%nat ;;
        parseExpression_while tokens fuel precedence left' cur
    end.
Proof. reflexivity. Qed.

Lemma parseExpression_while_S (fuel : nat) (precedence : Z)
  (left : ASTNode H) (curToken : nat) :
  parseExpression_while tokens (S fuel) precedence left curToken =
  if (curToken <? List.length tokens)%nat then
    p <- getPrecedence tokens curToken ;;
    if precedence <? p then
      token <- tokens_get tokens curToken ;;
      match infixFunctions (parseExpression tokens fuel) (type token) with
      | None => Raise (KeyError "infixFunctions")
      | Some infix =>
          '(left', cur) <-
             infix left token
               (if negb (TokenType_in (type token) implicitMultiplications)
                then (curToken + 1)%nat else curToken) ;;
          parseExpression_while tokens fuel precedence left' cur
      end
    else Ok (left, curToken)
  else Ok (left, curToken).
Proof. reflexivity. Qed.

(** *** More fuel does not change a result *)

Ltac res_le_step :=
  first
    [ apply res_le_refl
    | match goal with
      | Hc : callee_le ?f ?g |- res_le (?f _ _) (?g _ _) => apply Hc
      | |- res_le (rbind _ _) (rbind _ _) =>
          apply res_le_bind; [ | intros ]
      | |- res_le (if ?b then _ else _) (if ?b then _ else _) => destruct b
      | |- res_le (match tvalue ?t with _ => _ end)
                  (match tvalue ?t with _ => _ end) => destruct (tvalue t)
      | |- res_le (let '(_, _) := ?a in _) (let '(_, _) := ?a in _) =>
          destruct a
      end ].

Ltac res_le_solve := repeat res_le_step.

Lemma parseParen_le pE pE' tok c :
  callee_le pE pE' ->
  res_le (parseParen tokens pE tok c) (parseParen tokens pE' tok c).
Proof. intros Hc. unfold parseParen. res_le_solve. Qed.

Lemma prefix_le pE pE' ty :
  callee_le pE pE' ->
  match prefixFunctions tokens pE ty, prefixFunctions tokens pE' ty with
  | Some h, Some h' => forall tok c, res_le (h tok c) (h' tok c)
  | None, None => True
  | _, _ => False
  end.
Proof.
  intros Hc. destruct ty; simpl; try exact I; intros tok c;
    try (unfold parseNumber, parseVariable, parsePrefixExpression;
         res_le_solve; fail).
  - apply parseParen_le; assumption.
  - unfold parseFunction. res_le_solve. apply parseParen_le; assumption.
Qed.

Lemma infix_le pE pE' ty :
  callee_le pE pE' ->
  match infixFunctions pE ty, infixFunctions pE' ty with
  | Some h, Some h' => forall l tok c, res_le (h l tok c) (h' l tok c)
  | None, None => True
  | _, _ => False
  end.
Proof.
  intros Hc. destruct ty; simpl; try exact I; intros l tok c;
    unfold parseInfixExpression, parseImplicitMultiplication;
    res_le_solve.
Qed.

Lemma parseExpression_fuel_S (fuel : nat) :
  (forall p c,
     res_le (parseExpression tokens fuel p c)
            (parseExpression tokens (S fuel) p c)) /\
  (forall p l c,
     res_le (parseExpression_while tokens fuel p l c)
            (parseExpression_while tokens (S fuel) p l c)).
Proof.
  induction fuel as [| fuel [IHe IHw]].
  - split; intros; left; reflexivity.
  - assert (Hc : callee_le (parseExpression tokens fuel)
                           (parseExpression tokens (S fuel)))
      by (intros p c; apply IHe).
    split.
    + intros p c.
      rewrite (parseExpression_S (S fuel)), (parseExpression_S fuel).
      destruct (List.length tokens <=? c)%nat; [apply res_le_refl |].
      apply res_le_bind; [apply res_le_refl | intros tok].
      pose proof (prefix_le (type tok) Hc) as Hp.
      destruct (prefixFunctions tokens (parseExpression tokens fuel)
                  (type tok)) as [h |],
               (prefixFunctions tokens (parseExpression tokens (S fuel))
                  (type tok)) as [h' |]; try contradiction.
      * apply res_le_bind; [apply Hp | intros [l c']; apply IHw].
      * apply res_le_refl.
    + intros p l c.
      rewrite (parseExpression_while_S (S fuel)),
              (parseExpression_while_S fuel).
      destruct (c <? List.length tokens)%nat; [| apply res_le_refl].
      apply res_le_bind; [apply res_le_refl | intros q].
      destruct (p <? q); [| apply res_le_refl].
      apply res_le_bind; [apply res_le_refl | intros tok].
      pose proof (infix_le (type tok) Hc) as Hp.
      destruct (infixFunctions (parseExpression tokens fuel) (type tok))
        as [h |],
        (infixFunctions (parseExpression tokens (S fuel)) (type tok))
        as [h' |]; try contradiction.
      * apply res_le_bind; [apply Hp | intros [l' c']; apply IHw].
      * apply res_le_refl.
Qed.

Lemma res_le_trans {A} (r1 r2 r3 : result A) :
  res_le r1 r2 -> res_le r2 r3 -> res_le r1 r3.
Proof.
  intros [E1 | E1] [E2 | E2];
    [left; exact E1 | left; exact E1 | left; congruence | right; congruence].
Qed.

Lemma parseExpression_fuel_mono (fuel fuel' : nat) p c :
  (fuel <= fuel')%nat ->
  res_le (parseExpression tokens fuel p c)
         (parseExpression tokens fuel' p c).
Proof.
  induction 1 as [| m _ IH]; [apply res_le_refl |].
  eapply res_le_trans; [exact IH | apply parseExpression_fuel_S].
Qed.

Lemma parseExpression_while_fuel_mono (fuel fuel' : nat) p l c :
  (fuel <= fuel')%nat ->
  res_le (parseExpression_while tokens fuel p l c)
         (parseExpression_while tokens fuel' p l c).
Proof.
  induction 1 as [| m _ IH]; [apply res_le_refl |].
  eapply res_le_trans; [exact IH | apply parseExpression_fuel_S].
Qed.

(** *** Every call consumes a token *)

Ltac inv_Ok :=
  repeat
    match goal with
    | E : rbind _ _ = Ok _ |- _ =>
        apply rbind_Ok_inv in E; destruct E as (? & ? & E)
    | E : (let '(_, _) := ?a in _) = Ok _ |- _ => destruct a
    | E : (if ?b then _ else _) = Ok _ |- _ => destruct b eqn:?
    | E : (match tvalue ?t with _ => _ end) = Ok _ |- _ =>
        destruct (tvalue t)
    | E : Raise _ = Ok _ |- _ => discriminate E
    | E : Ok _ = Ok _ |- _ => inversion E; subst; clear E
    | E : ?pE _ _ = Ok (_, _), Hp : callee_progress ?pE |- _ =>
        apply Hp in E
    end.

Lemma parseParen_progress pE tok c t c' :
  callee_progress pE ->
  parseParen tokens pE tok c = Ok (t, c') -> (c < c')%nat.
Proof. intros Hp E. unfold parseParen in E. inv_Ok; lia. Qed.

Lemma prefix_progress pE ty h tok c t c' :
  callee_progress pE ->
  prefixFunctions tokens pE ty = Some h ->
  h tok c = Ok (t, c') -> (c <= c')%nat.
Proof.
  intros Hp Eh E.
  destruct ty; simpl in Eh; inversion Eh; subst h; clear Eh.
  - unfold parseNumber in E. inv_Ok; lia.
  - unfold parseVariable in E. inv_Ok; lia.
  - unfold parsePrefixExpression in E. inv_Ok; lia.
  - inv_Ok; lia.
  - apply parseParen_progress in E; [lia | assumption].
  - unfold parseFunction in E. inv_Ok.
    match goal with
    | E' : parseParen _ _ _ _ = Ok _ |- _ =>
        apply parseParen_progress in E'; [lia | assumption]
    end.
Qed.

Lemma infix_progress pE ty h l tok c t c' :
  callee_progress pE ->
  infixFunctions pE ty = Some h ->
  h l tok c = Ok (t, c') -> (c < c')%nat.
Proof.
  intros Hp Eh E.
  destruct ty; simpl in Eh; inversion Eh; subst h; clear Eh;
    unfold parseInfixExpression, parseImplicitMultiplication in E;
    inv_Ok; lia.
Qed.

Lemma parseExpression_progress (fuel : nat) :
  callee_progress (parseExpression tokens fuel) /\
  (forall p l c t c',
     parseExpression_while tokens fuel p l c = Ok (t, c') -> (c <= c')%nat).
Proof.
  induction fuel as [| fuel [IHe IHw]].
  - split; [intros p c t c' E | intros p l c t c' E]; discriminate E.
  - split.
    + intros p c t c' E. rewrite parseExpression_S in E.
      destruct (List.length tokens <=? c)%nat; [discriminate E |].
      apply rbind_Ok_inv in E. destruct E as (tok & _ & E).
      destruct (prefixFunctions tokens (parseExpression tokens fuel)
                  (type tok)) as [h |] eqn:Eh;
        [| no_prefix tok; discriminate E].
      apply rbind_Ok_inv in E. destruct E as ([l c1] & E1 & E).
      apply (prefix_progress _ _ _ IHe Eh) in E1.
      apply IHw in E. lia.
    + intros p l c t c' E. rewrite parseExpression_while_S in E.
      destruct (c <? List.length tokens)%nat;
        [| inversion E; subst; lia].
      apply rbind_Ok_inv in E. destruct E as (q & _ & E).
      destruct (p <? q); [| inversion E; subst; lia].
      apply rbind_Ok_inv in E. destruct E as (tok & _ & E).
      destruct (infixFunctions (parseExpression tokens fuel) (type tok))
        as [h |] eqn:Eh; [| discriminate E].
      apply rbind_Ok_inv in E. destruct E as ([l1 c1] & E1 & E).
      apply (infix_progress _ _ _ _ IHe Eh) in E1.
      apply IHw in E.
      destruct (negb (TokenType_in (type tok) implicitMultiplications));
        lia.
Qed.

(** *** Enough fuel: the parser returns or raises *)

Lemma tokens_get_not_OutOfFuel i : tokens_get tokens i <> OutOfFuel.
Proof. unfold tokens_get. destruct (nth_error tokens i); discriminate. Qed.

Lemma precedences_get_not_OutOfFuel ty : precedences_get ty <> OutOfFuel.
Proof. unfold precedences_get. destruct (precedences ty); discriminate. Qed.

Lemma getPrecedence_not_OutOfFuel c : getPrecedence tokens c <> OutOfFuel.
Proof.
  unfold getPrecedence. apply rbind_not_OutOfFuel.
  - apply tokens_get_not_OutOfFuel.
  - intros t _. destruct (precedences (type t)); discriminate.
Qed.

Ltac not_oof :=
  repeat
    first
      [ discriminate
      | apply tokens_get_not_OutOfFuel
      | apply precedences_get_not_OutOfFuel
      | match goal with
        | Ht : callee_total_from ?pE _ |- ?pE _ _ <> OutOfFuel =>
            apply Ht; lia
        | |- rbind _ _ <> OutOfFuel =>
            apply rbind_not_OutOfFuel; [ | intros ? ? ]
        | |- (if ?b then _ else _) <> OutOfFuel => destruct b
        | |- (match tvalue ?t with _ => _ end) <> OutOfFuel =>
            destruct (tvalue t)
        | |- (let '(_, _) := ?a in _) <> OutOfFuel => destruct a
        end ].

Lemma parseParen_total pE tok c0 c :
  callee_total_from pE c0 -> (c0 <= c)%nat ->
  parseParen tokens pE tok c <> OutOfFuel.
Proof. intros Ht Hc. unfold parseParen. not_oof. Qed.

Lemma prefix_total pE ty h tok c0 c :
  callee_total_from pE c0 -> (c0 <= c)%nat ->
  prefixFunctions tokens pE ty = Some h ->
  h tok c <> OutOfFuel.
Proof.
  intros Ht Hc Eh.
  destruct ty; simpl in Eh; inversion Eh; subst h; clear Eh.
  - unfold parseNumber. not_oof.
  - unfold parseVariable. not_oof.
  - unfold parsePrefixExpression. not_oof.
  - not_oof.
  - eapply parseParen_total; eassumption.
  - unfold parseFunction. not_oof.
    eapply parseParen_total; [eassumption | lia].
Qed.

Lemma infix_total pE ty h l tok c0 c :
  callee_total_from pE c0 -> (c0 <= c)%nat ->
  infixFunctions pE ty = Some h ->
  h l tok c <> OutOfFuel.
Proof.
  intros Ht Hc Eh.
  destruct ty; simpl in Eh; inversion Eh; subst h; clear Eh;
    unfold parseInfixExpression, parseImplicitMultiplication; not_oof.
Qed.

Lemma parseExpression_enough_fuel (fuel : nat) :
  (forall p c,
     (2 * (List.length tokens - c) + 1 <= fuel)%nat ->
     parseExpression tokens fuel p c <> OutOfFuel) /\
  (forall p l c,
     (2 * (List.length tokens - c) + 2 <= fuel)%nat ->
     parseExpression_while tokens fuel p l c <> OutOfFuel).
Proof.
  induction fuel as [| fuel [IHe IHw]].
  - split; intros; lia.
  - destruct (parseExpression_progress fuel) as [Hpe Hpw].
    split.
    + intros p c Hf. rewrite parseExpression_S.
      destruct (List.length tokens <=? c)%nat eqn:Hlen; [discriminate |].
      apply Nat.leb_gt in Hlen.
      assert (Ht : callee_total_from (parseExpression tokens fuel)
                     (c + 1)%nat)
        by (intros q c1 Hc1; apply IHe; lia).
      apply rbind_not_OutOfFuel; [apply tokens_get_not_OutOfFuel |].
      intros tok _.
      destruct (prefixFunctions tokens (parseExpression tokens fuel)
                  (type tok)) as [h |] eqn:Eh;
        [| no_prefix tok; discriminate].
      apply rbind_not_OutOfFuel.
      * eapply prefix_total; [exact Ht | | exact Eh]. lia.
      * intros [l c1] E1.
        apply (prefix_progress _ _ _ Hpe Eh) in E1.
        apply IHw. lia.
    + intros p l c Hf. rewrite parseExpression_while_S.
      destruct (c <? List.length tokens)%nat eqn:Hlen; [| discriminate].
      apply Nat.ltb_lt in Hlen.
      assert (Ht : callee_total_from (parseExpression tokens fuel) c)
        by (intros q c1 Hc1; apply IHe; lia).
      apply rbind_not_OutOfFuel; [apply getPrecedence_not_OutOfFuel |].
      intros q _. destruct (p <? q); [| discriminate].
      apply rbind_not_OutOfFuel; [apply tokens_get_not_OutOfFuel |].
      intros tok _.
      destruct (infixFunctions (parseExpression tokens fuel) (type tok))
        as [h |] eqn:Eh; [| discriminate].
      apply rbind_not_OutOfFuel.
      * eapply infix_total; [exact Ht | | exact Eh].
        destruct (negb (TokenType_in (type tok) implicitMultiplications));
          lia.
      * intros [l1 c1] E1.
        apply (infix_progress _ _ _ _ Hpe Eh) in E1.
        apply IHw.
        destruct (negb (TokenType_in (type tok) implicitMultiplications));
          lia.
Qed.

(** [parse] always returns a tree or raises. *)
Lemma parse_total : parse tokens <> OutOfFuel.
Proof.
  unfold parse. apply rbind_not_OutOfFuel.
  - apply (parseExpression_enough_fuel (parse_fuel tokens)).
    unfold parse_fuel. lia.
  - intros [t c] _. destruct (c <? List.length tokens)%nat; discriminate.
Qed.

(** *** Where the loop stops *)

Lemma parseExpression_while_done (fuel : nat) p l c t c' :
  parseExpression_while tokens fuel p l c = Ok (t, c') ->
  loop_done tokens p c'.
Proof.
  revert l c. induction fuel as [| fuel IH]; intros l c E;
    [discriminate E |].
  rewrite parseExpression_while_S in E.
  destruct (c <? List.length tokens)%nat eqn:Hlen;
    [| inversion E; subst; left; exact Hlen].
  apply rbind_Ok_inv in E. destruct E as (q & Eq & E).
  destruct (p <? q) eqn:Hq;
    [| inversion E; subst; right; exists q; split; assumption].
  apply rbind_Ok_inv in E. destruct E as (tok & _ & E).
  destruct (infixFunctions (parseExpression tokens fuel) (type tok))
    as [h |]; [| discriminate E].
  apply rbind_Ok_inv in E. destruct E as ([l1 c1] & _ & E).
  eapply IH; exact E.
Qed.

Lemma parseExpression_done (fuel : nat) p c t c' :
  parseExpression tokens fuel p c = Ok (t, c') -> loop_done tokens p c'.
Proof.
  destruct fuel as [| fuel]; intros E; [discriminate E |].
  rewrite parseExpression_S in E.
  destruct (List.length tokens <=? c)%nat; [discriminate E |].
  apply rbind_Ok_inv in E. destruct E as (tok & _ & E).
  destruct (prefixFunctions tokens (parseExpression tokens fuel)
              (type tok)) as [h |]; [| no_prefix tok; discriminate E].
  apply rbind_Ok_inv in E. destruct E as ([l c1] & _ & E).
  eapply parseExpression_while_done; exact E.
Qed.

Lemma parseExpression_while_stop (fuel : nat) p l c :
  loop_done tokens p c ->
  parseExpression_while tokens (S fuel) p l c = Ok (l, c).
Proof.
  intros [Hlen | (q & Eq & Hq)]; rewrite parseExpression_while_S.
  - rewrite Hlen; reflexivity.
  - destruct (c <? List.length tokens)%nat; [| reflexivity].
    rewrite Eq; simpl. rewrite Hq; reflexivity.
Qed.

End ParserFacts.

(* ================================================================== *)
(** ** Parser: one more token in front *)
(* ================================================================== *)

Section ParserShift.
Context {H : Host}.
Variable tok0 : Token H.
Variable tokens : list (Token H).

Lemma shift_bind_state (m m' : result (ASTNode H * nat)) k k' :
  m' = shift_res m ->
  (forall a c, k' (a, S c) = shift_res (k (a, c))) ->
  rbind m' k' = shift_res (rbind m k).
Proof.
  intros -> Hk. destruct m as [[a c] | e |]; simpl; auto.
Qed.

Lemma shift_bind_pure {A} (m : result A) k k' :
  (forall a, k' a = shift_res (k a)) ->
  rbind m k' = shift_res (rbind m k).
Proof. intros Hk. destruct m as [a | e |]; simpl; auto. Qed.

Lemma tokens_get_cons c :
  tokens_get (tok0 :: tokens) (S c) = tokens_get tokens c.
Proof. reflexivity. Qed.

Lemma getPrecedence_cons c :
  getPrecedence (tok0 :: tokens) (S c) = getPrecedence tokens c.
Proof. reflexivity. Qed.

Lemma ltb_length_cons c :
  (S c <? List.length (tok0 :: tokens))%nat = (c <? List.length tokens)%nat.
Proof. reflexivity. Qed.

Lemma leb_length_cons c :
  (List.length (tok0 :: tokens) <=? S c)%nat
  = (List.length tokens <=? c)%nat.
Proof. reflexivity. Qed.

Lemma parseParen_shift pE pE' tok c :
  callee_shift pE pE' ->
  parseParen (tok0 :: tokens) pE' tok (S c)
  = shift_res (parseParen tokens pE tok c).
Proof.
  intros Hc. unfold parseParen.
  apply shift_bind_state; [apply Hc |].
  intros a c1. rewrite ltb_length_cons, tokens_get_cons.
  destruct (c1 <? List.length tokens)%nat; [| reflexivity].
  apply shift_bind_pure. intros t.
  destruct (negb (TokenType_eqb (type t) rparen)); reflexivity.
Qed.

Lemma prefix_shift pE pE' ty :
  callee_shift pE pE' ->
  match prefixFunctions tokens pE ty,
        prefixFunctions (tok0 :: tokens) pE' ty with
  | Some h, Some h' => forall tok c, h' tok (S c) = shift_res (h tok c)
  | None, None => True
  | _, _ => False
  end.
Proof.
  intros Hc. destruct ty; simpl; try exact I; intros tok c.
  - unfold parseNumber. destruct (tvalue tok); reflexivity.
  - unfold parseVariable. destruct (tvalue tok); reflexivity.
  - unfold parsePrefixExpression. destruct (tvalue tok); [| reflexivity].
    apply shift_bind_state; [apply Hc | reflexivity].
  - apply Hc.
  - apply parseParen_shift; assumption.
  - unfold parseFunction.
    rewrite leb_length_cons, tokens_get_cons.
    destruct (List.length tokens <=? c)%nat; [reflexivity |].
    apply shift_bind_pure. intros t.
    destruct (negb (TokenType_eqb (type t) lparen)); [reflexivity |].
    destruct (tvalue tok); [| reflexivity].
    apply shift_bind_state; [| reflexivity].
    apply (parseParen_shift tok (c + 1)); assumption.
Qed.

Lemma infix_shift pE pE' ty :
  callee_shift pE pE' ->
  match infixFunctions pE ty, infixFunctions pE' ty with
  | Some h, Some h' =>
      forall l tok c, h' l tok (S c) = shift_res (h l tok c)
  | None, None => True
  | _, _ => False
  end.
Proof.
  intros Hc. destruct ty; simpl; try exact I; intros l tok c;
    unfold parseInfixExpression, parseImplicitMultiplication;
    repeat
      first
        [ reflexivity
        | apply Hc
        | apply shift_bind_state; [ | intros ? ? ]
        | apply shift_bind_pure; intros ?
        | match goal with
          | |- (match tvalue ?t with _ => _ end) = _ => destruct (tvalue t)
          | |- (if ?b then _ else _) = _ => destruct b
          end ].
Qed.

Lemma parseExpression_cons (fuel : nat) :
  callee_shift (parseExpression tokens fuel)
               (parseExpression (tok0 :: tokens) fuel) /\
  (forall p l c,
     parseExpression_while (tok0 :: tokens) fuel p l (S c)
     = shift_res (parseExpression_while tokens fuel p l c)).
Proof.
  induction fuel as [| fuel [IHe IHw]].
  - split; [intros p c | intros p l c]; reflexivity.
  - split.
    + intros p c. rewrite !parseExpression_S.
      rewrite leb_length_cons, tokens_get_cons.
      destruct (List.length tokens <=? c)%nat; [reflexivity |].
      apply shift_bind_pure. intros tok.
      pose proof (prefix_shift (type tok) IHe) as Hp.
      destruct (prefixFunctions tokens (parseExpression tokens fuel)
                  (type tok)) as [h |],
               (prefixFunctions (tok0 :: tokens)
                  (parseExpression (tok0 :: tokens) fuel)
                  (type tok)) as [h' |]; try contradiction;
        [| no_prefix tok; reflexivity].
      apply shift_bind_state; [apply (Hp tok (c + 1)%nat) |].
      intros a c1. apply IHw.
    + intros p l c. rewrite !parseExpression_while_S.
      rewrite ltb_length_cons, getPrecedence_cons, tokens_get_cons.
      destruct (c <? List.length tokens)%nat; [| reflexivity].
      apply shift_bind_pure. intros q.
      destruct (p <? q); [| reflexivity].
      apply shift_bind_pure. intros tok.
      pose proof (infix_shift (type tok) IHe) as Hp.
      destruct (infixFunctions (parseExpression tokens fuel) (type tok))
        as [h |],
        (infixFunctions (parseExpression (tok0 :: tokens) fuel) (type tok))
        as [h' |]; try contradiction; [| reflexivity].
      apply shift_bind_state; [| intros a c1; apply IHw].
      destruct (negb (TokenType_in (type tok) implicitMultiplications));
        apply Hp.
Qed.

End ParserShift.

(* ================================================================== *)
(** ** Parser: a leading minus *)
(* ================================================================== *)

Section ParserPrefixMinus.
Context {H : Host}.

(** Parsing [minus :: tokens] is parsing [tokens] and wrapping the tree:
    the operand of the prefix minus is read by [parseExpression()] at
    precedence [0], so it takes every token the whole expression takes. *)
Lemma parse_minus_cons (op : string) (tokens : list (Token H)) :
  parse (mkToken minus (TStr op) :: tokens)
  = (T <- parse tokens ;; Ok (PrefixExpression op T)).
Proof.
  set (m := mkToken minus (TStr op)).
  unfold parse.
  replace (parse_fuel (m :: tokens)) with (S (S (parse_fuel tokens)))
    by (unfold parse_fuel; simpl; lia).
  rewrite parseExpression_S.
  change (List.length (m :: tokens) <=? 0)%nat with false.
  cbv iota.
  change (tokens_get (m :: tokens) 0) with (Ok m).
  cbn [rbind]. cbn [type m prefixFunctions].
  unfold parsePrefixExpression at 1. cbn [tvalue m].
  change (0 + 1)%nat with 1%nat.
  destruct (parseExpression_cons m tokens (S (parse_fuel tokens)))
    as [She Shw].
  rewrite (She 0 0%nat).
  assert (Hne : parseExpression tokens (parse_fuel tokens) 0 0
                <> OutOfFuel).
  { apply (parseExpression_enough_fuel tokens (parse_fuel tokens)).
    unfold parse_fuel. lia. }
  pose proof (res_le_eq
                (parseExpression_fuel_mono tokens 0 0
                   (Nat.le_succ_diag_r (parse_fuel tokens))) Hne) as Em.
  rewrite Em.
  destruct (parseExpression tokens (parse_fuel tokens) 0 0)
    as [[T c] | e |] eqn:E0.
  - cbn [shift_res rbind].
    rewrite (Shw 0 (PrefixExpression op T) c).
    assert (Hd : loop_done tokens 0 c)
      by (eapply parseExpression_done; exact E0).
    rewrite (parseExpression_while_stop (parse_fuel tokens)
               (PrefixExpression op T) Hd).
    cbn [shift_res rbind].
    rewrite ltb_length_cons.
    destruct (c <? List.length tokens)%nat; reflexivity.
  - reflexivity.
  - contradiction.
Qed.

End ParserPrefixMinus.

(* ================================================================== *)
(** ** Parser: a closing parenthesis missing at the end *)
(* ================================================================== *)

Section ParserTruncate.
Context {H : Host}.
Variable tokens : list (Token H).
Variable rp : Token H.
Hypothesis rp_type : type rp = rparen.

Lemma trunc_rel_refl r : trunc_rel r r.
Proof. intros t c E; exact E. Qed.

Lemma trunc_rel_Raise e r' : trunc_rel (Raise e) r'.
Proof. intros t c E; discriminate E. Qed.

Lemma trunc_bind {A} (m m' : result A) k k' :
  (forall a, m = Ok a -> m' = Ok a) ->
  (forall a, trunc_rel (k a) (k' a)) ->
  trunc_rel (rbind m k) (rbind m' k').
Proof.
  intros Hm Hk t c E. apply rbind_Ok_inv in E.
  destruct E as (a & Ea & E). rewrite (Hm a Ea). simpl.
  apply Hk; exact E.
Qed.

Lemma trunc_bind_state (m m' : result (ASTNode H * nat)) k k' :
  trunc_rel m m' ->
  (forall a, trunc_rel (k a) (k' a)) ->
  trunc_rel (rbind m k) (rbind m' k').
Proof.
  intros Hm. apply trunc_bind. intros [t c]. apply Hm.
Qed.

Lemma length_full :
  List.length (tokens ++ [rp]) = S (List.length tokens).
Proof. rewrite length_app. simpl. lia. Qed.

Lemma tokens_get_full_lt c :
  (c < List.length tokens)%nat ->
  tokens_get (tokens ++ [rp]) c = tokens_get tokens c.
Proof.
  intros Hc. unfold tokens_get. rewrite nth_error_app1 by exact Hc.
  reflexivity.
Qed.

Lemma tokens_get_full_eq :
  tokens_get (tokens ++ [rp]) (List.length tokens) = Ok rp.
Proof.
  unfold tokens_get. rewrite nth_error_app2 by lia.
  rewrite Nat.sub_diag. reflexivity.
Qed.

(** The test for the closing parenthesis that ends [parseParen]. *)
Lemma paren_close_trunc (node : ASTNode H) (c : nat) :
  trunc_rel
    (if (c <? List.length (tokens ++ [rp]))%nat then
       t <- tokens_get (tokens ++ [rp]) c ;;
       if negb (TokenType_eqb (type t) rparen)
       then Raise (ParserError "Expected right parenthesis")
       else Ok (node, (c + 1)%nat)
     else Ok (node, (c + 1)%nat))
    (if (c <? List.length tokens)%nat then
       t <- tokens_get tokens c ;;
       if negb (TokenType_eqb (type t) rparen)
       then Raise (ParserError "Expected right parenthesis")
       else Ok (node, (c + 1)%nat)
     else Ok (node, (c + 1)%nat)).
Proof.
  rewrite length_full.
  destruct (lt_eq_lt_dec c (List.length tokens)) as [[Hlt | Heq] | Hgt].
  - rewrite tokens_get_full_lt by exact Hlt.
    replace (c <? S (List.length tokens))%nat with true
      by (symmetry; apply Nat.ltb_lt; lia).
    replace (c <? List.length tokens)%nat with true
      by (symmetry; apply Nat.ltb_lt; lia).
    apply trunc_rel_refl.
  - subst c. rewrite tokens_get_full_eq.
    rewrite Nat.ltb_irrefl.
    replace (List.length tokens <? S (List.length tokens))%nat with true
      by (symmetry; apply Nat.ltb_lt; lia).
    simpl. rewrite rp_type. simpl. apply trunc_rel_refl.
  - replace (c <? S (List.length tokens))%nat with false
      by (symmetry; apply Nat.ltb_ge; lia).
    replace (c <? List.length tokens)%nat with false
      by (symmetry; apply Nat.ltb_ge; lia).
    apply trunc_rel_refl.
Qed.

Lemma parseParen_trunc pE pE' tok c :
  callee_trunc pE pE' ->
  trunc_rel (parseParen (tokens ++ [rp]) pE tok c)
            (parseParen tokens pE' tok c).
Proof.
  intros Hc. unfold parseParen.
  apply trunc_bind_state; [apply Hc |].
  intros [node c1]. apply paren_close_trunc.
Qed.

Lemma parseFunction_trunc pE pE' tok c :
  callee_trunc pE pE' ->
  trunc_rel (parseFunction (tokens ++ [rp]) pE tok c)
            (parseFunction tokens pE' tok c).
Proof.
  intros Hc. unfold parseFunction. rewrite length_full.
  destruct (lt_eq_lt_dec c (List.length tokens)) as [[Hlt | Heq] | Hgt].
  - rewrite tokens_get_full_lt by exact Hlt.
    replace (S (List.length tokens) <=? c)%nat with false
      by (symmetry; apply Nat.leb_gt; lia).
    replace (List.length tokens <=? c)%nat with false
      by (symmetry; apply Nat.leb_gt; lia).
    apply trunc_bind; [auto |]. intros t.
    destruct (negb (TokenType_eqb (type t) lparen));
      [apply trunc_rel_refl |].
    destruct (tvalue tok); [| apply trunc_rel_refl].
    apply trunc_bind_state.
    + apply parseParen_trunc; assumption.
    + intros [arg c1]. apply trunc_rel_refl.
  - subst c. rewrite tokens_get_full_eq.
    replace (S (List.length tokens) <=? List.length tokens)%nat with false
      by (symmetry; apply Nat.leb_gt; lia).
    simpl. rewrite rp_type. simpl. apply trunc_rel_Raise.
  - replace (S (List.length tokens) <=? c)%nat with true
      by (symmetry; apply Nat.leb_le; lia).
    apply trunc_rel_Raise.
Qed.

Lemma prefix_trunc pE pE' ty :
  callee_trunc pE pE' ->
  match prefixFunctions (tokens ++ [rp]) pE ty,
        prefixFunctions tokens pE' ty with
  | Some h, Some h' => forall tok c, trunc_rel (h tok c) (h' tok c)
  | None, None => True
  | _, _ => False
  end.
Proof.
  intros Hc. destruct ty; simpl; try exact I; intros tok c.
  - apply trunc_rel_refl.
  - apply trunc_rel_refl.
  - unfold parsePrefixExpression.
    destruct (tvalue tok); [| apply trunc_rel_refl].
    apply trunc_bind_state; [apply Hc |].
    intros [o c1]. apply trunc_rel_refl.
  - apply Hc.
  - apply parseParen_trunc; assumption.
  - apply parseFunction_trunc; assumption.
Qed.

Lemma infix_trunc pE pE' ty :
  callee_trunc pE pE' ->
  match infixFunctions pE ty, infixFunctions pE' ty with
  | Some h, Some h' => forall l tok c, trunc_rel (h l tok c) (h' l tok c)
  | None, None => True
  | _, _ => False
  end.
Proof.
  intros Hc. destruct ty; simpl; try exact I; intros l tok c;
    unfold parseInfixExpression, parseImplicitMultiplication;
    repeat
      first
        [ apply trunc_rel_refl
        | apply Hc
        | apply trunc_bind_state; [ apply Hc | intros ? ]
        | apply trunc_bind; [ auto | intros ? ]
        | match goal with
          | |- trunc_rel (match tvalue ?t with _ => _ end) _ =>
              destruct (tvalue t)
          | |- trunc_rel (if ?b then _ else _) _ => destruct b
          | |- trunc_rel (let '(_, _) := ?a in _) _ => destruct a
          end ].
Qed.

Lemma parseExpression_trunc (fuel : nat) :
  callee_trunc (parseExpression (tokens ++ [rp]) fuel)
               (parseExpression tokens fuel) /\
  (forall p l c,
     trunc_rel (parseExpression_while (tokens ++ [rp]) fuel p l c)
               (parseExpression_while tokens fuel p l c)).
Proof.
  induction fuel as [| fuel [IHe IHw]].
  - split; [intros p c | intros p l c]; intros t c' E; discriminate E.
  - split.
    + intros p c. rewrite !parseExpression_S. rewrite length_full.
      destruct (lt_eq_lt_dec c (List.length tokens))
        as [[Hlt | Heq] | Hgt].
      * rewrite tokens_get_full_lt by exact Hlt.
        replace (S (List.length tokens) <=? c)%nat with false
          by (symmetry; apply Nat.leb_gt; lia).
        replace (List.length tokens <=? c)%nat with false
          by (symmetry; apply Nat.leb_gt; lia).
        apply trunc_bind; [auto |]. intros tok.
        pose proof (prefix_trunc (type tok) IHe) as Hp.
        destruct (prefixFunctions (tokens ++ [rp])
                    (parseExpression (tokens ++ [rp]) fuel) (type tok))
          as [h |],
          (prefixFunctions tokens (parseExpression tokens fuel) (type tok))
          as [h' |]; try contradiction; [| apply trunc_rel_refl].
        apply trunc_bind_state; [apply Hp |].
        intros [l c1]. apply IHw.
      * subst c. rewrite tokens_get_full_eq.
        replace (S (List.length tokens) <=? List.length tokens)%nat
          with false by (symmetry; apply Nat.leb_gt; lia).
        cbn [rbind]. rewrite rp_type. cbn [prefixFunctions]. no_prefix rp.
        apply trunc_rel_Raise.
      * replace (S (List.length tokens) <=? c)%nat with true
          by (symmetry; apply Nat.leb_le; lia).
        apply trunc_rel_Raise.
    + intros p l c. rewrite !parseExpression_while_S. rewrite length_full.
      destruct (lt_eq_lt_dec c (List.length tokens))
        as [[Hlt | Heq] | Hgt].
      * unfold getPrecedence. rewrite tokens_get_full_lt by exact Hlt.
        replace (c <? S (List.length tokens))%nat with true
          by (symmetry; apply Nat.ltb_lt; lia).
        replace (c <? List.length tokens)%nat with true
          by (symmetry; apply Nat.ltb_lt; lia).
        apply trunc_bind; [auto |]. intros q.
        destruct (p <? q); [| apply trunc_rel_refl].
        apply trunc_bind; [auto |]. intros tok.
        pose proof (infix_trunc (type tok) IHe) as Hp.
        destruct (infixFunctions (parseExpression (tokens ++ [rp]) fuel)
                    (type tok)) as [h |],
                 (infixFunctions (parseExpression tokens fuel) (type tok))
                   as [h' |]; try contradiction; [| apply trunc_rel_refl].
        apply trunc_bind_state; [apply Hp |].
        intros [l1 c1]. apply IHw.
      * subst c. unfold getPrecedence. rewrite tokens_get_full_eq.
        rewrite Nat.ltb_irrefl.
        replace (List.length tokens <? S (List.length tokens))%nat
          with true by (symmetry; apply Nat.ltb_lt; lia).
        simpl. rewrite rp_type. simpl.
        destruct (p <? 0); [apply trunc_rel_Raise | apply trunc_rel_refl].
      * replace (c <? S (List.length tokens))%nat with false
          by (symmetry; apply Nat.ltb_ge; lia).
        replace (c <? List.length tokens)%nat with false
          by (symmetry; apply Nat.ltb_ge; lia).
        apply trunc_rel_refl.
Qed.

(** If the input with the closing parenthesis parses, so does the input
    without it, to the same tree. *)
Lemma parse_trunc (t : ASTNode H) :
  parse (tokens ++ [rp]) = Ok t -> parse tokens = Ok t.
Proof.
  unfold parse. intros E.
  apply rbind_Ok_inv in E. destruct E as ([t1 c1] & E1 & E).
  destruct (c1 <? List.length (tokens ++ [rp]))%nat eqn:Hc1;
    [discriminate E |].
  inversion E; subst t1; clear E.
  rewrite length_full in Hc1. apply Nat.ltb_ge in Hc1.
  apply (proj1 (parseExpression_trunc _)) in E1.
  assert (Hne : parseExpression tokens (parse_fuel tokens) 0 0
                <> OutOfFuel).
  { apply (parseExpression_enough_fuel tokens (parse_fuel tokens)).
    unfold parse_fuel. lia. }
  assert (Hle : (parse_fuel tokens <= parse_fuel (tokens ++ [rp]))%nat)
    by (unfold parse_fuel; rewrite length_full; lia).
  pose proof (res_le_eq (parseExpression_fuel_mono tokens 0 0 Hle) Hne)
    as Em.
  rewrite <- Em, E1. simpl.
  replace (c1 <? List.length tokens)%nat with false
    by (symmetry; apply Nat.ltb_ge; lia).
  reflexivity.
Qed.

End ParserTruncate.

(** Two runs of [parseExpression] that both return or raise agree,
    whatever fuel each was given. *)
Lemma parseExpression_fuel_agree {H : Host} (tokens : list (Token H))
  (f f' : nat) p c r :
  parseExpression tokens f p c = Ok r ->
  parseExpression tokens f' p c <> OutOfFuel ->
  parseExpression tokens f' p c = Ok r.
Proof.
  intros E Hne. destruct (Nat.le_ge_cases f f') as [Hle | Hle].
  - destruct (parseExpression_fuel_mono tokens p c Hle) as [E' | E'];
      congruence.
  - destruct (parseExpression_fuel_mono tokens p c Hle) as [E' | E'];
      congruence.
Qed.

(* ================================================================== *)
(** ** Lexer: enough fuel, and one more character in front *)
(* ================================================================== *)

Section LexerFacts.
Context {H : Host}.
Variable text : string.
Variable variable_symbol : string.

Local Abbreviation len := (String.length text).

Lemma py_int_total (num : string) : py_int num <> OutOfFuel.
Proof.
  unfold py_int. destruct (exceeds_int_max_str_digits _); [discriminate |].
  destruct (_ && _); discriminate.
Qed.

Lemma py_float_total (num : string) : py_float num <> OutOfFuel.
Proof. unfold py_float. destruct (string_forallb _ _); discriminate. Qed.

Lemma py_int_raises (num : string) (e : exn) :
  py_int num = Raise e -> exists m, e = ValueError m.
Proof.
  unfold py_int. destruct (exceeds_int_max_str_digits _);
    [intros E; inversion E; eexists; reflexivity |].
  destruct (_ && _); intros E; inversion E. eexists; reflexivity.
Qed.

Lemma py_float_raises (num : string) (e : exn) :
  py_float num = Raise e -> exists m, e = ValueError m.
Proof.
  unfold py_float. destruct (string_forallb _ _); intros E; inversion E.
  eexists; reflexivity.
Qed.

(** What [read_number] makes of the digits it has collected. *)
Lemma read_number_token_Ok (n : string) (d : bool) (c' : nat)
  (tok : Token H) (c : nat) :
  (if d
   then f <- py_float n ;; Ok (mkToken number (TNum (VFloat f)), c')
   else z <- py_int n ;; Ok (mkToken number (TNum (VInt z)), c'))
  = Ok (tok, c) ->
  c' = c
  /\ ((d = true /\ exists f, py_float n = Ok f
                             /\ tok = mkToken number (TNum (VFloat f)))
      \/ (d = false /\ exists z, py_int n = Ok z
                                /\ tok = mkToken number (TNum (VInt z)))).
Proof.
  intros E. destruct d; apply rbind_Ok_inv in E;
    destruct E as (v & Ev & E); inversion E; subst;
    (split; [reflexivity |]); [left | right];
    (split; [reflexivity |]); exists v; split; reflexivity || assumption.
Qed.

Lemma read_number_loop_total fuel : forall cur num dp,
  (S (len - cur) <= fuel)%nat ->
  read_number_loop text fuel cur num dp <> OutOfFuel.
Proof.
  induction fuel as [| fuel IH]; intros cur num dp Hf; [lia |].
  simpl. destruct (cur <? len)%nat eqn:Hc; [| discriminate].
  apply Nat.ltb_lt in Hc.
  destruct (isdigit (text_at text cur)); [apply IH; lia |].
  match goal with
  | |- (if ?b && negb dp then _ else _) <> _ => destruct b
  end; simpl; destruct dp; simpl; try discriminate.
  apply IH; lia.
Qed.

Lemma read_number_loop_progress fuel : forall cur num dp n d c,
  read_number_loop text fuel cur num dp = Ok (n, d, c) -> (cur <= c)%nat.
Proof.
  induction fuel as [| fuel IH]; intros cur num dp n d c E;
    [discriminate E |].
  simpl in E. destruct (cur <? len)%nat; [| inversion E; lia].
  destruct (isdigit (text_at text cur)); [apply IH in E; lia |].
  match type of E with
  | (if ?b && negb dp then _ else _) = _ => destruct b
  end; simpl in E; destruct dp; simpl in E;
    try discriminate E; try (inversion E; lia).
  apply IH in E; lia.
Qed.

Lemma read_number_progress cur tok c :
  (cur < len)%nat -> isdigit (text_at text cur) = true ->
  read_number text cur = Ok (tok, c) -> (cur < c)%nat.
Proof.
  intros Hc Hd E. unfold read_number in E.
  apply rbind_Ok_inv in E. destruct E as ([[n d] c'] & E & E').
  apply read_number_token_Ok in E'. destruct E' as [<- _].
  simpl in E. apply Nat.ltb_lt in Hc. rewrite Hc, Hd in E.
  apply read_number_loop_progress in E. lia.
Qed.

Lemma read_number_total cur : read_number text cur <> OutOfFuel.
Proof.
  unfold read_number. apply rbind_not_OutOfFuel.
  - apply read_number_loop_total. lia.
  - intros [[n d] c] _. destruct d; apply rbind_not_OutOfFuel;
      try apply py_float_total; try apply py_int_total;
      intros v _; discriminate.
Qed.

Lemma read_function_loop_total fuel : forall cur fn,
  (S (len - cur) <= fuel)%nat ->
  read_function_loop text fuel cur fn <> OutOfFuel.
Proof.
  induction fuel as [| fuel IH]; intros cur fn Hf; [lia |].
  simpl. destruct (cur <? len)%nat eqn:Hc; simpl; [| discriminate].
  apply Nat.ltb_lt in Hc.
  destruct (isalnum (text_at text cur)); [apply IH; lia | discriminate].
Qed.

Lemma read_function_loop_progress fuel : forall cur fn n c,
  read_function_loop text fuel cur fn = Ok (n, c) -> (cur <= c)%nat.
Proof.
  induction fuel as [| fuel IH]; intros cur fn n c E; [discriminate E |].
  simpl in E.
  destruct ((cur <? len)%nat && isalnum (text_at text cur));
    [apply IH in E; lia | inversion E; lia].
Qed.

Lemma read_function_progress cur tok c :
  (cur < len)%nat -> isalpha (text_at text cur) = true ->
  read_function text cur = Ok (tok, c) -> (cur < c)%nat.
Proof.
  intros Hc Hd E. unfold read_function in E.
  apply rbind_Ok_inv in E. destruct E as ([n c'] & E & E').
  inversion E'; subst c'. clear E'.
  simpl in E. apply Nat.ltb_lt in Hc. unfold isalnum in E.
  rewrite Hc, Hd in E. simpl in E.
  apply read_function_loop_progress in E. lia.
Qed.

Lemma read_function_total cur : read_function text cur <> OutOfFuel.
Proof.
  unfold read_function. apply rbind_not_OutOfFuel.
  - apply read_function_loop_total. lia.
  - intros [n c] _. discriminate.
Qed.

Lemma ignoreWhitespaces_loop_total fuel : forall cur,
  (S (len - cur) <= fuel)%nat ->
  ignoreWhitespaces_loop text fuel cur <> OutOfFuel.
Proof.
  induction fuel as [| fuel IH]; intros cur Hf; [lia |].
  simpl. destruct (cur <? len)%nat eqn:Hc; simpl; [| discriminate].
  apply Nat.ltb_lt in Hc.
  destruct (isspace (text_at text cur)); [apply IH; lia | discriminate].
Qed.

Lemma ignoreWhitespaces_loop_progress fuel : forall cur c,
  ignoreWhitespaces_loop text fuel cur = Ok c -> (cur <= c)%nat.
Proof.
  induction fuel as [| fuel IH]; intros cur c E; [discriminate E |].
  simpl in E.
  destruct ((cur <? len)%nat && isspace (text_at text cur));
    [apply IH in E; lia | inversion E; lia].
Qed.

Lemma ignoreWhitespaces_progress cur c :
  (cur < len)%nat -> isspace (text_at text cur) = true ->
  ignoreWhitespaces text cur = Ok c -> (cur < c)%nat.
Proof.
  intros Hc Hd E. unfold ignoreWhitespaces in E. simpl in E.
  apply Nat.ltb_lt in Hc. rewrite Hc, Hd in E. simpl in E.
  apply ignoreWhitespaces_loop_progress in E. lia.
Qed.

Lemma ignoreWhitespaces_total cur : ignoreWhitespaces text cur <> OutOfFuel.
Proof. apply ignoreWhitespaces_loop_total. lia. Qed.

Lemma lex_total fuel : forall cur (tokens : list (Token H)),
  (S (len - cur) <= fuel)%nat ->
  lex text variable_symbol fuel cur tokens <> OutOfFuel.
Proof.
  induction fuel as [| fuel IH]; intros cur tokens Hf; [lia |].
  cbn [lex]. destruct (cur <? len)%nat eqn:Hc; [| discriminate].
  apply Nat.ltb_lt in Hc.
  destruct (String.eqb (str1 (text_at text cur)) variable_symbol);
    [apply IH; lia |].
  destruct (isdigit (text_at text cur)) eqn:Hd.
  { apply rbind_not_OutOfFuel; [apply read_number_total |].
    intros [tok c] E. apply read_number_progress in E; try assumption.
    apply IH; lia. }
  destruct (isspace (text_at text cur)) eqn:Hs.
  { apply rbind_not_OutOfFuel; [apply ignoreWhitespaces_total |].
    intros c E. apply ignoreWhitespaces_progress in E; try assumption.
    apply IH; lia. }
  destruct (single_char_token (text_at text cur)); [apply IH; lia |].
  destruct (isalpha (text_at text cur)) eqn:Ha.
  { apply rbind_not_OutOfFuel; [apply read_function_total |].
    intros [tok c] E. apply read_function_progress in E; try assumption.
    apply IH; lia. }
  destruct (Ascii.eqb (text_at text cur) "."); [apply IH; lia |].
  discriminate.
Qed.

(** The lexer always returns tokens or raises. *)
Lemma Lexer_with_total : Lexer_with text variable_symbol <> OutOfFuel.
Proof. unfold Lexer_with. apply lex_total. lia. Qed.

End LexerFacts.

(** [parse_expression] always returns a tree or raises. *)
Lemma parse_expression_total {H : Host} (expr : string) :
  parse_expression expr <> OutOfFuel.
Proof.
  unfold parse_expression, Lexer. apply rbind_not_OutOfFuel.
  - apply Lexer_with_total.
  - intros tokens _. apply parse_total.
Qed.

Section LexerShift.
Context {H : Host}.
Variable c0 : ascii.
Variable text : string.
Variable variable_symbol : string.

Lemma at_next_bind {A B C D} (f : A -> B) (g : C -> D)
  (m : result A) (k : A -> result C) (k' : B -> result D) :
  (forall a, k' (f a) = at_next g (k a)) ->
  rbind (at_next f m) k' = at_next g (rbind m k).
Proof. intros Hk. destruct m as [a | e |]; simpl; auto. Qed.

Lemma text_at_cons i : text_at (String c0 text) (S i) = text_at text i.
Proof. reflexivity. Qed.

Lemma read_number_loop_cons fuel : forall cur num dp,
  read_number_loop (String c0 text) fuel (S cur) num dp
  = at_next (fun '(n, d, c) => (n, d, S c))
      (read_number_loop text fuel cur num dp).
Proof.
  induction fuel as [| fuel IH]; intros cur num dp; [reflexivity |].
  cbn [read_number_loop]. rewrite !text_at_cons.
  change (S cur + 1)%nat with (S (cur + 1)). rewrite text_at_cons.
  change (String.length (String c0 text)) with (S (String.length text)).
  change (S cur <? S (String.length text))%nat
    with (cur <? String.length text)%nat.
  change (S (cur + 1) <? S (String.length text))%nat
    with (cur + 1 <? String.length text)%nat.
  destruct (cur <? String.length text)%nat; [| reflexivity].
  destruct (isdigit (text_at text cur)); [apply IH |].
  match goal with
  | |- (if ?b && negb dp then _ else _) = _ => destruct b
  end; simpl; destruct dp; simpl; try reflexivity.
  apply IH.
Qed.

Lemma read_number_cons cur :
  read_number (String c0 text) (S cur)
  = at_next (fun '(tok, c) => (tok, S c)) (read_number text cur).
Proof.
  unfold read_number.
  change (String.length (String c0 text) - S cur)%nat
    with (String.length text - cur)%nat.
  rewrite read_number_loop_cons.
  apply at_next_bind. intros [[n d] c]. destruct d.
  - destruct (py_float n) as [f | e |] eqn:E; try reflexivity.
    apply py_float_raises in E. destruct E as (m & ->). reflexivity.
  - destruct (py_int n) as [z | e |] eqn:E; try reflexivity.
    apply py_int_raises in E. destruct E as (m & ->). reflexivity.
Qed.

Lemma read_function_loop_cons fuel : forall cur fn,
  read_function_loop (String c0 text) fuel (S cur) fn
  = at_next (fun '(n, c) => (n, S c))
      (read_function_loop text fuel cur fn).
Proof.
  induction fuel as [| fuel IH]; intros cur fn; [reflexivity |].
  cbn [read_function_loop]. rewrite !text_at_cons.
  change (S cur <? String.length (String c0 text))%nat
    with (cur <? String.length text)%nat.
  destruct ((cur <? String.length text)%nat
            && isalnum (text_at text cur)); [apply IH | reflexivity].
Qed.

Lemma read_function_cons cur :
  read_function (String c0 text) (S cur)
  = at_next (fun '(tok, c) => (tok, S c)) (read_function text cur).
Proof.
  unfold read_function.
  change (String.length (String c0 text) - S cur)%nat
    with (String.length text - cur)%nat.
  rewrite read_function_loop_cons.
  apply at_next_bind. intros [n c]. reflexivity.
Qed.

Lemma ignoreWhitespaces_loop_cons fuel : forall cur,
  ignoreWhitespaces_loop (String c0 text) fuel (S cur)
  = at_next S (ignoreWhitespaces_loop text fuel cur).
Proof.
  induction fuel as [| fuel IH]; intros cur; [reflexivity |].
  cbn [ignoreWhitespaces_loop]. rewrite !text_at_cons.
  change (S cur <? String.length (String c0 text))%nat
    with (cur <? String.length text)%nat.
  destruct ((cur <? String.length text)%nat
            && isspace (text_at text cur)); [apply IH | reflexivity].
Qed.

Lemma ignoreWhitespaces_cons cur :
  ignoreWhitespaces (String c0 text) (S cur)
  = at_next S (ignoreWhitespaces text cur).
Proof.
  unfold ignoreWhitespaces.
  change (String.length (String c0 text) - S cur)%nat
    with (String.length text - cur)%nat.
  apply ignoreWhitespaces_loop_cons.
Qed.

Lemma lex_cons (t0 : Token H) fuel : forall cur tokens,
  lex (String c0 text) variable_symbol fuel (S cur) (t0 :: tokens)
  = at_next (cons t0) (lex text variable_symbol fuel cur tokens).
Proof.
  induction fuel as [| fuel IH]; intros cur tokens; [reflexivity |].
  cbn [lex]. rewrite !text_at_cons.
  change (S cur <? String.length (String c0 text))%nat
    with (cur <? String.length text)%nat.
  change (S cur + 1)%nat with (S (cur + 1)).
  destruct (cur <? String.length text)%nat; [| reflexivity].
  destruct (String.eqb (str1 (text_at text cur)) variable_symbol);
    [apply IH |].
  destruct (isdigit (text_at text cur)).
  { rewrite read_number_cons.
    apply (at_next_bind (fun '(tok, c) => (tok, S c)) (cons t0)).
    intros [tok c]. apply IH. }
  destruct (isspace (text_at text cur)).
  { rewrite ignoreWhitespaces_cons.
    apply (at_next_bind S (cons t0)). intros c. apply IH. }
  destruct (single_char_token (text_at text cur)); [apply IH |].
  destruct (isalpha (text_at text cur)).
  { rewrite read_function_cons.
    apply (at_next_bind (fun '(tok, c) => (tok, S c)) (cons t0)).
    intros [tok c]. apply IH. }
  destruct (Ascii.eqb (text_at text cur) "."); [apply IH | reflexivity].
Qed.

End LexerShift.

(** A text that starts with ["-"] lexes to the minus token followed by
    the tokens of the rest; a lexical error of the rest is reported one
    position further. *)
Lemma Lexer_minus {H : Host} (text : string) :
  Lexer (String "-" text) = at_next (cons minus_token) (Lexer text).
Proof.
  unfold Lexer. unfold Lexer_with at 1.
  change (String.length (String "-" text)) with (S (String.length text)).
  set (n := S (String.length text)).
  cbn [lex]. change (0 <? S (String.length text))%nat with true.
  cbv iota. change (text_at (String "-" text) 0) with "-"%char.
  change (String.eqb (str1 "-") "x") with false. cbv iota.
  change (isdigit "-") with false. change (isspace "-") with false.
  cbv iota.
  change (single_char_token "-") with (Some (@minus_token H)).
  cbv iota. unfold Lexer_with. subst n.
  apply (lex_cons "-" text "x" minus_token (S (String.length text)) 0 []).
Qed.

(** A leading ["-"] in the text: the expression is the prefix minus of
    the parse of the tokens of the rest of the text. *)
Lemma parse_expression_minus {H : Host} (text : string) :
  parse_expression (String "-" text)
  = (tokens <- at_next (fun ts => ts) (Lexer text) ;;
     T <- parse tokens ;; Ok (PrefixExpression "-" T)).
Proof.
  unfold parse_expression. rewrite Lexer_minus.
  destruct (Lexer text) as [tokens | e |]; simpl; try reflexivity.
  apply parse_minus_cons.
Qed.

(* ================================================================== *)
(** ** Sampler: sorting, duplicates, lengths *)
(* ================================================================== *)

Section SamplerFacts.
Local Open Scope list_scope.

Variable X : Type.
Variable leb : X -> X -> bool.
Hypothesis leb_total : forall a b, leb a b = true \/ leb b a = true.
Hypothesis leb_trans :
  forall a b c, leb a b = true -> leb b c = true -> leb a c = true.

Local Abbreviation ltb := (x_lt leb).
Local Abbreviation eqb := (x_eq leb).
Local Abbreviation le := (fun a b => leb a b = true).
Local Abbreviation lt := (fun a b => x_lt leb a b = true).

Lemma leb_refl a : leb a a = true.
Proof. destruct (leb_total a a); assumption. Qed.

Lemma eqb_refl a : eqb a a = true.
Proof. unfold x_eq. rewrite leb_refl. reflexivity. Qed.

Lemma eqb_true a b : eqb a b = true <-> leb a b = true /\ leb b a = true.
Proof. unfold x_eq. apply andb_true_iff. Qed.

Lemma eqb_sym a b : eqb a b = true -> eqb b a = true.
Proof. rewrite !eqb_true. tauto. Qed.

Lemma eqb_trans a b c : eqb a b = true -> eqb b c = true -> eqb a c = true.
Proof.
  rewrite !eqb_true. intros [H1 H2] [H3 H4]. split; eauto.
Qed.

Lemma ltb_true a b : ltb a b = true <-> leb a b = true /\ leb b a = false.
Proof.
  unfold x_lt. rewrite andb_true_iff, negb_true_iff. tauto.
Qed.

Lemma le_lt_trans a b c : leb a b = true -> ltb b c = true -> ltb a c = true.
Proof.
  rewrite !ltb_true. intros Hab [Hbc Hcb]. split; [eauto |].
  destruct (leb c a) eqn:Hca; [| reflexivity].
  rewrite (leb_trans Hca Hab) in Hcb. discriminate.
Qed.

Lemma lt_le_trans a b c : ltb a b = true -> leb b c = true -> ltb a c = true.
Proof.
  rewrite !ltb_true. intros [Hab Hba] Hbc. split; [eauto |].
  destruct (leb c a) eqn:Hca; [| reflexivity].
  rewrite (leb_trans Hbc Hca) in Hba. discriminate.
Qed.

Lemma not_eqb_lt a b : leb a b = true -> eqb b a = false -> ltb a b = true.
Proof.
  intros Hab Hne. apply ltb_true. split; [assumption |].
  unfold x_eq in Hne. rewrite Hab, andb_true_r in Hne. exact Hne.
Qed.

(** *** [np_sort] *)

Lemma insert_sorted_In a l x :
  In x (insert_sorted leb a l) <-> x = a \/ In x l.
Proof.
  induction l as [| b l IH]; simpl.
  - intuition congruence.
  - destruct (leb a b); simpl; [intuition congruence |].
    rewrite IH. intuition congruence.
Qed.

Lemma np_sort_In l x : In x (np_sort leb l) <-> In x l.
Proof.
  induction l as [| a l IH]; simpl; [tauto |].
  rewrite insert_sorted_In, IH. intuition congruence.
Qed.

Lemma insert_sorted_length a l :
  List.length (insert_sorted leb a l) = S (List.length l).
Proof.
  induction l as [| b l IH]; simpl; [reflexivity |].
  destruct (leb a b); simpl; [reflexivity | rewrite IH; reflexivity].
Qed.

Lemma insert_sorted_sorted a l :
  StronglySorted le l -> StronglySorted le (insert_sorted leb a l).
Proof.
  induction 1 as [| b l Hs IH Hb]; simpl.
  - constructor; constructor.
  - destruct (leb a b) eqn:Hab.
    + constructor; [constructor; assumption |].
      constructor; [assumption |].
      eapply Forall_impl; [| exact Hb].
      intros c Hbc. eapply leb_trans; eassumption.
    + constructor; [assumption |].
      apply Forall_forall. intros x Hx.
      apply insert_sorted_In in Hx. destruct Hx as [-> | Hx].
      * destruct (leb_total a b) as [Hc | Hc]; [congruence | assumption].
      * rewrite Forall_forall in Hb. apply Hb; assumption.
Qed.

Lemma np_sort_sorted l : StronglySorted le (np_sort leb l).
Proof.
  induction l as [| a l IH]; simpl; [constructor |].
  apply insert_sorted_sorted; assumption.
Qed.

(** Sorting a list that is already ascending returns it. *)
Lemma np_sort_id l : StronglySorted le l -> np_sort leb l = l.
Proof.
  induction 1 as [| a l Hs IH Ha]; simpl; [reflexivity |].
  rewrite IH. destruct l as [| b l]; [reflexivity |].
  simpl. inversion Ha as [| ? ? Hab _]; subst. rewrite Hab. reflexivity.
Qed.

Lemma lt_sorted_le l : StronglySorted lt l -> StronglySorted le l.
Proof.
  induction 1 as [| a l Hs IH Ha]; constructor; [assumption |].
  eapply Forall_impl; [| exact Ha].
  intros b Hb. apply ltb_true in Hb. tauto.
Qed.

(** *** [np_unique] *)

Lemma unique_mask_In prev l x : In x (unique_mask leb prev l) -> In x l.
Proof.
  revert prev. induction l as [| a l IH]; simpl; intros prev Hx; [tauto |].
  destruct (negb (eqb a prev)); simpl in Hx.
  - destruct Hx as [-> | Hx]; [left; reflexivity | right; eauto].
  - right; eauto.
Qed.

Lemma unique_mask_sorted prev l :
  StronglySorted le (prev :: l) ->
  StronglySorted lt (prev :: unique_mask leb prev l).
Proof.
  revert prev. induction l as [| a l IH]; intros prev Hs; simpl.
  - constructor; constructor.
  - inversion Hs as [| ? ? Hs' Hprev]; subst.
    inversion Hprev as [| ? ? Hpa _]; subst.
    specialize (IH a Hs').
    inversion IH as [| ? ? IHs IHa]; subst.
    assert (Hall : Forall (lt prev) (unique_mask leb a l)).
    { eapply Forall_impl; [| exact IHa].
      intros c Hc. eapply le_lt_trans; eassumption. }
    destruct (eqb a prev) eqn:Hne; simpl.
    + constructor; assumption.
    + constructor; [exact IH |].
      constructor; [| exact Hall].
      apply not_eqb_lt; assumption.
Qed.

Lemma unique_mask_occurs prev l x :
  In x (prev :: l) ->
  occurs leb x (prev :: unique_mask leb prev l) = true.
Proof.
  revert prev. induction l as [| a l IH]; intros prev Hx.
  - destruct Hx as [-> | []]. simpl. rewrite eqb_refl. reflexivity.
  - destruct Hx as [-> | Hx]; [simpl; rewrite eqb_refl; reflexivity |].
    specialize (IH a Hx). simpl in IH. simpl.
    destruct (eqb a prev) eqn:Hap; simpl.
    + apply orb_true_iff in IH. destruct IH as [IH | IH].
      * rewrite (eqb_trans _ _ _ IH Hap). reflexivity.
      * change (existsb (eqb x) (unique_mask leb a l) = true) in IH.
        change (eqb x prev || existsb (eqb x) (unique_mask leb a l) = true).
        rewrite IH. apply orb_true_r.
    + change ((eqb x a || existsb (eqb x) (unique_mask leb a l)) = true)
        in IH.
      change (eqb x prev
              || (eqb x a || existsb (eqb x) (unique_mask leb a l)) = true).
      rewrite IH. apply orb_true_r.
Qed.

Lemma np_unique_sorted l : StronglySorted lt (np_unique leb l).
Proof.
  unfold np_unique. pose proof (np_sort_sorted l) as Hs.
  destruct (np_sort leb l) as [| a l']; [constructor |].
  apply unique_mask_sorted; assumption.
Qed.

Lemma np_unique_occurs l x : In x l -> occurs leb x (np_unique leb l) = true.
Proof.
  intros Hx. apply np_sort_In in Hx. unfold np_unique.
  destruct (np_sort leb l) as [| a l']; [destruct Hx |].
  apply unique_mask_occurs; assumption.
Qed.

Lemma np_unique_In l x : In x (np_unique leb l) -> In x l.
Proof.
  unfold np_unique. intros Hx. apply np_sort_In.
  destruct (np_sort leb l) as [| a l']; [destruct Hx |].
  destruct Hx as [-> | Hx]; [left; reflexivity |].
  right. eapply unique_mask_In; eassumption.
Qed.

Lemma occurs_true m l :
  occurs leb m l = true <-> exists e, In e l /\ eqb m e = true.
Proof. unfold occurs. apply existsb_exists. Qed.


Lemma occurs_In m l : In m l -> occurs leb m l = true.
Proof.
  intros Hm. apply occurs_true. exists m. split; [assumption |].
  apply eqb_refl.
Qed.

(** The refined grid is the duplicate-free union: the final [np.sort]
    finds it sorted. *)
Lemma np_sort_union1d a b :
  np_sort leb (union1d leb a b) = union1d leb a b.
Proof.
  apply np_sort_id. apply lt_sorted_le. apply np_unique_sorted.
Qed.

End SamplerFacts.

Section SafeEvaluateFacts.
Local Open Scope list_scope.
Variables X Y : Type.
Variable nan : Y.
Variable func : X -> result Y.

Lemma safe_evaluate_loop_Ok xs : forall y log y' log',
  safe_evaluate_loop nan func xs y log = (Ok y', log') ->
  y' = y ++ map (absorbed nan func) xs /\ log' = log ++ xs
  /\ forallb (absorbable func) xs = true.
Proof.
  induction xs as [| x xs IH]; simpl; intros y log y' log' E.
  - inversion E; subst. rewrite !app_nil_r. auto.
  - unfold absorbed, absorbable at 1.
    destruct (func x) as [v | e |] eqn:Ex.
    + apply IH in E. destruct E as (-> & -> & Hall).
      rewrite <- !app_assoc. simpl. auto.
    + destruct (is_EvaluatorError e); [| discriminate E].
      apply IH in E. destruct E as (-> & -> & Hall).
      rewrite <- !app_assoc. simpl. auto.
    + discriminate E.
Qed.



End SafeEvaluateFacts.

(* ================================================================== *)
(** ** The indices the refinement flags *)
(* ================================================================== *)

Section HighCurvature.
Local Open Scope list_scope.
Variable Y : Type.
Variable absdiff : Y -> Y -> Y.
Variable gt : Y -> Y -> bool.

Lemma np_where_from_In mask : forall s i,
  In i (np_where_from s mask)
  <-> (s <= i)%nat /\ nth_error mask (i - s) = Some true.
Proof.
  induction mask as [| b mask IH]; intros s i; simpl.
  - split; [tauto |]. intros [_ E].
    destruct (i - s)%nat; discriminate E.
  - assert (Hstep : In i (np_where_from (S s) mask)
                    <-> (s < i)%nat
                        /\ nth_error mask (i - S s) = Some true)
      by (rewrite IH; tauto).
    destruct b; simpl; rewrite Hstep.
    + split.
      * intros [-> | [Hlt E]].
        -- split; [lia |]. rewrite Nat.sub_diag. reflexivity.
        -- split; [lia |].
           replace (i - s)%nat with (S (i - S s)) by lia. exact E.
      * intros [Hle E]. destruct (Nat.eq_dec s i) as [-> | Hne];
          [left; reflexivity | right].
        split; [lia |].
        replace (i - s)%nat with (S (i - S s)) in E by lia. exact E.
    + split.
      * intros [Hlt E]. split; [lia |].
        replace (i - s)%nat with (S (i - S s)) by lia. exact E.
      * intros [Hle E]. destruct (Nat.eq_dec s i) as [-> | Hne].
        -- rewrite Nat.sub_diag in E. discriminate E.
        -- split; [lia |].
           replace (i - s)%nat with (S (i - S s)) in E by lia. exact E.
Qed.

Lemma abs_diff_nth_error (y : list Y) (d : Y) : forall i,
  nth_error (abs_diff absdiff y) i
  = if (S i <? List.length y)%nat
    then Some (absdiff (nth i y d) (nth (S i) y d))
    else None.
Proof.
  induction y as [| a y IH]; intros i.
  - simpl. destruct i; reflexivity.
  - destruct y as [| b y].
    + simpl. destruct i; reflexivity.
    + destruct i as [| i].
      * reflexivity.
      * change (nth_error (abs_diff absdiff (a :: b :: y)) (S i))
          with (nth_error (abs_diff absdiff (b :: y)) i).
        rewrite IH. reflexivity.
Qed.

(** The index [i] is in [high_curvature] exactly when the pair
    [(y[i], y[i+1])] exists and its absolute difference exceeds the
    tolerance. *)
Lemma high_curvature_In (y : list Y) (tol d : Y) (i : nat) :
  In i (high_curvature_of absdiff gt y tol)
  <-> (S i < List.length y)%nat
      /\ gt (absdiff (nth i y d) (nth (S i) y d)) tol = true.
Proof.
  unfold high_curvature_of, np_where.
  rewrite np_where_from_In, Nat.sub_0_r, nth_error_map.
  rewrite (abs_diff_nth_error y d).
  destruct (S i <? List.length y)%nat eqn:E; simpl.
  - apply Nat.ltb_lt in E. split.
    + intros [_ Hg]. inversion Hg. tauto.
    + intros [_ Hg]. split; [lia |]. rewrite Hg. reflexivity.
  - apply Nat.ltb_ge in E. split.
    + intros [_ Hg]. discriminate Hg.
    + intros [Hlt _]. lia.
Qed.

End HighCurvature.

(* ================================================================== *)
(** ** The sampler on rationals: the order *)
(* ================================================================== *)

Lemma Qle_bool_total (a b : Q) : Qle_bool a b = true \/ Qle_bool b a = true.
Proof.
  rewrite !Qle_bool_iff. destruct (Qlt_le_dec a b) as [Hlt | Hle].
  - left. apply Qlt_le_weak. exact Hlt.
  - right. exact Hle.
Qed.

Lemma Qle_bool_trans (a b c : Q) :
  Qle_bool a b = true -> Qle_bool b c = true -> Qle_bool a c = true.
Proof. rewrite !Qle_bool_iff. apply Qle_trans. Qed.

(* ================================================================== *)
(** ** The sampler on rationals: the refinement pass *)
(* ================================================================== *)

Section RefinementQ.
Local Open Scope list_scope.

Variable func : Q -> result yval.
Variable tol : yval.

Local Abbreviation high y0 := (high_curvature_of yabsdiff ygt y0 tol).
Local Abbreviation refined x0 y0 :=
  (union1d Qle_bool x0 (new_x_of 0%Q linspaceQ x0 (high y0))).
Variable x0 : list Q.

Local Abbreviation y0 := (map (absorbed YNan func) x0).

Lemma high_curvature_pair (i : nat) :
  In i (high y0)
  <-> (S i < List.length x0)%nat
      /\ pair_exceeds func tol (nth i x0 0%Q) (nth (S i) x0 0%Q) = true.
Proof.
  rewrite (high_curvature_In yabsdiff ygt y0 tol (absorbed YNan func 0%Q)).
  rewrite length_map, !map_nth. reflexivity.
Qed.

Lemma refined_members (e : Q) :
  In e (refined x0 y0) ->
  In e x0
  \/ exists j, In j (high y0)
               /\ In e (linspaceQ (nth j x0 0%Q) (nth (S j) x0 0%Q) 10).
Proof.
  intros He. apply np_unique_In in He. apply in_app_or in He.
  destruct He as [He | He]; [left; exact He | right].
  unfold new_x_of in He. apply in_flat_map in He.
  destruct He as (j & Hj & He). exists j. split; [exact Hj |].
  rewrite Nat.add_1_r in He. exact He.
Qed.

End RefinementQ.

(* ================================================================== *)
(** ** Lexer: errors, tokens, white space, digits *)
(* ================================================================== *)

Lemma append_nil_r (s : string) : s ++ "" = s.
Proof. induction s as [| c s IH]; simpl; [| rewrite IH]; reflexivity. Qed.

Lemma append_assoc (s1 s2 s3 : string) : (s1 ++ s2) ++ s3 = s1 ++ (s2 ++ s3).
Proof. induction s1 as [| c s1 IH]; simpl; [| rewrite IH]; reflexivity. Qed.

Lemma length_append (s1 s2 : string) :
  String.length (s1 ++ s2) = (String.length s1 + String.length s2)%nat.
Proof. induction s1 as [| c s1 IH]; simpl; [| rewrite IH]; reflexivity. Qed.

Lemma all_digits_append (s1 s2 : string) :
  all_digits (s1 ++ s2) = all_digits s1 && all_digits s2.
Proof.
  induction s1 as [| c s1 IH]; simpl; [reflexivity |].
  rewrite IH, andb_assoc. reflexivity.
Qed.

Lemma string_forallb_append (p : ascii -> bool) (s1 s2 : string) :
  string_forallb p (s1 ++ s2) = string_forallb p s1 && string_forallb p s2.
Proof.
  induction s1 as [| c s1 IH]; simpl; [reflexivity |].
  rewrite IH, andb_assoc. reflexivity.
Qed.

Lemma string_forallb_decimal (s : string) :
  string_forallb isdecimal s = all_digits s.
Proof. induction s as [| c s IH]; simpl; [| rewrite IH]; reflexivity. Qed.

Lemma leading_decimals_length (s : string) :
  (String.length (leading_decimals s) <= String.length s)%nat.
Proof.
  induction s as [| c s IH]; simpl; [lia |].
  destruct (isdecimal c); simpl; lia.
Qed.

Lemma leading_decimals_all (s : string) :
  all_digits s = true -> leading_decimals s = s.
Proof.
  induction s as [| c s IH]; simpl; [reflexivity |].
  intros Hd. apply andb_true_iff in Hd. destruct Hd as [Hc Hd].
  rewrite Hc, (IH Hd). reflexivity.
Qed.

Lemma int_of_digits_aux_nonneg (s : string) : forall acc,
  all_digits s = true -> 0 <= acc -> 0 <= int_of_digits_aux s acc.
Proof.
  induction s as [| c s IH]; intros acc Hd Ha; [exact Ha |].
  simpl in Hd. apply andb_true_iff in Hd. destruct Hd as [Hc Hd].
  cbn [int_of_digits_aux]. apply IH; [exact Hd |].
  unfold isdecimal, code_in in Hc. apply andb_true_iff in Hc.
  destruct Hc as [Hc _]. apply Nat.leb_le in Hc. lia.
Qed.

(** [int] returns the value of a string of decimal digits that is not
    empty and has at most [int_max_str_digits] characters. *)
Lemma py_int_Ok (num : string) (z : Z) :
  py_int num = Ok z -> z = int_of_digits num /\ all_digits num = true.
Proof.
  unfold py_int. destruct (exceeds_int_max_str_digits _); [discriminate |].
  destruct (negb (String.eqb num "")); simpl; [| discriminate].
  rewrite string_forallb_decimal.
  destruct (all_digits num); [| discriminate].
  intros E. inversion E. split; reflexivity.
Qed.

Lemma py_int_digits (num : string) :
  all_digits num = true -> num <> "" ->
  Z.of_nat (String.length num) <= int_max_str_digits ->
  py_int num = Ok (int_of_digits num).
Proof.
  intros Hd Hne Hl. unfold py_int, exceeds_int_max_str_digits.
  rewrite (leading_decimals_all _ Hd).
  destruct (int_max_str_digits <? Z.of_nat (String.length num)) eqn:E;
    [apply Z.ltb_lt in E; lia |].
  rewrite string_forallb_decimal, Hd.
  destruct (String.eqb num "") eqn:En;
    [apply String.eqb_eq in En; contradiction | reflexivity].
Qed.

(** Why [int] raises on the digits of a number. *)
Lemma py_int_raises_why (num : string) (e : exn) :
  py_int num = Raise e ->
  num = "" \/ all_digits num = false
  \/ int_max_str_digits < Z.of_nat (String.length num).
Proof.
  unfold py_int, exceeds_int_max_str_digits.
  destruct (int_max_str_digits
            <? Z.of_nat (String.length (leading_decimals num))) eqn:E.
  - intros _. right. right. apply Z.ltb_lt in E.
    pose proof (leading_decimals_length num). lia.
  - destruct (String.eqb num "") eqn:En.
    + intros _. left. apply String.eqb_eq. exact En.
    + simpl. rewrite string_forallb_decimal.
      destruct (all_digits num); [discriminate |].
      intros _. right. left. reflexivity.
Qed.

Lemma int_of_digits_nonneg (s : string) :
  all_digits s = true -> 0 <= int_of_digits s.
Proof. intros Hd. apply int_of_digits_aux_nonneg; [exact Hd | lia]. Qed.

Section LexerErrors.
Context {H : Host}.
Variable text : string.
Variable variable_symbol : string.

Local Abbreviation len := (String.length text).

Lemma read_number_loop_raises fuel : forall cur num dp e,
  read_number_loop text fuel cur num dp = Raise e ->
  exists p,
    e = LexerError "Multiple decimal points" p
    /\ (cur < p <= len)%nat /\ text_at text (p - 1) = "."%char.
Proof.
  induction fuel as [| fuel IH]; intros cur num dp e E; [discriminate E |].
  simpl in E. destruct (cur <? len)%nat eqn:Hc; [| discriminate E].
  apply Nat.ltb_lt in Hc.
  destruct (isdigit (text_at text cur)).
  { apply IH in E. destruct E as (p & -> & Hp & Hd).
    exists p. repeat split; try lia; assumption. }
  destruct (Ascii.eqb (text_at text cur) ".") eqn:Edot; simpl in E;
    [| discriminate E].
  match type of E with
  | (if ?b && negb dp then _ else _) = _ => destruct b
  end; simpl in E; destruct dp; simpl in E; try discriminate E.
  - inversion E; subst e. exists (cur + 1)%nat.
    split; [reflexivity |]. split; [lia |].
    rewrite Nat.add_sub. apply Ascii.eqb_eq. exact Edot.
  - apply IH in E. destruct E as (p & -> & Hp & Hd).
    exists p. repeat split; try lia; assumption.
Qed.

Lemma read_number_loop_dp fuel : forall cur num dp n d c,
  read_number_loop text fuel cur num dp = Ok (n, d, c) ->
  dp = true -> d = true.
Proof.
  induction fuel as [| fuel IH]; intros cur num dp n d c E;
    [discriminate E |].
  simpl in E.
  destruct (cur <? len)%nat; [| inversion E; subst; tauto].
  destruct (isdigit (text_at text cur)); [eapply IH; exact E |].
  match type of E with
  | (if ?b && negb dp then _ else _) = _ => destruct b
  end; simpl in E; destruct dp; simpl in E;
    try discriminate E; try (inversion E; subst; tauto).
  intros _. eapply IH; [exact E | reflexivity].
Qed.

(** One character of the text for each character collected. *)
Lemma read_number_loop_length fuel : forall cur num dp n d c,
  read_number_loop text fuel cur num dp = Ok (n, d, c) ->
  String.length n = (String.length num + (c - cur))%nat
  /\ (c <= Nat.max cur len)%nat.
Proof.
  induction fuel as [| fuel IH]; intros cur num dp n d c E;
    [discriminate E |].
  simpl in E.
  destruct (cur <? len)%nat eqn:Hc;
    [| inversion E; subst; split; lia].
  apply Nat.ltb_lt in Hc.
  assert (Hstep : forall ch dp',
            read_number_loop text fuel (cur + 1) (num ++ ch) dp'
            = Ok (n, d, c) ->
            String.length ch = 1%nat ->
            String.length n = (String.length num + (c - cur))%nat
            /\ (c <= Nat.max cur len)%nat).
  { intros ch dp' E' Hch.
    pose proof (read_number_loop_progress _ _ _ _ _ E') as Hp.
    apply IH in E'. destruct E' as [El Hm].
    rewrite length_append, Hch in El. split; lia. }
  destruct (isdigit (text_at text cur));
    [eapply Hstep; [exact E | reflexivity] |].
  match type of E with
  | (if ?b && negb dp then _ else _) = _ => destruct b
  end; simpl in E; destruct dp; simpl in E;
    try discriminate E; try (inversion E; subst; split; lia).
  eapply Hstep; [exact E | reflexivity].
Qed.

(** The digits collected for an [int] are decimal unless the text has a
    digit that is not. *)
Lemma read_number_loop_int fuel : forall cur num dp n c,
  read_number_loop text fuel cur num dp = Ok (n, false, c) ->
  all_digits num = true ->
  all_digits n = true \/ has_odd_digit text.
Proof.
  induction fuel as [| fuel IH]; intros cur num dp n c E Hn;
    [discriminate E |].
  simpl in E.
  destruct (cur <? len)%nat eqn:Hc;
    [| inversion E; subst; left; exact Hn].
  apply Nat.ltb_lt in Hc.
  destruct (isdigit (text_at text cur)) eqn:Hd.
  { destruct (isdecimal (text_at text cur)) eqn:Hdec.
    - eapply IH; [exact E |].
      rewrite all_digits_append, Hn. simpl. rewrite Hdec. reflexivity.
    - right. exists cur. repeat split; assumption. }
  match type of E with
  | (if ?b && negb dp then _ else _) = _ => destruct b
  end; simpl in E; destruct dp; simpl in E;
    try discriminate E; try (inversion E; subst; left; exact Hn).
  apply read_number_loop_dp in E; [discriminate E | reflexivity].
Qed.

(** The characters collected for a [float] are decimal digits and the
    decimal point unless the text has a digit that is not decimal. *)
Lemma read_number_loop_float fuel : forall cur num dp n d c,
  read_number_loop text fuel cur num dp = Ok (n, d, c) ->
  string_forallb decimal_or_dot num = true ->
  string_forallb decimal_or_dot n = true \/ has_odd_digit text.
Proof.
  induction fuel as [| fuel IH]; intros cur num dp n d c E Hn;
    [discriminate E |].
  simpl in E.
  destruct (cur <? len)%nat eqn:Hc;
    [| inversion E; subst; left; exact Hn].
  apply Nat.ltb_lt in Hc.
  destruct (isdigit (text_at text cur)) eqn:Hd.
  { destruct (isdecimal (text_at text cur)) eqn:Hdec.
    - eapply IH; [exact E |].
      rewrite string_forallb_append, Hn. simpl.
      unfold decimal_or_dot. rewrite Hdec. reflexivity.
    - right. exists cur. repeat split; assumption. }
  match type of E with
  | (if ?b && negb dp then _ else _) = _ => destruct b
  end; simpl in E; destruct dp; simpl in E;
    try discriminate E; try (inversion E; subst; left; exact Hn).
  eapply IH; [exact E |].
  rewrite string_forallb_append, Hn. reflexivity.
Qed.

(** [read_number], entered on a digit, raises the [LexerError] of a
    second decimal point, or the [ValueError] of [int] or [float]. *)
Lemma read_number_raises cur e :
  (cur < len)%nat -> isdigit (text_at text cur) = true ->
  read_number text cur = Raise e ->
  (exists p,
     e = LexerError "Multiple decimal points" p
     /\ (cur < p <= len)%nat /\ text_at text (p - 1) = "."%char)
  \/ conversion_error_of text e.
Proof.
  unfold read_number. intros Hc Hd E.
  destruct (read_number_loop text (S (len - cur)) cur "" false)
    as [[[n d] c] | e' |] eqn:El; simpl in E.
  - right. destruct d.
    + destruct (py_float n) as [f | e' |] eqn:Ef; simpl in E;
        try discriminate E.
      inversion E; subst e'. split; [eapply py_float_raises; exact Ef |].
      left. unfold py_float in Ef.
      apply read_number_loop_float in El; [| reflexivity].
      destruct El as [Hn | Ho]; [| exact Ho].
      rewrite Hn in Ef. discriminate Ef.
    + destruct (py_int n) as [z | e' |] eqn:Ez; simpl in E;
        try discriminate E.
      inversion E; subst e'. split; [eapply py_int_raises; exact Ez |].
      pose proof (read_number_loop_length _ _ _ _ El) as [Hl Hm].
      apply py_int_raises_why in Ez.
      destruct Ez as [-> | [Hn | Hn]].
      * exfalso. simpl in El. apply Nat.ltb_lt in Hc.
        rewrite Hc, Hd in El.
        apply read_number_loop_progress in El.
        simpl in Hl. lia.
      * left. apply read_number_loop_int in El; [| reflexivity].
        destruct El as [Hn' | Ho]; [congruence | exact Ho].
      * right. simpl in Hl. lia.
  - left. inversion E; subst e'. eapply read_number_loop_raises; exact El.
  - discriminate E.
Qed.

Lemma read_function_loop_returns fuel : forall cur fn e,
  read_function_loop text fuel cur fn <> Raise e.
Proof.
  induction fuel as [| fuel IH]; intros cur fn e; [discriminate |].
  simpl. destruct ((cur <? len)%nat && isalnum (text_at text cur));
    [apply IH | discriminate].
Qed.

Lemma read_function_returns cur e : read_function text cur <> Raise e.
Proof.
  unfold read_function. intros E.
  destruct (read_function_loop text (S (len - cur)) cur "")
    as [[n c] | e' |] eqn:El; simpl in E; try discriminate E.
  inversion E; subst e'. revert El. apply read_function_loop_returns.
Qed.

Lemma ignoreWhitespaces_loop_returns fuel : forall cur e,
  ignoreWhitespaces_loop text fuel cur <> Raise e.
Proof.
  induction fuel as [| fuel IH]; intros cur e; [discriminate |].
  simpl. destruct ((cur <? len)%nat && isspace (text_at text cur));
    [apply IH | discriminate].
Qed.

Lemma lex_raises fuel : forall cur (tokens : list (Token H)) e,
  lex text variable_symbol fuel cur tokens = Raise e ->
  lexer_error_at text e \/ conversion_error_of text e.
Proof.
  induction fuel as [| fuel IH]; intros cur tokens e E; [discriminate E |].
  cbn [lex] in E. destruct (cur <? len)%nat eqn:Hc; [| discriminate E].
  apply Nat.ltb_lt in Hc.
  destruct (String.eqb (str1 (text_at text cur)) variable_symbol);
    [eapply IH; exact E |].
  destruct (isdigit (text_at text cur)) eqn:Hd.
  { destruct (read_number text cur) as [[tok c] | e' |] eqn:En;
      simpl in E; [eapply IH; exact E | | discriminate E].
    inversion E; subst e'.
    apply read_number_raises in En; try assumption.
    destruct En as [(p & -> & Hp & Hdot) | Hv]; [left | right; exact Hv].
    exists "Multiple decimal points", p.
    split; [reflexivity |]. split; [lia |]. left. split; [reflexivity |].
    exact Hdot. }
  destruct (isspace (text_at text cur)) eqn:Hs.
  { destruct (ignoreWhitespaces text cur) as [c | e' |] eqn:En;
      simpl in E; [eapply IH; exact E | | discriminate E].
    exfalso. revert En. apply ignoreWhitespaces_loop_returns. }
  destruct (single_char_token (text_at text cur));
    [eapply IH; exact E |].
  destruct (isalpha (text_at text cur)) eqn:Ha.
  { destruct (read_function text cur) as [[tok c] | e' |] eqn:En;
      simpl in E; [eapply IH; exact E | | discriminate E].
    exfalso. revert En. apply read_function_returns. }
  destruct (Ascii.eqb (text_at text cur) ".");
    [eapply IH; exact E |].
  inversion E; subst e. left.
  exists "Invalid character", (cur + 1)%nat.
  split; [reflexivity |]. split; [lia |]. right.
  rewrite Nat.add_sub, Ha, Hd, Hs.
  repeat split; reflexivity.
Qed.

(** *** The tokens the lexer builds *)

Lemma read_number_token cur tok c :
  read_number text cur = Ok (tok, c) -> lexer_token tok = true.
Proof.
  unfold read_number. intros E.
  apply rbind_Ok_inv in E. destruct E as ([[n d] c'] & El & E).
  apply read_number_token_Ok in E.
  destruct E as [_ [(_ & f & _ & ->) | (_ & z & Ez & ->)]];
    [reflexivity |].
  apply py_int_Ok in Ez. destruct Ez as [-> Hd].
  unfold lexer_token. cbn [type tvalue]. apply Z.leb_le.
  apply int_of_digits_nonneg. exact Hd.
Qed.

Lemma read_function_loop_length fuel : forall cur fn n c,
  read_function_loop text fuel cur fn = Ok (n, c) ->
  String.length n = (String.length fn + (c - cur))%nat.
Proof.
  induction fuel as [| fuel IH]; intros cur fn n c E; [discriminate E |].
  simpl in E.
  destruct ((cur <? len)%nat && isalnum (text_at text cur)).
  - pose proof (read_function_loop_progress _ _ _ _ E) as Hp.
    apply IH in E. rewrite E, length_append. simpl. lia.
  - inversion E; subst. lia.
Qed.

Lemma read_function_token cur tok c :
  (cur < len)%nat -> isalpha (text_at text cur) = true ->
  read_function text cur = Ok (tok, c) -> lexer_token tok = true.
Proof.
  intros Hc Ha E.
  pose proof (read_function_progress text Hc Ha E) as Hp.
  unfold read_function in E.
  apply rbind_Ok_inv in E. destruct E as ([n c'] & El & E).
  inversion E; subst tok c'. clear E.
  apply read_function_loop_length in El.
  destruct n as [| a n]; [simpl in El; lia | reflexivity].
Qed.

Lemma single_char_token_token c tok :
  single_char_token c = Some tok -> lexer_token tok = true.
Proof.
  unfold single_char_token. intros E.
  repeat
    match type of E with
    | (if Ascii.eqb c ?d then _ else _) = _ =>
        let Ec := fresh "Ec" in
        destruct (Ascii.eqb c d) eqn:Ec;
        [apply Ascii.eqb_eq in Ec; subst c; inversion E; reflexivity |]
    end.
  discriminate E.
Qed.

Lemma lex_tokens fuel : forall cur (tokens toks : list (Token H)),
  forallb lexer_token tokens = true ->
  lex text variable_symbol fuel cur tokens = Ok toks ->
  forallb lexer_token toks = true.
Proof.
  assert (Happ : forall (l : list (Token H)) t,
            forallb lexer_token l = true -> lexer_token t = true ->
            forallb lexer_token (l ++ [t]) = true).
  { intros l t Hl Ht. rewrite forallb_app, Hl. simpl. rewrite Ht.
    reflexivity. }
  induction fuel as [| fuel IH]; intros cur tokens toks Hw E;
    [discriminate E |].
  cbn [lex] in E.
  destruct (cur <? len)%nat eqn:Hc; [| inversion E; subst; exact Hw].
  apply Nat.ltb_lt in Hc.
  destruct (String.eqb (str1 (text_at text cur)) variable_symbol).
  { eapply IH; [| exact E]. apply Happ; [exact Hw | reflexivity]. }
  destruct (isdigit (text_at text cur)) eqn:Hd.
  { apply rbind_Ok_inv in E. destruct E as ([tok c] & En & E).
    eapply IH; [| exact E]. apply Happ; [exact Hw |].
    eapply read_number_token; exact En. }
  destruct (isspace (text_at text cur)) eqn:Hs.
  { apply rbind_Ok_inv in E. destruct E as (c & _ & E).
    eapply IH; [| exact E]. exact Hw. }
  destruct (single_char_token (text_at text cur)) as [tok |] eqn:Es.
  { eapply IH; [| exact E]. apply Happ; [exact Hw |].
    eapply single_char_token_token; exact Es. }
  destruct (isalpha (text_at text cur)) eqn:Ha.
  { apply rbind_Ok_inv in E. destruct E as ([tok c] & En & E).
    eapply IH; [| exact E]. apply Happ; [exact Hw |].
    eapply read_function_token; eassumption. }
  destruct (Ascii.eqb (text_at text cur) ".") eqn:Edot; [| discriminate E].
  eapply IH; [| exact E]. apply Happ; [exact Hw |].
  apply Ascii.eqb_eq in Edot. rewrite Edot. reflexivity.
Qed.

End LexerErrors.

Lemma Lexer_with_tokens {H : Host} text variable_symbol
  (toks : list (Token H)) :
  Lexer_with text variable_symbol = Ok toks ->
  forallb lexer_token toks = true.
Proof. unfold Lexer_with. apply lex_tokens. reflexivity. Qed.


(** *** More fuel does not change the tokens *)
Section LexerFuel.
Context {H : Host}.
Variable text : string.
Variable variable_symbol : string.

Lemma lex_S fuel cur (tokens : list (Token H)) :
  lex text variable_symbol (S fuel) cur tokens =
  if (cur <? String.length text)%nat then
    let char := text_at text cur in
    if String.eqb (str1 char) variable_symbol then
      lex text variable_symbol fuel (cur + 1)
        (tokens ++ [mkToken variable (TStr "x")])%list
    else if isdigit char then
      '(tok, c) <- read_number text cur ;;
      lex text variable_symbol fuel c (tokens ++ [tok])%list
    else if isspace char then
      c <- ignoreWhitespaces text cur ;;
      lex text variable_symbol fuel c tokens
    else
      match single_char_token char with
      | Some tok =>
          lex text variable_symbol fuel (cur + 1) (tokens ++ [tok])%list
      | None =>
          if isalpha char then
            '(tok, c) <- read_function text cur ;;
            lex text variable_symbol fuel c (tokens ++ [tok])%list
          else if Ascii.eqb char "." then
            lex text variable_symbol fuel (cur + 1)
              (tokens ++ [mkToken dot (TStr (str1 char))])%list
          else Raise (LexerError "Invalid character" (cur + 1))
      end
  else Ok tokens.
Proof. reflexivity. Qed.

Lemma lex_fuel_S fuel : forall cur (tokens : list (Token H)),
  res_le (lex text variable_symbol fuel cur tokens)
         (lex text variable_symbol (S fuel) cur tokens).
Proof.
  induction fuel as [| fuel IH]; intros cur tokens; [left; reflexivity |].
  rewrite (lex_S (S fuel)), (lex_S fuel). cbv zeta.
  destruct (cur <? String.length text)%nat; [| apply res_le_refl].
  destruct (String.eqb (str1 (text_at text cur)) variable_symbol);
    [apply IH |].
  destruct (isdigit (text_at text cur)).
  { apply res_le_bind; [apply res_le_refl |]. intros [tok c]. apply IH. }
  destruct (isspace (text_at text cur)).
  { apply res_le_bind; [apply res_le_refl |]. intros c. apply IH. }
  destruct (single_char_token (text_at text cur)); [apply IH |].
  destruct (isalpha (text_at text cur)).
  { apply res_le_bind; [apply res_le_refl |]. intros [tok c]. apply IH. }
  destruct (Ascii.eqb (text_at text cur) ".");
    [apply IH | apply res_le_refl].
Qed.

(** Two fuels that both suffice give the same tokens. *)
Lemma lex_fuel_S_eq fuel cur (tokens : list (Token H)) :
  (S (String.length text - cur) <= fuel)%nat ->
  lex text variable_symbol (S fuel) cur tokens
  = lex text variable_symbol fuel cur tokens.
Proof.
  intros Hf. apply res_le_eq; [apply lex_fuel_S |].
  apply lex_total. exact Hf.
Qed.

End LexerFuel.

(** *** A white space in front *)

Lemma isspace_not_digit c : isspace c = true -> isdigit c = false.
Proof.
  destruct c as [[] [] [] [] [] [] [] []]; intros E;
    solve [reflexivity | discriminate E].
Qed.

Lemma isspace_not_x c : isspace c = true -> String.eqb (str1 c) "x" = false.
Proof.
  destruct c as [[] [] [] [] [] [] [] []]; intros E;
    solve [reflexivity | discriminate E].
Qed.

Section LexerSpace.
Context {H : Host}.

Lemma lex_next c0 text variable_symbol fuel :
  forall cur (tokens : list (Token H)),
  lex (String c0 text) variable_symbol fuel (S cur) tokens
  = at_next (fun ts => ts) (lex text variable_symbol fuel cur tokens).
Proof.
  induction fuel as [| fuel IH]; intros cur tokens; [reflexivity |].
  cbn [lex]. rewrite !text_at_cons.
  change (S cur <? String.length (String c0 text))%nat
    with (cur <? String.length text)%nat.
  change (S cur + 1)%nat with (S (cur + 1)).
  destruct (cur <? String.length text)%nat; [| reflexivity].
  destruct (String.eqb (str1 (text_at text cur)) variable_symbol);
    [apply IH |].
  destruct (isdigit (text_at text cur)).
  { rewrite read_number_cons.
    apply (at_next_bind (fun '(tok, c) => (tok, S c)) (fun ts => ts)).
    intros [tok c]. apply IH. }
  destruct (isspace (text_at text cur)).
  { rewrite ignoreWhitespaces_cons.
    apply (at_next_bind S (fun ts => ts)). intros c. apply IH. }
  destruct (single_char_token (text_at text cur)); [apply IH |].
  destruct (isalpha (text_at text cur)).
  { rewrite read_function_cons.
    apply (at_next_bind (fun '(tok, c) => (tok, S c)) (fun ts => ts)).
    intros [tok c]. apply IH. }
  destruct (Ascii.eqb (text_at text cur) "."); [apply IH | reflexivity].
Qed.

(** The lexer, started on a white space, goes on after the run of white
    space. *)
Lemma lex_on_space text fuel cur (tokens : list (Token H)) :
  (cur < String.length text)%nat -> isspace (text_at text cur) = true ->
  lex text "x" (S fuel) cur tokens
  = (c <- ignoreWhitespaces text cur ;; lex text "x" fuel c tokens).
Proof.
  intros Hc Hs. cbn [lex]. apply Nat.ltb_lt in Hc. rewrite Hc.
  rewrite (isspace_not_x _ Hs), (isspace_not_digit _ Hs), Hs.
  reflexivity.
Qed.

Lemma Lexer_space c text :
  isspace c = true ->
  Lexer (String c text) = at_next (fun ts => ts) (@Lexer H text).
Proof.
  intros Hs. unfold Lexer, Lexer_with.
  change (String.length (String c text)) with (S (String.length text)).
  rewrite lex_on_space; [| simpl; lia | exact Hs].
  unfold ignoreWhitespaces at 1.
  change (String.length (String c text) - 0)%nat
    with (S (String.length text)).
  set (n := S (String.length text)).
  cbn [ignoreWhitespaces_loop].
  change (0 <? String.length (String c text))%nat with true.
  change (text_at (String c text) 0) with c. rewrite Hs. cbn [andb].
  change (0 + 1)%nat with 1%nat.
  rewrite ignoreWhitespaces_loop_cons.
  assert (Hk : exists k, ignoreWhitespaces_loop text n 0 = Ok k
                         /\ lex text "x" n k []
                            = lex text "x" n 0 ([] : list (Token H))).
  { subst n.
    destruct ((0 <? String.length text)%nat && isspace (text_at text 0))
      eqn:E0.
    - apply andb_true_iff in E0. destruct E0 as [Hlt Hsp].
      apply Nat.ltb_lt in Hlt.
      rewrite (lex_on_space text (String.length text) [] Hlt Hsp).
      unfold ignoreWhitespaces. rewrite Nat.sub_0_r.
      destruct (ignoreWhitespaces_loop text (S (String.length text)) 0)
        as [k | e |] eqn:Ek.
      + exists k. split; [reflexivity |]. cbn [rbind].
        apply lex_fuel_S_eq.
        assert (0 < k)%nat; [| lia].
        apply (@ignoreWhitespaces_progress text 0 k Hlt Hsp).
        unfold ignoreWhitespaces. rewrite Nat.sub_0_r. exact Ek.
      + exfalso. revert Ek. apply ignoreWhitespaces_loop_returns.
      + exfalso. revert Ek. apply ignoreWhitespaces_loop_total. lia.
    - exists 0%nat. split; [| reflexivity].
      cbn [ignoreWhitespaces_loop]. rewrite E0. reflexivity. }
  destruct Hk as (k & Ek & El). rewrite Ek. cbn [at_next rbind].
  rewrite lex_next, El. reflexivity.
Qed.

End LexerSpace.

(** *** Decimal digits *)

Lemma digit_char (d : N) :
  (d < 10)%N ->
  isdecimal (ascii_of_N (48 + d)) = true
  /\ Z.of_nat (nat_of_ascii (ascii_of_N (48 + d))) - 48 = Z.of_N d.
Proof.
  intros Hd.
  assert (E : (d = 0 \/ d = 1 \/ d = 2 \/ d = 3 \/ d = 4 \/ d = 5 \/ d = 6
               \/ d = 7 \/ d = 8 \/ d = 9)%N) by lia.
  repeat (destruct E as [E | E]; [subst d; split; reflexivity |]).
  subst d; split; reflexivity.
Qed.

Lemma digits_of_pos_aux_value fuel : forall n acc,
  (n < 2 ^ N.of_nat fuel)%N ->
  int_of_digits_aux (digits_of_pos_aux fuel n acc) 0
  = int_of_digits_aux acc (Z.of_N n)
  /\ all_digits (digits_of_pos_aux fuel n acc) = all_digits acc.
Proof.
  induction fuel as [| fuel IH]; intros n acc Hn.
  - simpl in Hn. assert (n = 0%N) by lia. subst n. split; reflexivity.
  - cbn [digits_of_pos_aux].
    assert (Hm : (n mod 10 < 10)%N) by (apply N.mod_lt; lia).
    destruct (digit_char Hm) as [Hd Hv].
    destruct (N.ltb n 10) eqn:Hlt.
    + apply N.ltb_lt in Hlt. rewrite N.mod_small in * by assumption.
      split.
      * cbn [int_of_digits_aux]. rewrite Hv. reflexivity.
      * cbn [all_digits]. rewrite Hd. reflexivity.
    + apply N.ltb_ge in Hlt.
      assert (Hq : (n / 10 < 2 ^ N.of_nat fuel)%N).
      { apply N.Div0.div_lt_upper_bound.
        replace (N.of_nat (S fuel)) with (N.succ (N.of_nat fuel)) in Hn
          by lia.
        rewrite N.pow_succ_r' in Hn. lia. }
      destruct (IH (n / 10)%N
                  (String (ascii_of_N (48 + n mod 10)) acc) Hq) as [Ev Ed].
      split.
      * rewrite Ev. cbn [int_of_digits_aux]. rewrite Hv. f_equal.
        rewrite (N.div_mod n 10) at 3 by lia. lia.
      * rewrite Ed. cbn [all_digits]. rewrite Hd. reflexivity.
Qed.

Lemma digits_of_pos_aux_not_empty fuel n acc :
  digits_of_pos_aux (S fuel) n acc <> "".
Proof.
  revert n acc. induction fuel as [| fuel IH]; intros n acc.
  - simpl. destruct (N.ltb n 10); discriminate.
  - change (digits_of_pos_aux (S (S fuel)) n acc)
      with (if N.ltb n 10
            then String (ascii_of_N (48 + n mod 10)) acc
            else digits_of_pos_aux (S fuel) (n / 10)
                   (String (ascii_of_N (48 + n mod 10)) acc)).
    destruct (N.ltb n 10); [discriminate | apply IH].
Qed.

(** The decimal rendering of a natural number is a non-empty string of
    digits that [int] reads back. *)
Lemma str_of_N_digits (n : N) :
  int_of_digits (str_of_N n) = Z.of_N n
  /\ all_digits (str_of_N n) = true
  /\ str_of_N n <> "".
Proof.
  unfold str_of_N, int_of_digits.
  assert (Hn : (n < 2 ^ N.of_nat (S (N.to_nat (N.log2 n))))%N).
  { replace (N.of_nat (S (N.to_nat (N.log2 n)))) with (N.succ (N.log2 n))
      by lia.
    destruct n as [| p]; [reflexivity |].
    apply N.log2_spec. reflexivity. }
  destruct (digits_of_pos_aux_value _ "" Hn) as [Ev Ed].
  split; [exact Ev |]. split; [exact Ed |].
  apply digits_of_pos_aux_not_empty.
Qed.

(** *** The lexer on a string of digits *)

Lemma isdecimal_isdigit c : isdecimal c = true -> isdigit c = true.
Proof. unfold isdigit. intros ->. reflexivity. Qed.

Lemma read_number_loop_digits : forall s fuel num,
  all_digits s = true -> (String.length s < fuel)%nat ->
  read_number_loop s fuel 0 num false
  = Ok (num ++ s, false, String.length s).
Proof.
  induction s as [| c s IH]; intros fuel num Hd Hf.
  - destruct fuel as [| fuel]; [simpl in Hf; lia |].
    simpl. rewrite append_nil_r. reflexivity.
  - destruct fuel as [| fuel]; [simpl in Hf; lia |].
    simpl in Hd. apply andb_true_iff in Hd. destruct Hd as [Hc Hd].
    cbn [read_number_loop].
    change (0 <? String.length (String c s))%nat with true.
    change (text_at (String c s) 0) with c.
    rewrite (isdecimal_isdigit _ Hc). cbv iota zeta.
    change (0 + 1)%nat with 1%nat.
    rewrite read_number_loop_cons, IH; [| exact Hd | simpl in Hf; lia].
    cbn [at_next]. rewrite append_assoc. reflexivity.
Qed.

Lemma isdigit_not_x c : isdigit c = true -> String.eqb (str1 c) "x" = false.
Proof.
  destruct c as [[] [] [] [] [] [] [] []]; intros E;
    solve [reflexivity | discriminate E].
Qed.

(** A non-empty string of at most [int_max_str_digits] decimal digits
    lexes to one number token, an [int]. *)
Lemma Lexer_digits {H : Host} (s : string) :
  all_digits s = true -> s <> "" ->
  Z.of_nat (String.length s) <= int_max_str_digits ->
  Lexer s = Ok [number_token (VInt (int_of_digits s))].
Proof.
  intros Hd Hne Hl.
  pose proof (py_int_digits Hd Hne Hl) as Ez.
  destruct s as [| c s]; [contradiction Hne; reflexivity |].
  unfold Lexer, Lexer_with. rewrite lex_S. cbv zeta.
  change (0 <? String.length (String c s))%nat with true. cbv iota.
  change (text_at (String c s) 0) with c.
  assert (Hc : isdigit c = true).
  { apply isdecimal_isdigit. simpl in Hd. apply andb_true_iff in Hd.
    apply Hd. }
  rewrite (isdigit_not_x _ Hc), Hc.
  unfold read_number. rewrite Nat.sub_0_r.
  rewrite read_number_loop_digits; [| exact Hd | lia].
  cbn [rbind append]. rewrite Ez. cbn [rbind String.length].
  rewrite lex_S, Nat.ltb_irrefl. reflexivity.
Qed.




(** *** The lexer on a name and on white space *)

Lemma read_function_loop_name : forall s fuel fn,
  all_alnum s = true -> (String.length s < fuel)%nat ->
  read_function_loop s fuel 0 fn = Ok (fn ++ s, String.length s).
Proof.
  induction s as [| c s IH]; intros fuel fn Ha Hf.
  - destruct fuel as [| fuel]; [simpl in Hf; lia |].
    simpl. rewrite append_nil_r. reflexivity.
  - destruct fuel as [| fuel]; [simpl in Hf; lia |].
    simpl in Ha. apply andb_true_iff in Ha. destruct Ha as [Hc Ha].
    cbn [read_function_loop].
    change (0 <? String.length (String c s))%nat with true.
    change (text_at (String c s) 0) with c. rewrite Hc. cbn [andb].
    change (0 + 1)%nat with 1%nat.
    rewrite read_function_loop_cons, IH; [| exact Ha | simpl in Hf; lia].
    cbn [at_next]. rewrite append_assoc. reflexivity.
Qed.

Lemma isalpha_only {H : Host} c :
  isalpha c = true ->
  isdigit c = false /\ isspace c = false
  /\ @single_char_token H c = None.
Proof.
  destruct c as [[] [] [] [] [] [] [] []]; intros E;
    solve [repeat split; reflexivity | discriminate E].
Qed.

(** A name that does not start with the variable lexes to one function
    token. *)
Lemma Lexer_name {H : Host} (c : ascii) (s : string) :
  isalpha c = true -> c <> "x"%char -> all_alnum s = true ->
  Lexer (String c s) = Ok [mkToken function (TStr (String c s))].
Proof.
  intros Hc Hx Ha. destruct (isalpha_only (H := H) c Hc) as (Hd & Hs & Ht).
  unfold Lexer, Lexer_with. rewrite lex_S. cbv zeta.
  change (0 <? String.length (String c s))%nat with true. cbv iota.
  change (text_at (String c s) 0) with c.
  replace (String.eqb (str1 c) "x") with false.
  2: { symmetry. apply String.eqb_neq. intros E. apply Hx.
       inversion E. reflexivity. }
  rewrite Hd, Hs, Ht, Hc.
  unfold read_function. rewrite Nat.sub_0_r.
  rewrite read_function_loop_name; [| | lia].
  2: { simpl. unfold isalnum. rewrite Hc, Ha. reflexivity. }
  cbn [rbind append String.length]. rewrite lex_S.
  cbn [String.length]. rewrite Nat.ltb_irrefl. reflexivity.
Qed.

(** White space alone lexes to no token. *)
Lemma Lexer_blank {H : Host} (s : string) :
  all_space s = true -> @Lexer H s = Ok [].
Proof.
  induction s as [| c s IH]; intros Hs; [reflexivity |].
  simpl in Hs. apply andb_true_iff in Hs. destruct Hs as [Hc Hs].
  rewrite (@Lexer_space H c s Hc), (IH Hs). reflexivity.
Qed.

Section ParserFuel.
Context {H : Host}.
Variable tokens : list (Token H).

(** [parse] with any fuel that suffices. *)
Lemma parse_with_fuel (F : nat) :
  (parse_fuel tokens <= F)%nat ->
  parse tokens
  = ('(tree, curToken) <- parseExpression tokens F 0 0 ;;
     if (curToken <? List.length tokens)%nat
     then Raise (ParserError "Not a valid expression")
     else Ok tree).
Proof.
  intros HF. unfold parse.
  rewrite (res_le_eq (parseExpression_fuel_mono tokens 0 0 HF)); 
    [reflexivity |].
  apply (parseExpression_enough_fuel tokens (parse_fuel tokens)).
  unfold parse_fuel. lia.
Qed.

Lemma parseExpression_fuel_eq (f f' : nat) p c :
  (2 * (List.length tokens - c) + 1 <= f)%nat -> (f <= f')%nat ->
  parseExpression tokens f' p c = parseExpression tokens f p c.
Proof.
  intros Hf Hle.
  apply (res_le_eq (parseExpression_fuel_mono tokens p c Hle)).
  apply (parseExpression_enough_fuel tokens f). exact Hf.
Qed.

Lemma parseExpression_while_fuel_eq (f f' : nat) p l c :
  (2 * (List.length tokens - c) + 2 <= f)%nat -> (f <= f')%nat ->
  parseExpression_while tokens f' p l c
  = parseExpression_while tokens f p l c.
Proof.
  intros Hf Hle.
  apply (res_le_eq (parseExpression_while_fuel_mono tokens p l c Hle)).
  apply (parseExpression_enough_fuel tokens f). exact Hf.
Qed.

End ParserFuel.

Section ParserPrefixPlus.
Context {H : Host}.

(** A leading [plus] token is dropped: its handler is
    [lambda _: self.parseExpression()]. *)
Lemma parse_plus_cons (v : token_value H) (tokens : list (Token H)) :
  parse (mkToken plus v :: tokens) = parse tokens.
Proof.
  set (m := mkToken plus v).
  rewrite (@parse_with_fuel _ (m :: tokens) (S (S (parse_fuel tokens))))
    by (unfold parse_fuel; simpl; lia).
  rewrite (@parse_with_fuel _ tokens (S (parse_fuel tokens))) by lia.
  rewrite parseExpression_S.
  change (List.length (m :: tokens) <=? 0)%nat with false. cbv iota.
  change (tokens_get (m :: tokens) 0) with (Ok m).
  cbn [rbind]. cbn [type m prefixFunctions].
  change (0 + 1)%nat with 1%nat.
  destruct (parseExpression_cons m tokens (S (parse_fuel tokens)))
    as [She Shw].
  rewrite (She 0 0%nat).
  destruct (parseExpression tokens (S (parse_fuel tokens)) 0 0)
    as [[T c] | e |] eqn:E0; [| reflexivity | reflexivity].
  cbn [shift_res rbind]. rewrite (Shw 0 T c).
  assert (Hd : loop_done tokens 0 c)
    by (eapply parseExpression_done; exact E0).
  rewrite (parseExpression_while_stop (parse_fuel tokens) T Hd).
  cbn [shift_res rbind]. rewrite ltb_length_cons. reflexivity.
Qed.

End ParserPrefixPlus.

Lemma Lexer_plus {H : Host} (text : string) :
  Lexer (String "+" text) = at_next (cons plus_token) (Lexer text).
Proof.
  unfold Lexer. unfold Lexer_with at 1.
  rewrite lex_S.
  change (String.length (String "+" text)) with (S (String.length text)).
  cbv zeta.
  change (0 <? S (String.length text))%nat with true. cbv iota.
  change (text_at (String "+" text) 0) with "+"%char.
  change (String.eqb (str1 "+") "x") with false. cbv iota.
  change (isdigit "+") with false. change (isspace "+") with false.
  cbv iota.
  change (single_char_token "+") with (Some (@plus_token H)).
  cbv iota. unfold Lexer_with.
  apply (lex_cons "+" text "x" plus_token (S (String.length text)) 0 []).
Qed.

(* ================================================================== *)
(** ** Parser: what it raises and what it builds *)
(* ================================================================== *)
Section ParserSafety.
Context {H : Host}.
Variable tokens : list (Token H).
Hypothesis tokens_lexed : forallb lexer_token tokens = true.

Lemma tokens_get_lexed c :
  (c < List.length tokens)%nat ->
  exists tok, tokens_get tokens c = Ok tok /\ lexer_token tok = true.
Proof.
  intros Hc. unfold tokens_get.
  destruct (nth_error tokens c) as [tok |] eqn:E.
  - exists tok. split; [reflexivity |].
    apply nth_error_In in E.
    exact (proj1 (forallb_forall _ _) tokens_lexed tok E).
  - apply nth_error_None in E. lia.
Qed.

Lemma good_bind (m : result (ASTNode H * nat)) k :
  good_res m ->
  (forall t c, operators_valid t = true -> good_res (k (t, c))) ->
  good_res (rbind m k).
Proof.
  destruct m as [[t c] | e |]; simpl; intros Hm Hk; auto.
Qed.

Lemma good_raise m : parser_message m -> good_res (Raise (ParserError m)).
Proof. intros Hm. exists m. split; [reflexivity | exact Hm]. Qed.

Lemma parser_message_right : parser_message "Expected right parenthesis".
Proof. right. reflexivity. Qed.

Lemma parser_message_left : parser_message "Expected left parenthesis".
Proof. left. right. right. left. reflexivity. Qed.

Lemma parseParen_good pE tok c :
  callee_good pE -> good_res (parseParen tokens pE tok c).
Proof.
  intros Hg. unfold parseParen.
  apply good_bind; [apply Hg; lia |]. intros node c1 Hv.
  destruct (c1 <? List.length tokens)%nat eqn:Hc; [| exact Hv].
  apply Nat.ltb_lt in Hc.
  destruct (tokens_get_lexed Hc) as (t & -> & _). cbn [rbind].
  destruct (negb (TokenType_eqb (type t) rparen));
    [apply good_raise, parser_message_right | exact Hv].
Qed.

Lemma prefix_good pE tok h c :
  callee_good pE -> lexer_token tok = true ->
  prefixFunctions tokens pE (type tok) = Some h ->
  good_res (h tok c).
Proof.
  intros Hg Ht Eh. destruct tok as [ty v]. unfold lexer_token in Ht.
  cbn [type tvalue] in *.
  destruct ty; simpl in Eh; inversion Eh; subst h; clear Eh;
    destruct v as [s | n]; try discriminate Ht.
  - reflexivity.
  - reflexivity.
  - unfold parsePrefixExpression. cbn [tvalue].
    apply good_bind; [apply Hg; lia |]. intros t c1 Hv.
    simpl. rewrite Ht, Hv. reflexivity.
  - apply Hg. lia.
  - apply parseParen_good; assumption.
  - unfold parseFunction. cbn [tvalue].
    destruct (List.length tokens <=? c)%nat eqn:Hc;
      [apply good_raise, parser_message_left |].
    apply Nat.leb_gt in Hc.
    destruct (tokens_get_lexed Hc) as (t & -> & _). cbn [rbind].
    destruct (negb (TokenType_eqb (type t) lparen));
      [apply good_raise, parser_message_left |].
    apply good_bind; [apply parseParen_good; assumption |].
    intros t1 c1 Hv. exact Hv.
Qed.

Lemma infix_good pE tok h l c :
  callee_good pE -> lexer_token tok = true ->
  operators_valid l = true ->
  infixFunctions pE (type tok) = Some h ->
  good_res (h l tok c).
Proof.
  intros Hg Ht Hl Eh. destruct tok as [ty v]. unfold lexer_token in Ht.
  cbn [type tvalue] in *.
  destruct ty; simpl in Eh; inversion Eh; subst h; clear Eh;
    destruct v as [s | n]; try discriminate Ht;
    unfold parseInfixExpression, parseImplicitMultiplication;
    cbn [type tvalue TokenType_eqb precedences_get precedences rbind];
    (apply good_bind; [apply Hg; lia |]); intros t c1 Hv;
    simpl; rewrite ?Ht, Hl, Hv, ?orb_true_r; reflexivity.
Qed.

Lemma parseExpression_good (fuel : nat) :
  callee_good (parseExpression tokens fuel) /\
  (forall p l c,
     0 <= p -> operators_valid l = true ->
     good_res (parseExpression_while tokens fuel p l c)).
Proof.
  induction fuel as [| fuel [IHe IHw]].
  - split; [intros p c Hp | intros p l c Hp Hl]; exact I.
  - split.
    + intros p c Hp. rewrite parseExpression_S.
      destruct (List.length tokens <=? c)%nat eqn:Hc.
      { apply good_raise. left. right. left. reflexivity. }
      apply Nat.leb_gt in Hc.
      destruct (tokens_get_lexed Hc) as (tok & -> & Ht). cbn [rbind].
      destruct (prefixFunctions tokens (parseExpression tokens fuel)
                  (type tok)) as [h |] eqn:Eh.
      * apply good_bind; [eapply prefix_good; eassumption |].
        intros t c1 Hv. apply IHw; assumption.
      * assert (Ev : exists s, tvalue tok = TStr s).
        { destruct tok as [ty [s | v]]; [eexists; reflexivity |].
          destruct ty; simpl in Eh; try discriminate Eh;
            simpl in Ht; discriminate Ht. }
        destruct Ev as (s & ->). cbn [token_value_str rbind].
        apply good_raise. left. left. eexists. reflexivity.
    + intros p l c Hp Hl. rewrite parseExpression_while_S.
      destruct (c <? List.length tokens)%nat eqn:Hc; [| exact Hl].
      apply Nat.ltb_lt in Hc.
      destruct (tokens_get_lexed Hc) as (tok & Et & Ht).
      unfold getPrecedence. rewrite Et. cbn [rbind].
      destruct (infixFunctions (parseExpression tokens fuel) (type tok))
        as [h |] eqn:Eh.
      * destruct (precedences (type tok)) as [q |]; cbn [rbind];
          (destruct (p <? _); [| exact Hl]);
          (apply good_bind; [eapply infix_good; eassumption |]);
          intros t c1 Hv; apply IHw; assumption.
      * destruct (type tok); simpl in Eh; try discriminate Eh;
          cbn [precedences rbind];
          (destruct (p <? 0) eqn:Hq; [apply Z.ltb_lt in Hq; lia |]);
          exact Hl.
Qed.

(** On the tokens of the lexer, [parse] returns a tree with valid
    operators or raises a [ParserError] with one of its messages. *)
Lemma parse_good :
  match parse tokens with
  | Ok t => operators_valid t = true
  | Raise e => exists m, e = ParserError m /\ parser_message m
  | OutOfFuel => False
  end.
Proof.
  pose proof (parse_total tokens) as Htot.
  unfold parse in *.
  pose proof (proj1 (parseExpression_good (parse_fuel tokens)) 0 0%nat
                (Z.le_refl 0)) as Hg.
  destruct (parseExpression tokens (parse_fuel tokens) 0 0)
    as [[t c] | e |]; cbn [rbind] in *.
  - destruct (c <? List.length tokens)%nat; [| exact Hg].
    exists "Not a valid expression". split; [reflexivity |].
    left. right. right. right. reflexivity.
  - exact Hg.
  - apply Htot. reflexivity.
Qed.

End ParserSafety.

(* ================================================================== *)
(** ** Parser: implicit multiplication *)
(* ================================================================== *)
Section ImplicitMultiplication.
Context {H : Host}.

Lemma parse_implicit_multiplication (tok0 t1 : Token H)
  (rest : list (Token H)) :
  atom_token tok0 = true ->
  TokenType_in (type t1) implicitMultiplications = true ->
  parse (tok0 :: t1 :: rest) = parse (tok0 :: asterisk_token :: t1 :: rest).
Proof.
  intros H0 H1.
  set (tokens := t1 :: rest).
  set (f := parse_fuel (tok0 :: asterisk_token :: tokens)).
  rewrite (@parse_with_fuel _ (tok0 :: tokens) (S (S f)))
    by (unfold f, parse_fuel; simpl; lia).
  rewrite (@parse_with_fuel _ (tok0 :: asterisk_token :: tokens) (S (S f)))
    by (unfold f; lia).
  destruct (parseExpression_cons tok0 tokens f) as [She1 Shw1].
  destruct (parseExpression_cons tok0 (asterisk_token :: tokens) f)
    as [She2 Shw2].
  destruct (parseExpression_cons asterisk_token tokens f) as [She3 Shw3].
  assert (Hatom : exists A,
            forall toks pE c,
              option_map (fun h => h tok0 c)
                (prefixFunctions toks pE (type tok0))
              = Some (Ok (A, c))).
  { destruct tok0 as [ty v]. unfold atom_token in H0. cbn [type tvalue] in *.
    destruct ty; try discriminate H0; destruct v as [s | n];
      try discriminate H0; eexists; intros; reflexivity. }
  destruct Hatom as (A & HA).
  assert (Hprefix : forall toks,
            parseExpression (tok0 :: toks) (S (S f)) 0 0
            = parseExpression_while (tok0 :: toks) (S f) 0 A 1).
  { intros toks. rewrite parseExpression_S.
    change (List.length (tok0 :: toks) <=? 0)%nat with false. cbv iota.
    change (tokens_get (tok0 :: toks) 0) with (Ok tok0). cbn [rbind].
    specialize (HA (tok0 :: toks) (parseExpression (tok0 :: toks) (S f))
                  (0 + 1)%nat).
    destruct (prefixFunctions (tok0 :: toks)
                (parseExpression (tok0 :: toks) (S f)) (type tok0))
      as [h |]; [| discriminate HA].
    cbn [option_map] in HA. inversion HA as [HA'].
    change (0 + 1)%nat with 1%nat. rewrite HA'.
    reflexivity. }
  rewrite !Hprefix. rewrite !parseExpression_while_S.
  change (1 <? List.length (tok0 :: tokens))%nat with true.
  change (1 <? List.length (tok0 :: asterisk_token :: tokens))%nat
    with true.
  cbv iota.
  change (getPrecedence (tok0 :: asterisk_token :: tokens) 1) with (Ok 2).
  change (tokens_get (tok0 :: asterisk_token :: tokens) 1)
    with (Ok (@asterisk_token H)).
  change (tokens_get (tok0 :: tokens) 1) with (Ok t1).
  unfold getPrecedence.
  change (tokens_get (tok0 :: tokens) 1) with (Ok t1).
  cbn [rbind]. change (0 <? 2) with true. cbv iota.
  cbn [type asterisk_token].
  change (TokenType_in asterisk implicitMultiplications) with false.
  rewrite H1. cbn [negb infixFunctions].
  assert (Himp : precedences (type t1) = Some 4
                 /\ infixFunctions (parseExpression (tok0 :: tokens) f)
                      (type t1)
                    = Some (parseImplicitMultiplication
                              (parseExpression (tok0 :: tokens) f))).
  { destruct (type t1); try discriminate H1; split; reflexivity. }
  destruct Himp as [-> ->]. change (0 <? 4) with true. cbv iota.
  unfold parseImplicitMultiplication, parseInfixExpression.
  cbn [tvalue asterisk_token type TokenType_eqb precedences_get
         precedences rbind].
  change (1 + 1)%nat with 2%nat.
  rewrite (She1 2 0%nat), (She2 2 1%nat), (She3 2 0%nat).
  destruct (parseExpression tokens f 2 0) as [[r c] | e |];
    [| reflexivity | reflexivity].
  cbn [shift_res rbind].
  rewrite (Shw1 0 _ c), (Shw2 0 _ (S c)), (Shw3 0 _ c).
  destruct (parseExpression_while tokens f 0 (InfixExpression A "*" r) c)
    as [[t c'] | e |]; reflexivity.
Qed.

End ImplicitMultiplication.

(* ================================================================== *)
(** ** Parser: the tokens a run consumes *)
(* ================================================================== *)
Section ParserConsumes.
Context {H : Host}.
Variable tokens : list (Token H).

Lemma no_dot_refl c : no_dot_between tokens c c.
Proof. intros i tok Hi. lia. Qed.

Lemma no_dot_trans a b c :
  no_dot_between tokens a b -> no_dot_between tokens b c -> no_dot_between tokens a c.
Proof.
  intros Hab Hbc i tok Hi E.
  destruct (Nat.lt_ge_cases i b) as [Hlt | Hge].
  - apply (Hab i tok); [lia | exact E].
  - apply (Hbc i tok); [lia | exact E].
Qed.

Lemma no_dot_one c tok :
  tokens_get tokens c = Ok tok -> type tok <> dot ->
  no_dot_between tokens c (c + 1).
Proof.
  unfold tokens_get. intros E Hty i tok' Hi E'.
  assert (i = c) by lia. subst i. rewrite E' in E. inversion E; subst.
  exact Hty.
Qed.

Lemma no_dot_end c c' :
  (List.length tokens <= c)%nat -> no_dot_between tokens c c'.
Proof.
  intros Hc i tok Hi E.
  assert (i < List.length tokens)%nat
    by (apply nth_error_Some; congruence).
  lia.
Qed.

Lemma parseParen_no_dot pE tok c t c' :
  callee_no_dot tokens pE ->
  parseParen tokens pE tok c = Ok (t, c') -> no_dot_between tokens c c'.
Proof.
  intros Hn E. unfold parseParen in E.
  apply rbind_Ok_inv in E. destruct E as ([node c1] & E1 & E).
  apply Hn in E1. apply (no_dot_trans E1).
  destruct (c1 <? List.length tokens)%nat eqn:Hc.
  - apply rbind_Ok_inv in E. destruct E as (tk & Et & E).
    destruct (TokenType_eqb (type tk) rparen) eqn:Ety; simpl in E;
      [| discriminate E].
    inversion E; subst. apply (no_dot_one Et).
    intros Hd. rewrite Hd in Ety. discriminate Ety.
  - inversion E; subst. apply no_dot_end.
    apply Nat.ltb_ge in Hc. exact Hc.
Qed.

Lemma prefix_no_dot pE ty h tok c t c' :
  callee_no_dot tokens pE ->
  prefixFunctions tokens pE ty = Some h ->
  h tok c = Ok (t, c') -> no_dot_between tokens c c'.
Proof.
  intros Hn Eh E.
  destruct ty; simpl in Eh; inversion Eh; subst h; clear Eh.
  - unfold parseNumber in E. destruct (tvalue tok); inversion E; subst.
    apply no_dot_refl.
  - unfold parseVariable in E. destruct (tvalue tok); inversion E; subst.
    apply no_dot_refl.
  - unfold parsePrefixExpression in E.
    destruct (tvalue tok); [| discriminate E].
    apply rbind_Ok_inv in E. destruct E as ([node c1] & E1 & E).
    inversion E; subst. eapply Hn; exact E1.
  - eapply Hn; exact E.
  - eapply parseParen_no_dot; eassumption.
  - unfold parseFunction in E.
    destruct (List.length tokens <=? c)%nat; [discriminate E |].
    apply rbind_Ok_inv in E. destruct E as (tk & Et & E).
    destruct (TokenType_eqb (type tk) lparen) eqn:Ety; simpl in E;
      [| discriminate E].
    destruct (tvalue tok); [| discriminate E].
    apply rbind_Ok_inv in E. destruct E as ([node c1] & E1 & E).
    inversion E; subst.
    apply (@no_dot_trans c (c + 1)%nat c').
    + apply (no_dot_one Et). intros Hd. rewrite Hd in Ety.
      discriminate Ety.
    + eapply parseParen_no_dot; eassumption.
Qed.

Lemma infix_no_dot pE ty h l tok c t c' :
  callee_no_dot tokens pE ->
  infixFunctions pE ty = Some h ->
  h l tok c = Ok (t, c') -> no_dot_between tokens c c'.
Proof.
  intros Hn Eh E.
  destruct ty; simpl in Eh; inversion Eh; subst h; clear Eh;
    unfold parseInfixExpression, parseImplicitMultiplication in E;
    repeat
      match type of E with
      | (match tvalue ?t with _ => _ end) = Ok _ => destruct (tvalue t)
      | (if ?b then _ else _) = Ok _ => destruct b
      | rbind (precedences_get _) _ = Ok _ =>
          apply rbind_Ok_inv in E; destruct E as (? & _ & E)
      | rbind _ _ = Ok _ =>
          let E1 := fresh "E1" in
          apply rbind_Ok_inv in E; destruct E as ([? ?] & E1 & E);
          apply Hn in E1
      | Raise _ = Ok _ => discriminate E
      | Ok _ = Ok _ => inversion E; subst; clear E
      end; assumption.
Qed.

Lemma parseExpression_no_dot (fuel : nat) :
  callee_no_dot tokens (parseExpression tokens fuel) /\
  (forall p l c t c',
     parseExpression_while tokens fuel p l c = Ok (t, c') ->
     no_dot_between tokens c c').
Proof.
  induction fuel as [| fuel [IHe IHw]].
  - split; [intros p c t c' E | intros p l c t c' E]; discriminate E.
  - split.
    + intros p c t c' E. rewrite parseExpression_S in E.
      destruct (List.length tokens <=? c)%nat; [discriminate E |].
      apply rbind_Ok_inv in E. destruct E as (tok & Et & E).
      destruct (prefixFunctions tokens (parseExpression tokens fuel)
                  (type tok)) as [h |] eqn:Eh;
        [| no_prefix tok; discriminate E].
      apply rbind_Ok_inv in E. destruct E as ([l c1] & E1 & E).
      apply (@no_dot_trans c (c + 1)%nat c').
      * apply (no_dot_one Et). intros Hd. rewrite Hd in Eh.
        discriminate Eh.
      * apply (@no_dot_trans _ c1).
        -- eapply prefix_no_dot; eassumption.
        -- eapply IHw; exact E.
    + intros p l c t c' E. rewrite parseExpression_while_S in E.
      destruct (c <? List.length tokens)%nat;
        [| inversion E; subst; apply no_dot_refl].
      apply rbind_Ok_inv in E. destruct E as (q & _ & E).
      destruct (p <? q); [| inversion E; subst; apply no_dot_refl].
      apply rbind_Ok_inv in E. destruct E as (tok & Et & E).
      destruct (infixFunctions (parseExpression tokens fuel) (type tok))
        as [h |] eqn:Eh; [| discriminate E].
      apply rbind_Ok_inv in E. destruct E as ([l1 c1] & E1 & E).
      apply (@infix_no_dot _ _ _ _ _ _ _ _ IHe Eh) in E1.
      apply IHw in E.
      destruct (negb (TokenType_in (type tok) implicitMultiplications)).
      * apply (@no_dot_trans c (c + 1)%nat c').
        -- apply (no_dot_one Et). intros Hd. rewrite Hd in Eh.
           discriminate Eh.
        -- apply (no_dot_trans E1 E).
      * apply (no_dot_trans E1 E).
Qed.

(** A token list that parses has no [dot] token. *)
Lemma parse_no_dot (t : ASTNode H) (tok : Token H) :
  parse tokens = Ok t -> In tok tokens -> type tok <> dot.
Proof.
  unfold parse. intros E Hin.
  apply rbind_Ok_inv in E. destruct E as ([tree c] & E1 & E).
  destruct (c <? List.length tokens)%nat eqn:Hc; [discriminate E |].
  apply Nat.ltb_ge in Hc.
  apply (proj1 (parseExpression_no_dot _)) in E1.
  apply In_nth_error in Hin. destruct Hin as (i & Hi).
  apply (E1 i tok); [| exact Hi].
  assert (i < List.length tokens)%nat
    by (apply nth_error_Some; congruence).
  lia.
Qed.

End ParserConsumes.

(* ================================================================== *)
(** ** Parser: a closing parenthesis added at the end *)
(* ================================================================== *)
Section ParserExtend.
Context {H : Host}.
Variable tokens : list (Token H).
Variable rp : Token H.
Hypothesis rp_type : type rp = rparen.

Lemma paren_close_extend (node : ASTNode H) (c : nat) :
  trunc_rel
    (if (c <? List.length tokens)%nat then
       t <- tokens_get tokens c ;;
       if negb (TokenType_eqb (type t) rparen)
       then Raise (ParserError "Expected right parenthesis")
       else Ok (node, (c + 1)%nat)
     else Ok (node, (c + 1)%nat))
    (if (c <? List.length (tokens ++ [rp]))%nat then
       t <- tokens_get (tokens ++ [rp]) c ;;
       if negb (TokenType_eqb (type t) rparen)
       then Raise (ParserError "Expected right parenthesis")
       else Ok (node, (c + 1)%nat)
     else Ok (node, (c + 1)%nat)).
Proof.
  rewrite length_full.
  destruct (lt_eq_lt_dec c (List.length tokens)) as [[Hlt | Heq] | Hgt].
  - rewrite tokens_get_full_lt by exact Hlt.
    replace (c <? S (List.length tokens))%nat with true
      by (symmetry; apply Nat.ltb_lt; lia).
    replace (c <? List.length tokens)%nat with true
      by (symmetry; apply Nat.ltb_lt; lia).
    apply trunc_rel_refl.
  - subst c. rewrite tokens_get_full_eq.
    rewrite Nat.ltb_irrefl.
    replace (List.length tokens <? S (List.length tokens))%nat with true
      by (symmetry; apply Nat.ltb_lt; lia).
    simpl. rewrite rp_type. simpl. apply trunc_rel_refl.
  - replace (c <? S (List.length tokens))%nat with false
      by (symmetry; apply Nat.ltb_ge; lia).
    replace (c <? List.length tokens)%nat with false
      by (symmetry; apply Nat.ltb_ge; lia).
    apply trunc_rel_refl.
Qed.

Lemma parseParen_extend pE pE' tok c :
  callee_extend pE pE' ->
  trunc_rel (parseParen tokens pE tok c)
            (parseParen (tokens ++ [rp]) pE' tok c).
Proof.
  intros Hc. unfold parseParen.
  apply trunc_bind_state; [apply Hc; lia |].
  intros [node c1]. apply paren_close_extend.
Qed.

Lemma parseFunction_extend pE pE' tok c :
  callee_extend pE pE' ->
  trunc_rel (parseFunction tokens pE tok c)
            (parseFunction (tokens ++ [rp]) pE' tok c).
Proof.
  intros Hc. unfold parseFunction. rewrite length_full.
  destruct (Nat.lt_ge_cases c (List.length tokens)) as [Hlt | Hge].
  - rewrite tokens_get_full_lt by exact Hlt.
    replace (S (List.length tokens) <=? c)%nat with false
      by (symmetry; apply Nat.leb_gt; lia).
    replace (List.length tokens <=? c)%nat with false
      by (symmetry; apply Nat.leb_gt; lia).
    apply trunc_bind; [auto |]. intros t.
    destruct (negb (TokenType_eqb (type t) lparen));
      [apply trunc_rel_refl |].
    destruct (tvalue tok); [| apply trunc_rel_refl].
    apply trunc_bind_state.
    + apply parseParen_extend; assumption.
    + intros [arg c1]. apply trunc_rel_refl.
  - replace (List.length tokens <=? c)%nat with true
      by (symmetry; apply Nat.leb_le; lia).
    apply trunc_rel_Raise.
Qed.

Lemma prefix_extend pE pE' ty :
  callee_extend pE pE' ->
  match prefixFunctions tokens pE ty,
        prefixFunctions (tokens ++ [rp]) pE' ty with
  | Some h, Some h' => forall tok c, trunc_rel (h tok c) (h' tok c)
  | None, None => True
  | _, _ => False
  end.
Proof.
  intros Hc. destruct ty; simpl; try exact I; intros tok c.
  - apply trunc_rel_refl.
  - apply trunc_rel_refl.
  - unfold parsePrefixExpression.
    destruct (tvalue tok); [| apply trunc_rel_refl].
    apply trunc_bind_state; [apply Hc; lia |].
    intros [o c1]. apply trunc_rel_refl.
  - apply Hc. lia.
  - apply parseParen_extend; assumption.
  - apply parseFunction_extend; assumption.
Qed.

Lemma infix_extend pE pE' ty :
  callee_extend pE pE' ->
  match infixFunctions pE ty, infixFunctions pE' ty with
  | Some h, Some h' => forall l tok c, trunc_rel (h l tok c) (h' l tok c)
  | None, None => True
  | _, _ => False
  end.
Proof.
  intros Hc. destruct ty; simpl; try exact I; intros l tok c;
    unfold parseInfixExpression, parseImplicitMultiplication;
    try (destruct (tvalue tok); [| apply trunc_rel_refl]);
    try destruct (type tok);
    cbn [TokenType_eqb precedences_get precedences rbind];
    try apply trunc_rel_Raise;
    (apply trunc_bind_state; [apply Hc; lia |]);
    intros [r c1]; apply trunc_rel_refl.
Qed.

Lemma parseExpression_extend (fuel : nat) :
  callee_extend (parseExpression tokens fuel)
                (parseExpression (tokens ++ [rp]) fuel) /\
  (forall p l c,
     0 <= p ->
     trunc_rel (parseExpression_while tokens fuel p l c)
               (parseExpression_while (tokens ++ [rp]) fuel p l c)).
Proof.
  induction fuel as [| fuel [IHe IHw]].
  - split; [intros p c Hp | intros p l c Hp]; intros t c' E;
      discriminate E.
  - split.
    + intros p c Hp. rewrite !parseExpression_S. rewrite length_full.
      destruct (Nat.lt_ge_cases c (List.length tokens)) as [Hlt | Hge].
      * rewrite tokens_get_full_lt by exact Hlt.
        replace (S (List.length tokens) <=? c)%nat with false
          by (symmetry; apply Nat.leb_gt; lia).
        replace (List.length tokens <=? c)%nat with false
          by (symmetry; apply Nat.leb_gt; lia).
        apply trunc_bind; [auto |]. intros tok.
        pose proof (prefix_extend (type tok) IHe) as Hh.
        destruct (prefixFunctions tokens (parseExpression tokens fuel)
                    (type tok)) as [h |],
                 (prefixFunctions (tokens ++ [rp])
                    (parseExpression (tokens ++ [rp]) fuel) (type tok))
                   as [h' |]; try contradiction; [| apply trunc_rel_refl].
        apply trunc_bind_state; [apply Hh |].
        intros [l c1]. apply IHw. exact Hp.
      * replace (List.length tokens <=? c)%nat with true
          by (symmetry; apply Nat.leb_le; lia).
        apply trunc_rel_Raise.
    + intros p l c Hp. rewrite !parseExpression_while_S.
      rewrite length_full.
      destruct (lt_eq_lt_dec c (List.length tokens))
        as [[Hlt | Heq] | Hgt].
      * unfold getPrecedence. rewrite tokens_get_full_lt by exact Hlt.
        replace (c <? S (List.length tokens))%nat with true
          by (symmetry; apply Nat.ltb_lt; lia).
        replace (c <? List.length tokens)%nat with true
          by (symmetry; apply Nat.ltb_lt; lia).
        apply trunc_bind; [auto |]. intros q.
        destruct (p <? q); [| apply trunc_rel_refl].
        apply trunc_bind; [auto |]. intros tok.
        pose proof (infix_extend (type tok) IHe) as Hh.
        destruct (infixFunctions (parseExpression tokens fuel) (type tok))
          as [h |],
          (infixFunctions (parseExpression (tokens ++ [rp]) fuel)
             (type tok)) as [h' |]; try contradiction;
          [| apply trunc_rel_refl].
        apply trunc_bind_state; [apply Hh |].
        intros [l1 c1]. apply IHw. exact Hp.
      * subst c. unfold getPrecedence. rewrite tokens_get_full_eq.
        rewrite Nat.ltb_irrefl.
        replace (List.length tokens <? S (List.length tokens))%nat
          with true by (symmetry; apply Nat.ltb_lt; lia).
        simpl. rewrite rp_type. simpl.
        destruct (p <? 0) eqn:Hq; [apply Z.ltb_lt in Hq; lia |].
        apply trunc_rel_refl.
      * replace (c <? S (List.length tokens))%nat with false
          by (symmetry; apply Nat.ltb_ge; lia).
        replace (c <? List.length tokens)%nat with false
          by (symmetry; apply Nat.ltb_ge; lia).
        apply trunc_rel_refl.
Qed.

(** The group [( tokens )] at the start of a list: [parseParen], called
    after the opening parenthesis, returns the tree of [tokens] and stops
    at the end of the list or beyond. *)
Lemma parseParen_wrapped (lp tok : Token H) (t : ASTNode H) (F : nat) :
  (parse_fuel tokens <= F)%nat ->
  parse tokens = Ok t ->
  exists c',
    parseParen (lp :: tokens ++ [rp])
      (parseExpression (lp :: tokens ++ [rp]) F) tok 1%nat
    = Ok (t, c')
    /\ (List.length (lp :: tokens ++ [rp]) <= c')%nat.
Proof.
  intros HF E.
  rewrite (@parse_with_fuel _ tokens F) in E by exact HF.
  apply rbind_Ok_inv in E. destruct E as ([t1 c1] & E1 & E).
  destruct (c1 <? List.length tokens)%nat eqn:Hc1; [discriminate E |].
  inversion E; subst t1; clear E. apply Nat.ltb_ge in Hc1.
  apply (proj1 (parseExpression_extend F) 0 0%nat (Z.le_refl 0)) in E1.
  assert (E2 : parseExpression (lp :: tokens ++ [rp]) F 0 1
               = Ok (t, S c1)).
  { rewrite (proj1 (parseExpression_cons lp (tokens ++ [rp]) F) 0 0%nat).
    rewrite E1. reflexivity. }
  assert (Hlen : List.length (lp :: tokens ++ [rp])
                 = S (S (List.length tokens)))
    by (simpl; rewrite length_full; reflexivity).
  exists (S c1 + 1)%nat. split; [| rewrite Hlen; lia].
  unfold parseParen. rewrite E2. cbn [rbind].
  destruct (S c1 <? List.length (lp :: tokens ++ [rp]))%nat eqn:Hlt;
    [| reflexivity].
  apply Nat.ltb_lt in Hlt. rewrite Hlen in Hlt.
  assert (c1 = List.length tokens) by lia. subst c1.
  rewrite tokens_get_cons, tokens_get_full_eq. simpl.
  rewrite rp_type. reflexivity.
Qed.

(** Parentheses around an input that parses: the same tree. *)
Lemma parse_wrapped (lp : Token H) (t : ASTNode H) :
  type lp = lparen ->
  parse tokens = Ok t -> parse (lp :: tokens ++ [rp]) = Ok t.
Proof.
  intros Hlp E.
  set (F := parse_fuel (lp :: tokens ++ [rp])).
  assert (HF : F = (2 * List.length tokens + 5)%nat)
    by (unfold F, parse_fuel; simpl; rewrite length_full; lia).
  destruct (@parseParen_wrapped lp lp t (S F)) as (c' & Ep & Hc');
    [unfold parse_fuel; lia | exact E |].
  rewrite (@parse_with_fuel _ (lp :: tokens ++ [rp]) (S (S F)))
    by (fold F; lia).
  rewrite parseExpression_S.
  change (List.length (lp :: tokens ++ [rp]) <=? 0)%nat with false.
  cbv iota.
  change (tokens_get (lp :: tokens ++ [rp]) 0) with (Ok lp).
  cbn [rbind]. rewrite Hlp. cbn [prefixFunctions].
  change (0 + 1)%nat with 1%nat. rewrite Ep. cbn [rbind].
  rewrite parseExpression_while_S.
  replace (c' <? List.length (lp :: tokens ++ [rp]))%nat with false
    by (symmetry; apply Nat.ltb_ge; exact Hc').
  cbn [rbind].
  replace (c' <? List.length (lp :: tokens ++ [rp]))%nat with false
    by (symmetry; apply Nat.ltb_ge; exact Hc').
  reflexivity.
Qed.

(** A function name before the group: the call of the function on the
    tree of [tokens]. *)
Lemma parse_function_call (fn lp : Token H) (name : string)
  (t : ASTNode H) :
  type fn = function -> tvalue fn = TStr name -> type lp = lparen ->
  parse tokens = Ok t ->
  parse (fn :: lp :: tokens ++ [rp]) = Ok (FunctionCall name t).
Proof.
  intros Hfn Hname Hlp E.
  set (L := lp :: tokens ++ [rp]).
  set (F := parse_fuel (fn :: L)).
  assert (HF : F = (2 * List.length tokens + 7)%nat)
    by (unfold F, L, parse_fuel; simpl; rewrite length_full; lia).
  destruct (@parseParen_wrapped lp fn t (S F)) as (c' & Ep & Hc');
    [unfold parse_fuel; lia | exact E |].
  fold L in Ep, Hc'.
  rewrite (@parse_with_fuel _ (fn :: L) (S (S F)))
    by (change (parse_fuel (fn :: L)) with F; lia).
  rewrite parseExpression_S.
  change (List.length (fn :: L) <=? 0)%nat with false. cbv iota.
  change (tokens_get (fn :: L) 0) with (Ok fn).
  cbn [rbind]. rewrite Hfn. cbn [prefixFunctions].
  unfold parseFunction. change (0 + 1)%nat with 1%nat.
  change (List.length (fn :: L) <=? 1)%nat with false. cbv iota.
  change (tokens_get (fn :: L) 1) with (Ok lp). cbn [rbind].
  rewrite Hlp. cbn [TokenType_eqb negb]. rewrite Hname.
  change (1 + 1)%nat with 2%nat.
  rewrite (@parseParen_shift _ fn L (parseExpression L (S F))
             (parseExpression (fn :: L) (S F)) fn 1%nat)
    by (apply (parseExpression_cons fn L (S F))).
  rewrite Ep. cbn [shift_res rbind].
  rewrite parseExpression_while_S.
  replace (S c' <? List.length (fn :: L))%nat with false
    by (symmetry; apply Nat.ltb_ge;
        change (List.length (fn :: L)) with (S (List.length L)); lia).
  cbn [rbind].
  replace (S c' <? List.length (fn :: L))%nat with false
    by (symmetry; apply Nat.ltb_ge;
        change (List.length (fn :: L)) with (S (List.length L)); lia).
  reflexivity.
Qed.

End ParserExtend.



Section SympyFacts.
Context {H : Host}.

Lemma to_sympy_expr_convertible (t : ASTNode H) :
  operators_valid t = true -> functions_known t = true ->
  exists e, to_sympy_expr t = Ok e.
Proof.
  induction t as [v | name | op t IH | l IHl op r IHr | fn p IH];
    simpl; intros Hv Hk.
  - eexists; reflexivity.
  - eexists; reflexivity.
  - apply andb_true_iff in Hv. destruct Hv as [-> Hv].
    destruct (IH Hv Hk) as (e & ->). eexists; reflexivity.
  - apply andb_true_iff in Hv. destruct Hv as [Hv Hr].
    apply andb_true_iff in Hv. destruct Hv as [Hop Hl].
    apply andb_true_iff in Hk. destruct Hk as [Hkl Hkr].
    destruct (IHl Hl Hkl) as (a & ->). destruct (IHr Hr Hkr) as (b & ->).
    destruct (String.eqb op "+"); [eexists; reflexivity |].
    destruct (String.eqb op "-"); [eexists; reflexivity |].
    destruct (String.eqb op "*"); [eexists; reflexivity |].
    destruct (String.eqb op "/"); [eexists; reflexivity |].
    destruct (String.eqb op "^"); [eexists; reflexivity |].
    discriminate Hop.
  - apply andb_true_iff in Hk. destruct Hk as [Hfn Hk].
    destruct (IH Hv Hk) as (a & ->). unfold known_function in Hfn.
    destruct (String.eqb fn "sqrt"); [eexists; reflexivity |].
    destruct (String.eqb fn "log10"); [eexists; reflexivity |].
    destruct (String.eqb fn "sin"); [eexists; reflexivity |].
    destruct (String.eqb fn "cos"); [eexists; reflexivity |].
    discriminate Hfn.
Qed.

Ltac sympy_inv E :=
  repeat
    match type of E with
    | rbind ?m _ = Ok _ =>
        let a := fresh "a" in
        let Ea := fresh "Ea" in
        apply rbind_Ok_inv in E; destruct E as (a & Ea & E)
    end.

Lemma to_sympy_expr_Ok_inv (t : ASTNode H) :
  forall e, to_sympy_expr t = Ok e ->
  operators_valid t = true /\ functions_known t = true.
Proof.
  induction t as [v | name | op t IH | l IHl op r IHr | fn p IH];
    simpl; intros e E.
  - split; reflexivity.
  - split; reflexivity.
  - destruct (String.eqb op "-"); [| discriminate E].
    apply rbind_Ok_inv in E. destruct E as (a & Ea & _).
    destruct (IH _ Ea) as [-> ->]. split; reflexivity.
  - assert (Hlr : (exists a, to_sympy_expr l = Ok a)
                  /\ (exists b, to_sympy_expr r = Ok b)
                  /\ (String.eqb op "+" || String.eqb op "-"
                      || String.eqb op "*" || String.eqb op "/"
                      || String.eqb op "^") = true).
    { destruct (String.eqb op "+");
        [| destruct (String.eqb op "-");
           [| destruct (String.eqb op "*");
              [| destruct (String.eqb op "/");
                 [| destruct (String.eqb op "^");
                    [| discriminate E]]]]];
        apply rbind_Ok_inv in E; destruct E as (a & Ea & E);
        apply rbind_Ok_inv in E; destruct E as (b & Eb & _);
        (split; [exists a; exact Ea |]);
        (split; [exists b; exact Eb | reflexivity]). }
    destruct Hlr as ((a & Ea) & (b & Eb) & ->).
    destruct (IHl _ Ea) as [-> ->]. destruct (IHr _ Eb) as [-> ->].
    split; reflexivity.
  - assert (Hp : (exists a, to_sympy_expr p = Ok a)
                 /\ known_function fn = true).
    { unfold known_function.
      destruct (String.eqb fn "sqrt");
        [| destruct (String.eqb fn "log10");
           [| destruct (String.eqb fn "sin");
              [| destruct (String.eqb fn "cos"); [| discriminate E]]]];
        apply rbind_Ok_inv in E; destruct E as (a & Ea & _);
        (split; [exists a; exact Ea | reflexivity]). }
    destruct Hp as ((a & Ea) & ->).
    destruct (IH _ Ea) as [-> ->]. split; reflexivity.
Qed.

Ltac sympy_raise E IH :=
  let Ex := fresh "Ex" in
  match type of E with
  | rbind (to_sympy_expr ?x) _ = Raise _ =>
      destruct (to_sympy_expr x) eqn:Ex; simpl in E;
      [ | inversion E; subst;
          first [ eapply IH; reflexivity | eapply IH; eassumption ]
        | discriminate E ]
  end.

(** What the conversion raises: the [ParserError] of an operator it does
    not know, or the [TypeError] of the call that was to build the
    [ParserError] of a function it does not know. *)
Lemma to_sympy_expr_raises (t : ASTNode H) :
  forall e, to_sympy_expr t = Raise e ->
  e = ParserError "Not a valid prefix operator"
  \/ e = ParserError "Not a valid infix operator"
  \/ e = not_a_valid_function_TypeError.
Proof.
  induction t as [v | name | op t IH | l IHl op r IHr | fn p IH];
    simpl; intros e E.
  - discriminate E.
  - discriminate E.
  - destruct (String.eqb op "-").
    + sympy_raise E IH. discriminate E.
    + inversion E. left. reflexivity.
  - repeat
      match type of E with
      | (if ?b then _ else _) = _ => destruct b
      end;
      try (sympy_raise E IHl; sympy_raise E IHr; discriminate E).
    inversion E. right. left. reflexivity.
  - repeat
      match type of E with
      | (if ?b then _ else _) = _ => destruct b
      end;
      try (sympy_raise E IH; discriminate E).
    inversion E. right. right. reflexivity.
Qed.

(** With valid operators, the conversion can only fail on a function. *)
Lemma to_sympy_expr_valid_raises (t : ASTNode H) :
  operators_valid t = true ->
  forall e, to_sympy_expr t = Raise e ->
  e = not_a_valid_function_TypeError.
Proof.
  induction t as [v | name | op t IH | l IHl op r IHr | fn p IH];
    simpl; intros Hv e E.
  - discriminate E.
  - discriminate E.
  - apply andb_true_iff in Hv. destruct Hv as [Hop Hv].
    rewrite Hop in E. specialize (IH Hv). sympy_raise E IH. discriminate E.
  - apply andb_true_iff in Hv. destruct Hv as [Hv Hr].
    apply andb_true_iff in Hv. destruct Hv as [Hop Hl].
    specialize (IHl Hl). specialize (IHr Hr).
    repeat
      match type of E with
      | (if ?b then _ else _) = _ => destruct b
      end;
      try (sympy_raise E IHl; sympy_raise E IHr; discriminate E).
    discriminate Hop.
  - specialize (IH Hv).
    repeat
      match type of E with
      | (if ?b then _ else _) = _ => destruct b
      end;
      try (sympy_raise E IH; discriminate E).
    inversion E. reflexivity.
Qed.

Lemma to_sympy_expr_total (t : ASTNode H) : to_sympy_expr t <> OutOfFuel.
Proof.
  induction t as [v | name | op t IH | l IHl op r IHr | fn p IH]; simpl.
  - discriminate.
  - discriminate.
  - destruct (String.eqb op "-"); [| discriminate].
    destruct (to_sympy_expr t); [discriminate | discriminate | contradiction].
  - repeat
      match goal with
      | |- (if ?b then _ else _) <> _ => destruct b
      end;
      try discriminate;
      (destruct (to_sympy_expr l); [| discriminate | contradiction]);
      (destruct (to_sympy_expr r); [| discriminate | contradiction]);
      discriminate.
  - repeat
      match goal with
      | |- (if ?b then _ else _) <> _ => destruct b
      end;
      try discriminate;
      (destruct (to_sympy_expr p); [| discriminate | contradiction]);
      discriminate.
Qed.

End SympyFacts.

(* ================================================================== *)
(** ** Evaluator: closed trees and integer arithmetic *)
(* ================================================================== *)
Section EvaluatorFacts.
Context {H : Host}.

Lemma evaluate_closed (t : ASTNode H) :
  mentions_variable t = false ->
  forall v1 v2, evaluate t v1 = evaluate t v2.
Proof.
  unfold evaluate.
  induction t as [v | name | op t IH | l IHl op r IHr | fn p IH];
    simpl; intros Hm v1 v2.
  - reflexivity.
  - discriminate Hm.
  - rewrite (IH Hm v1 v2). reflexivity.
  - apply orb_false_iff in Hm. destruct Hm as [Hl Hr].
    rewrite (IHl Hl v1 v2), (IHr Hr v1 v2). reflexivity.
  - rewrite (IH Hm v1 v2). reflexivity.
Qed.

Lemma lift_float_VFloat op (a b w : value H) :
  lift_float op a b = Ok w -> exists f, w = VFloat f.
Proof.
  unfold lift_float. intros E.
  apply rbind_Ok_inv in E. destruct E as (x & _ & E).
  apply rbind_Ok_inv in E. destruct E as (y & _ & E).
  inversion E. eexists; reflexivity.
Qed.

Lemma integer_value_sound (t : ASTNode H) (x : Z) :
  forall r, integer_value t x = Some r ->
  evaluate t (VInt x) = Ok (VInt r).
Proof.
  unfold evaluate.
  induction t as [v | name | op t IH | l IHl op r0 IHr | fn p IH];
    simpl; intros r E.
  - destruct v; inversion E; reflexivity.
  - inversion E; reflexivity.
  - destruct (String.eqb op "-").
    + destruct (integer_value t x) as [a |]; [| discriminate E].
      rewrite (IH a eq_refl). inversion E. reflexivity.
    + destruct (String.eqb op "+"); [apply IH; exact E | discriminate E].
  - destruct (integer_value l x) as [a |]; [| discriminate E].
    destruct (integer_value r0 x) as [b |]; [| discriminate E].
    rewrite (IHl a eq_refl), (IHr b eq_refl). cbn [rbind].
    destruct (String.eqb op "+"); [inversion E; reflexivity |].
    destruct (String.eqb op "-"); [inversion E; reflexivity |].
    destruct (String.eqb op "*"); [inversion E; reflexivity |].
    destruct (String.eqb op "/"); [discriminate E |].
    destruct (String.eqb op "^"); [| discriminate E].
    simpl. destruct (0 <=? b); inversion E; reflexivity.
  - discriminate E.
Qed.

Ltac float_result E :=
  solve [ apply lift_float_VFloat in E; destruct E as (? & E);
          discriminate E
        | repeat (apply rbind_Ok_inv in E; destruct E as (? & _ & E));
          discriminate E ].

Lemma integer_value_complete (t : ASTNode H) (x : Z) :
  forall r, evaluate t (VInt x) = Ok (VInt r) ->
  integer_value t x = Some r.
Proof.
  unfold evaluate.
  induction t as [v | name | op t IH | l IHl op r0 IHr | fn p IH];
    simpl; intros r E.
  - inversion E; reflexivity.
  - inversion E; reflexivity.
  - destruct (String.eqb op "-").
    + apply rbind_Ok_inv in E. destruct E as (a & Ea & E).
      destruct a as [z | f]; inversion E.
      rewrite (IH z Ea). simpl. reflexivity.
    + destruct (String.eqb op "+"); [apply IH; exact E | discriminate E].
  - destruct (String.eqb op "+") eqn:E1;
      [| destruct (String.eqb op "-") eqn:E2;
         [| destruct (String.eqb op "*") eqn:E3;
            [| destruct (String.eqb op "/") eqn:E4;
               [| destruct (String.eqb op "^") eqn:E5;
                  [| discriminate E]]]]];
      apply rbind_Ok_inv in E; destruct E as (a & Ea & E);
      apply rbind_Ok_inv in E; destruct E as (b & Eb & E).
    + destruct a as [u | fa], b as [w | fb]; simpl in E;
        try float_result E.
      inversion E. rewrite (IHl u Ea), (IHr w Eb). reflexivity.
    + destruct a as [u | fa], b as [w | fb]; simpl in E;
        try float_result E.
      inversion E. rewrite (IHl u Ea), (IHr w Eb). reflexivity.
    + destruct a as [u | fa], b as [w | fb]; simpl in E;
        try float_result E.
      inversion E. rewrite (IHl u Ea), (IHr w Eb). reflexivity.
    + exfalso. destruct (py_eq0 b); [discriminate E |].
      destruct a as [u | fa], b as [w | fb]; simpl in E; float_result E.
    + destruct a as [u | fa], b as [w | fb]; simpl in E;
        try float_result E.
      rewrite (IHl u Ea), (IHr w Eb).
      destruct (0 <=? w); [inversion E; reflexivity | float_result E].
  - exfalso.
    unfold py_math_sqrt, py_math_log10, py_math_sin, py_math_cos in E.
    repeat
      match type of E with
      | (if String.eqb ?a ?b then _ else _) = _ => destruct (String.eqb a b)
      end; try discriminate E;
      apply rbind_Ok_inv in E; destruct E as (a & _ & E);
      try (destruct (py_lt0 a); [discriminate E |]);
      try (destruct (py_le0 a); [discriminate E |]);
      try (destruct a);
      float_result E.
Qed.

End EvaluatorFacts.


(* ================================================================== *)
(** ** Sampler: arrays without duplicates, the call log *)
(* ================================================================== *)
Section UniqueFacts.
Local Open Scope list_scope.

Variable X : Type.
Variable leb : X -> X -> bool.

Local Abbreviation lt := (fun a b => x_lt leb a b = true).

Lemma unique_mask_id (l : list X) : forall prev,
  StronglySorted lt (prev :: l) -> unique_mask leb prev l = l.
Proof.
  induction l as [| a l IH]; intros prev Hs; [reflexivity |].
  inversion Hs as [| ? ? Hs' Hall]; subst.
  inversion Hall as [| ? ? Hpa _]; subst.
  assert (E : x_eq leb a prev = false).
  { unfold x_lt in Hpa. apply andb_true_iff in Hpa. destruct Hpa as [_ Hn].
    apply negb_true_iff in Hn. unfold x_eq. rewrite Hn. reflexivity. }
  simpl. rewrite E. simpl. f_equal. apply IH. exact Hs'.
Qed.

(** [np.unique] leaves a strictly ascending array as it is. *)
Lemma np_unique_id (l : list X) : StronglySorted lt l -> np_unique leb l = l.
Proof.
  intros Hs. unfold np_unique.
  rewrite (np_sort_id leb (lt_sorted_le leb Hs)).
  destruct l as [| a l]; [reflexivity |].
  f_equal. apply unique_mask_id. exact Hs.
Qed.

End UniqueFacts.

Section CallLogFacts.
Local Open Scope list_scope.
Variables X Y : Type.
Variable nan : Y.
Variable func : X -> result Y.

(** [safe_evaluate] calls [func] on the first point at least. *)
Lemma safe_evaluate_loop_log xs : forall y log,
  exists l,
    snd (safe_evaluate_loop nan func xs y log) = log ++ l
    /\ (xs <> [] -> l <> []).
Proof.
  induction xs as [| x xs IH]; intros y log.
  - exists []. split; [simpl; rewrite app_nil_r; reflexivity |].
    intros Hne. contradiction Hne. reflexivity.
  - simpl. destruct (func x) as [v | e |].
    + destruct (IH (y ++ [v]) (log ++ [x])) as (l & El & _).
      exists (x :: l). rewrite El, <- app_assoc.
      split; [reflexivity | discriminate].
    + destruct (is_EvaluatorError e).
      * destruct (IH (y ++ [nan]) (log ++ [x])) as (l & El & _).
        exists (x :: l). rewrite El, <- app_assoc.
        split; [reflexivity | discriminate].
      * exists [x]. split; [reflexivity | discriminate].
    + exists [x]. split; [reflexivity | discriminate].
Qed.

End CallLogFacts.

(* ================================================================== *)
(** ** The order of binary64 *)
(* ================================================================== *)

(** The comparison of the specification of floats: exchanging the
    arguments gives the opposite outcome; a float that is not NaN equals
    itself; [<=] is transitive. *)
Lemma SFcompare_antisym (a b : spec_float) :
  SFcompare b a = option_map CompOpp (SFcompare a b).
Proof.
  destruct a as [sa | sa | | sa ma ea], b as [sb | sb | | sb mb eb];
    simpl; try reflexivity;
    try (destruct sa; reflexivity); try (destruct sb; reflexivity);
    try (destruct sa, sb; reflexivity).
  destruct sa, sb; simpl; try reflexivity;
    rewrite (Z.compare_antisym ea eb);
    destruct (ea ?= eb); simpl; try reflexivity;
    change (PosDef.Pos.compare_cont Eq mb ma) with (Pos.compare mb ma);
    change (PosDef.Pos.compare_cont Eq ma mb) with (Pos.compare ma mb);
    rewrite (Pos.compare_antisym ma mb);
    destruct (Pos.compare ma mb); reflexivity.
Qed.

Lemma SFcompare_refl (a : spec_float) :
  a <> S754_nan -> SFcompare a a = Some Eq.
Proof.
  destruct a as [sa | sa | | sa ma ea]; simpl; intros Hn;
    try reflexivity; try contradiction; try (destruct sa; reflexivity).
  rewrite Z.compare_refl.
  change (PosDef.Pos.compare_cont Eq ma ma) with (Pos.compare ma ma).
  rewrite Pos.compare_refl. destruct sa; reflexivity.
Qed.

Lemma SFcompare_None (a b : spec_float) :
  SFcompare a b = None <-> a = S754_nan \/ b = S754_nan.
Proof.
  destruct a as [sa | sa | | sa ma ea], b as [sb | sb | | sb mb eb];
    simpl; split; intros E; try discriminate E; auto;
    destruct E as [E | E]; discriminate E.
Qed.

Lemma SFleb_trans (a b c : spec_float) :
  SFleb a b = true -> SFleb b c = true -> SFleb a c = true.
Proof.
  unfold SFleb.
  destruct a as [sa | sa | | sa ma ea], b as [sb | sb | | sb mb eb],
    c as [sc | sc | | sc mc ec]; simpl;
    try discriminate; try reflexivity;
    try (destruct sa; simpl; try discriminate; try reflexivity);
    try (destruct sb; simpl; try discriminate; try reflexivity);
    try (destruct sc; simpl; try discriminate; try reflexivity).
  all: change (PosDef.Pos.compare_cont Eq ?p ?q) with (Pos.compare p q).
  all: destruct (Z.compare_spec ea eb), (Z.compare_spec eb ec),
         (Z.compare_spec ea ec); simpl; try discriminate; try reflexivity;
       try lia; subst.
  all: try (destruct (Pos.compare_spec ma mb), (Pos.compare_spec mb mc),
         (Pos.compare_spec ma mc); simpl; try discriminate;
         try reflexivity; try lia; subst; try lia).
Qed.

(** NaN, in terms of the specification. *)
Lemma is_nan_Prim2SF (x : PrimFloat.float) :
  PrimFloat.is_nan x = true <-> Prim2SF x = S754_nan.
Proof.
  unfold PrimFloat.is_nan. rewrite FloatAxioms.eqb_spec. unfold SFeqb.
  destruct (SFcompare (Prim2SF x) (Prim2SF x)) as [c |] eqn:E.
  - assert (Hn : Prim2SF x <> S754_nan).
    { intros Hx. rewrite Hx in E. discriminate E. }
    rewrite (SFcompare_refl Hn) in E. inversion E; subst c. simpl.
    split; [discriminate | intros Hx; contradiction].
  - apply SFcompare_None in E. simpl. split; [intros _; tauto | reflexivity].
Qed.

Lemma is_nan_false_Prim2SF (x : PrimFloat.float) :
  PrimFloat.is_nan x = false <-> Prim2SF x <> S754_nan.
Proof.
  rewrite <- is_nan_Prim2SF.
  destruct (PrimFloat.is_nan x); split; congruence.
Qed.

Lemma float_leb_not_nan (a b : PrimFloat.float) :
  PrimFloat.leb a b = true ->
  PrimFloat.is_nan a = false /\ PrimFloat.is_nan b = false.
Proof.
  rewrite FloatAxioms.leb_spec. unfold SFleb. intros E.
  rewrite !is_nan_false_Prim2SF.
  split; intros Hn; rewrite Hn in E;
    [| destruct (Prim2SF a)]; discriminate E.
Qed.

(** The order of [np.sort] is total and transitive. *)
Lemma float_sort_leb_total (a b : PrimFloat.float) :
  float_sort_leb a b = true \/ float_sort_leb b a = true.
Proof.
  unfold float_sort_leb.
  destruct (PrimFloat.is_nan b) eqn:Hb; [left; apply orb_true_r |].
  destruct (PrimFloat.is_nan a) eqn:Ha; [right; apply orb_true_r |].
  rewrite !orb_false_r, !FloatAxioms.leb_spec. unfold SFleb.
  apply is_nan_false_Prim2SF in Ha, Hb.
  rewrite (SFcompare_antisym (Prim2SF a) (Prim2SF b)).
  destruct (SFcompare (Prim2SF a) (Prim2SF b)) as [[| |] |] eqn:E; simpl;
    auto.
  apply SFcompare_None in E. tauto.
Qed.

Lemma float_sort_leb_trans (a b c : PrimFloat.float) :
  float_sort_leb a b = true -> float_sort_leb b c = true ->
  float_sort_leb a c = true.
Proof.
  unfold float_sort_leb. intros Hab Hbc.
  destruct (PrimFloat.is_nan c) eqn:Hc; [apply orb_true_r |].
  rewrite orb_false_r in *.
  destruct (float_leb_not_nan Hbc) as [Hb _].
  rewrite Hb, orb_false_r in Hab.
  rewrite FloatAxioms.leb_spec in *. eapply SFleb_trans; eassumption.
Qed.

(** The equality of [np.unique] and the strict order of the sort, in
    terms of the comparisons of floats. *)
Lemma x_eq_float (a b : PrimFloat.float) :
  x_eq float_sort_leb a b = same_float a b.
Proof.
  unfold x_eq, same_float, float_sort_leb.
  destruct (PrimFloat.is_nan a) eqn:Ha, (PrimFloat.is_nan b) eqn:Hb;
    rewrite ?orb_true_r, ?orb_false_r, ?andb_true_r, ?andb_false_r;
    simpl.
  - reflexivity.
  - apply is_nan_Prim2SF in Ha.
    rewrite FloatAxioms.leb_spec, FloatAxioms.eqb_spec.
    unfold SFleb, SFeqb. rewrite Ha. reflexivity.
  - apply is_nan_Prim2SF in Hb.
    rewrite FloatAxioms.leb_spec, FloatAxioms.eqb_spec.
    unfold SFleb, SFeqb. rewrite Hb.
    destruct (Prim2SF a); reflexivity.
  - rewrite !FloatAxioms.leb_spec, FloatAxioms.eqb_spec.
    unfold SFleb, SFeqb.
    rewrite (SFcompare_antisym (Prim2SF a) (Prim2SF b)).
    destruct (SFcompare (Prim2SF a) (Prim2SF b)) as [[| |] |];
      reflexivity.
Qed.



Lemma occurs_float (m : PrimFloat.float) (x : list PrimFloat.float) :
  occurs float_sort_leb m x = float_in m x.
Proof.
  unfold occurs, float_in. induction x as [| e x IH]; simpl;
    [reflexivity |].
  rewrite x_eq_float, IH. reflexivity.
Qed.


(* ================================================================== *)
(** ** NaN never exceeds the tolerance *)
(* ================================================================== *)

Lemma float_gt_abs_diff_nan (a b tol : PrimFloat.float) :
  PrimFloat.is_nan a = true \/ PrimFloat.is_nan b = true ->
  float_gt (float_abs_diff a b) tol = false.
Proof.
  intros Hn. unfold float_gt, float_abs_diff.
  rewrite FloatAxioms.ltb_spec, FloatAxioms.abs_spec, FloatAxioms.sub_spec.
  unfold SFltb.
  assert (E : SF64sub (Prim2SF b) (Prim2SF a) = S754_nan).
  { destruct Hn as [Hn | Hn]; apply is_nan_Prim2SF in Hn; rewrite Hn;
      unfold SF64sub, SFsub; [destruct (Prim2SF b) |]; reflexivity. }
  rewrite E. simpl. destruct (Prim2SF tol); reflexivity.
Qed.

Lemma pair_exceeds_float_undefined func tol (a b : PrimFloat.float) :
  (exists m, func a = Raise (EvaluatorError m))
  \/ (exists m, func b = Raise (EvaluatorError m)) ->
  pair_exceeds_float func tol a b = false.
Proof.
  intros Hu. unfold pair_exceeds_float. apply float_gt_abs_diff_nan.
  unfold absorbed.
  destruct Hu as [(m & ->) | (m & ->)]; [left | right]; reflexivity.
Qed.

(* ================================================================== *)
(** ** [np.linspace] on binary64 *)
(* ================================================================== *)

Lemma removelast_length {A} (l : list A) :
  List.length (removelast l) = (List.length l - 1)%nat.
Proof.
  induction l as [| a [| b l] IH]; try reflexivity.
  change (removelast (a :: b :: l)) with (a :: removelast (b :: l)).
  cbn [List.length] in *. rewrite IH. lia.
Qed.

Lemma linspace_float_length (a b : PrimFloat.float) (n : nat) :
  List.length (linspace_float a b n) = n.
Proof.
  unfold linspace_float.
  assert (Hl : forall (f g h k : PrimFloat.float -> PrimFloat.float)
                      (c d : bool),
            List.length
              (map k (if c then
                        if d then map f (map float_of_nat (seq 0 n))
                        else map g (map float_of_nat (seq 0 n))
                      else map h (map float_of_nat (seq 0 n)))) = n).
  { intros f g h k c d. destruct c, d;
      rewrite !length_map, length_seq; reflexivity. }
  destruct (1 <? n)%nat eqn:E.
  - apply Nat.ltb_lt in E. rewrite length_app, removelast_length, Hl.
    simpl. lia.
  - apply Hl.
Qed.

(** With two points or more the last entry is [stop] itself. *)
Lemma linspace_float_last (a b : PrimFloat.float) (n : nat) :
  (2 <= n)%nat -> In b (linspace_float a b n).
Proof.
  intros Hn. unfold linspace_float.
  replace (1 <? n)%nat with true by (symmetry; apply Nat.ltb_lt; lia).
  apply in_or_app. right. left. reflexivity.
Qed.







(* ################################################################## *)
(** * Part IV: the properties *)
(* ################################################################## *)

(* ================================================================== *)
(** ** Parser and evaluator *)
(* ================================================================== *)

(** The program runs on the host whose only float is NaN: the ints are
    exact, a float result is that NaN. *)
Example evaluate_on_nan_host :
  (t <- @parse_expression nan_host "3+4*5" ;; evaluate t (VInt 0))
  = Ok (VInt 23)
  /\ (t <- @parse_expression nan_host "4^0.5" ;; evaluate t (VInt 0))
     = Ok (VFloat (tt : @float nan_host)).
Proof. split; reflexivity. Qed.

(** C3: a prefix minus parses its operand at base precedence.  In any
    prefix position the handler of [minus] wraps the result of
    [parseExpression] called with precedence 0.  For a token list that
    starts with the minus, [parse] yields [PrefixExpression("-", T)] with
    [T] the parse of all the remaining tokens (and fails as that parse
    fails); for a text that starts with ["-"], [parse_expression] yields
    it with [T] the parse of the tokens of the rest of the text (a
    lexical error of the rest is the same error one position further).
    ["-3+4"] parses to [-(3+4)] and evaluates to [-7] under every
    binding. *)
Theorem prefix_minus_base_precedence (H : Host) :
  (forall (tokens : list (Token H)) fuel c,
     option_map (fun h => h minus_token c)
       (prefixFunctions tokens (parseExpression tokens fuel) minus)
     = Some ('(T, c') <- parseExpression tokens fuel 0 c ;;
             Ok (PrefixExpression "-" T, c')))
  /\ (forall tokens : list (Token H),
        parse (minus_token :: tokens)
        = (T <- parse tokens ;; Ok (PrefixExpression "-" T)))
  /\ (forall text : string,
        parse_expression (String "-" text)
        = (tokens <- at_next (fun ts => ts) (@Lexer H text) ;;
           T <- parse tokens ;; Ok (PrefixExpression "-" T)))
  /\ parse_expression "-3+4"
     = Ok (PrefixExpression "-"
             (InfixExpression (NumberLiteral (VInt 3)) "+"
                (NumberLiteral (VInt 4))))
  /\ (forall v : value H,
        (t <- parse_expression "-3+4" ;; evaluate t v) = Ok (VInt (-7))).
Proof.
  split; [| split; [| split; [| split]]].
  - intros tokens fuel c. reflexivity.
  - intros tokens. apply parse_minus_cons.
  - intros text. apply parse_expression_minus.
  - reflexivity.
  - intros v. reflexivity.
Qed.

(** C4, as the code has it: a prefix minus takes the whole following
    expression, parsed at base precedence, as its operand, so it binds
    looser than every binary operator: [- a op b] is [-(a op b)] for each
    of [+ - * / ^], and ["-3+4"] is [-(3+4)], which evaluates to [-7]
    under every binding. *)
Theorem prefix_minus_binds_loosest (H : Host) :
  (forall (a b : value H),
     Forall
       (fun '(ty, op) =>
          parse [minus_token; number_token a; mkToken ty (TStr op);
                 number_token b]
          = Ok (PrefixExpression "-"
                  (InfixExpression (NumberLiteral a) op (NumberLiteral b))))
       binary_operators)
  /\ (forall v : value H,
        exists t,
          parse_expression "-3+4" = Ok t
          /\ t = PrefixExpression "-"
                   (InfixExpression (NumberLiteral (VInt 3)) "+"
                      (NumberLiteral (VInt 4)))
          /\ evaluate t v = Ok (VInt (-7))).
Proof.
  split.
  - intros a b. unfold binary_operators.
    repeat (constructor; [reflexivity |]). constructor.
  - intros v. eexists. split; [reflexivity |]. split; reflexivity.
Qed.

(** C4 as stated fails: under the binding [0], on every host,
    ["-3+4"] evaluates to [-7] and not to [1]. *)
Lemma prefix_minus_not_tightest :
  exists z : Z, forall (H : Host),
    (t <- parse_expression "-3+4" ;; evaluate t (VInt z)) = Ok (VInt (-7))
    /\ (t <- parse_expression "-3+4" ;; evaluate t (VInt z))
       <> Ok (VInt 1).
Proof.
  exists 0. intros H. split; [reflexivity |].
  intros E. vm_compute in E. discriminate E.
Qed.

(** C6: exponentiation is right-associative.  The handler of [exponent]
    reads its right operand with precedence [3 - 1]; three operands
    joined by [^] parse to [a ^ (b ^ c)]; ["2^3^2"] parses to [2^(3^2)]
    and evaluates to [512], not [64], under every binding. *)
Theorem exponent_right_associative (H : Host) :
  (forall (tokens : list (Token H)) fuel left c,
     parseInfixExpression (parseExpression tokens fuel) left
       (mkToken exponent (TStr "^")) c
     = ('(r, c') <- parseExpression tokens fuel (3 - 1) c ;;
        Ok (InfixExpression left "^" r, c')))
  /\ (forall a b c : value H,
        parse [number_token a; mkToken exponent (TStr "^"); number_token b;
               mkToken exponent (TStr "^"); number_token c]
        = Ok (InfixExpression (NumberLiteral a) "^"
                (InfixExpression (NumberLiteral b) "^" (NumberLiteral c))))
  /\ parse_expression "2^3^2"
     = Ok (InfixExpression (NumberLiteral (VInt 2)) "^"
             (InfixExpression (NumberLiteral (VInt 3)) "^"
                (NumberLiteral (VInt 2))))
  /\ (forall v : value H,
        (t <- parse_expression "2^3^2" ;; evaluate t v) = Ok (VInt 512)
        /\ (t <- parse_expression "2^3^2" ;; evaluate t v)
           <> Ok (VInt 64)).
Proof.
  split; [| split; [| split]].
  - intros tokens fuel left c. reflexivity.
  - intros a b c. reflexivity.
  - reflexivity.
  - intros v. split; [reflexivity |].
    intros E. vm_compute in E. discriminate E.
Qed.

(** C7: the domain errors of the evaluator.  A division whose divisor
    evaluates to [0] raises [EvaluatorError("Division by zero")] once its
    dividend has been evaluated (an exception of the dividend, evaluated
    first, comes first); a [sqrt] whose argument evaluates to a negative
    value and a [log10] whose argument evaluates to a value [<= 0] raise
    [EvaluatorError] with their messages; so do ["5/0"], ["sqrt(-1)"] and
    ["log10(0)"] under every binding. *)
Theorem evaluate_domain_errors (H : Host) (v : value H) :
  (forall l r b,
     evaluate r v = Ok b -> py_eq0 b = true ->
     evaluate (InfixExpression l "/" r) v
     = (_ <- evaluate l v ;; Raise (EvaluatorError "Division by zero")))
  /\ (forall l r a b,
        evaluate l v = Ok a -> evaluate r v = Ok b -> py_eq0 b = true ->
        evaluate (InfixExpression l "/" r) v
        = Raise (EvaluatorError "Division by zero"))
  /\ (forall p a,
        evaluate p v = Ok a -> py_lt0 a = true ->
        evaluate (FunctionCall "sqrt" p) v
        = Raise (EvaluatorError "Square root of negative number"))
  /\ (forall p a,
        evaluate p v = Ok a -> py_le0 a = true ->
        evaluate (FunctionCall "log10" p) v
        = Raise (EvaluatorError "Logarithm of non-positive number"))
  /\ (t <- parse_expression "5/0" ;; evaluate t v)
     = Raise (EvaluatorError "Division by zero")
  /\ (t <- parse_expression "sqrt(-1)" ;; evaluate t v)
     = Raise (EvaluatorError "Square root of negative number")
  /\ (t <- parse_expression "log10(0)" ;; evaluate t v)
     = Raise (EvaluatorError "Logarithm of non-positive number").
Proof.
  unfold evaluate.
  split; [| split; [| split; [| split; [| split; [| split]]]]];
    try reflexivity.
  - intros l r b Er Hb. simpl. rewrite Er.
    destruct (evaluate_expression v l) as [a | e |]; simpl;
      [rewrite Hb | |]; reflexivity.
  - intros l r a b El Er Hb. simpl. rewrite El, Er. simpl.
    rewrite Hb. reflexivity.
  - intros p a Ep Ha. simpl. rewrite Ep. simpl. rewrite Ha. reflexivity.
  - intros p a Ep Ha. simpl. rewrite Ep. simpl. rewrite Ha. reflexivity.
Qed.

(** The hypotheses of C7 hold at [5/0], [sqrt(-1)] and [log10(0)]. *)
Lemma evaluate_domain_errors_witness :
  exists z : Z, forall H : Host,
    evaluate (InfixExpression (NumberLiteral (VInt 5)) "/"
                (NumberLiteral (VInt 0))) (VInt z)
    = Raise (EvaluatorError "Division by zero")
    /\ evaluate (FunctionCall "sqrt"
                   (PrefixExpression "-" (NumberLiteral (VInt 1)))) (VInt z)
       = Raise (EvaluatorError "Square root of negative number")
    /\ evaluate (FunctionCall "log10" (NumberLiteral (VInt 0))) (VInt z)
       = Raise (EvaluatorError "Logarithm of non-positive number").
Proof.
  exists 0. intros H.
  destruct (@evaluate_domain_errors H (VInt 0))
    as (_ & Hdiv & Hsqrt & Hlog & _).
  split; [| split].
  - apply (Hdiv _ _ (VInt 5) (VInt 0)); reflexivity.
  - apply (Hsqrt _ (VInt (-1))); reflexivity.
  - apply (Hlog _ (VInt 0)); reflexivity.
Defined.

(** C8: a closing parenthesis missing at the end of the input is
    tolerated.  Whenever the token list with the closing [rparen] parses
    to a tree, the list without it parses, without an error, to the same
    tree; so for ["(3+4"] and ["2*(x+1"]. *)
Theorem missing_closing_paren_tolerated (H : Host) :
  (forall (tokens : list (Token H)) (rp : Token H) (t : ASTNode H),
     type rp = rparen ->
     parse (tokens ++ [rp]) = Ok t -> parse tokens = Ok t)
  /\ parse_expression "(3+4"
     = Ok (InfixExpression (NumberLiteral (VInt 3)) "+"
             (NumberLiteral (VInt 4)))
  /\ parse_expression "(3+4" = parse_expression "(3+4)"
  /\ parse_expression "2*(x+1"
     = Ok (InfixExpression (NumberLiteral (VInt 2)) "*"
             (InfixExpression (VariableNode "x") "+"
                (NumberLiteral (VInt 1))))
  /\ parse_expression "2*(x+1" = parse_expression "2*(x+1)".
Proof.
  split; [| repeat split; reflexivity].
  intros tokens rp t Hrp E. eapply parse_trunc; eassumption.
Qed.

(** The hypotheses of C8 hold at the tokens of ["(3+4"]. *)
Lemma missing_closing_paren_witness :
  exists z : Z, forall H : Host,
    parse [mkToken lparen (TStr "("); number_token (VInt z);
           mkToken plus (TStr "+"); number_token (VInt 4)]
    = Ok (InfixExpression (NumberLiteral (VInt z)) "+"
            (NumberLiteral (VInt 4))).
Proof.
  exists 3. intros H.
  apply (proj1 (missing_closing_paren_tolerated H)
           [mkToken lparen (TStr "("); number_token (VInt 3);
            mkToken plus (TStr "+"); number_token (VInt 4)]
           (mkToken rparen (TStr ")"))).
  - reflexivity.
  - reflexivity.
Defined.

(** C10: when the token after the sub-expression of a parenthesized group
    exists and is not [rparen], [parseParen] raises
    [ParserError("Expected right parenthesis")]; for a group that opens
    the input, so does [parse]; so do ["(3 4)"], ["(3."] and ["2*(3 4)"].
    The message is none of those the spec lists. *)
Theorem expected_right_parenthesis (H : Host) :
  (forall (tokens : list (Token H)) pE tok c node c1 t,
     pE 0 c = Ok (node, c1) ->
     nth_error tokens c1 = Some t ->
     TokenType_eqb (type t) rparen = false ->
     parseParen tokens pE tok c
     = Raise (ParserError "Expected right parenthesis"))
  /\ (forall (tok0 : Token H) rest fuel node c1 t,
        type tok0 = lparen ->
        parseExpression (tok0 :: rest) fuel 0 1 = Ok (node, c1) ->
        nth_error (tok0 :: rest) c1 = Some t ->
        TokenType_eqb (type t) rparen = false ->
        parse (tok0 :: rest)
        = Raise (ParserError "Expected right parenthesis"))
  /\ @parse_expression H "(3 4)"
     = Raise (ParserError "Expected right parenthesis")
  /\ @parse_expression H "(3."
     = Raise (ParserError "Expected right parenthesis")
  /\ @parse_expression H "2*(3 4)"
     = Raise (ParserError "Expected right parenthesis")
  /\ ~ spec_listed_parser_message "Expected right parenthesis".
Proof.
  assert (Hparen :
    forall (tokens : list (Token H)) pE tok c node c1 t,
      pE 0 c = Ok (node, c1) ->
      nth_error tokens c1 = Some t ->
      TokenType_eqb (type t) rparen = false ->
      parseParen tokens pE tok c
      = Raise (ParserError "Expected right parenthesis")).
  { intros tokens pE tok c node c1 t Epe Et Hty.
    unfold parseParen. rewrite Epe. simpl.
    assert (Hlt : (c1 < List.length tokens)%nat)
      by (apply nth_error_Some; congruence).
    apply Nat.ltb_lt in Hlt. rewrite Hlt.
    unfold tokens_get. rewrite Et. simpl. rewrite Hty. reflexivity. }
  split; [exact Hparen |].
  split; [| repeat split; try reflexivity].
  - intros tok0 rest fuel node c1 t Hty E Et Hne.
    unfold parse.
    replace (parse_fuel (tok0 :: rest))
      with (S (2 * List.length rest + 2))
      by (unfold parse_fuel; simpl; lia).
    rewrite parseExpression_S.
    change (List.length (tok0 :: rest) <=? 0)%nat with false. cbv iota.
    change (tokens_get (tok0 :: rest) 0) with (Ok tok0). cbn [rbind].
    rewrite Hty. cbn [prefixFunctions].
    rewrite (Hparen (tok0 :: rest) _ tok0 (0 + 1)%nat node c1 t);
      [reflexivity | | assumption | assumption].
    eapply parseExpression_fuel_agree; [exact E |].
    apply (parseExpression_enough_fuel (tok0 :: rest)). simpl. lia.
  - intros [(v & E) | [E | [E | E]]]; discriminate E.
Qed.

(** The hypotheses of C10 hold at the tokens of ["(3 4)"]. *)
Lemma expected_right_parenthesis_witness :
  exists z : Z, forall H : Host,
    parse [mkToken lparen (TStr "("); number_token (VInt z);
           number_token (VInt 4); mkToken rparen (TStr ")")]
    = Raise (ParserError "Expected right parenthesis").
Proof.
  exists 3. intros H.
  apply (proj1 (proj2 (expected_right_parenthesis H))
           (mkToken lparen (TStr "("))
           [number_token (VInt 3); number_token (VInt 4);
            mkToken rparen (TStr ")")]
           2%nat (NumberLiteral (VInt 3)) 2%nat (number_token (VInt 4)));
    reflexivity.
Defined.

(* ================================================================== *)
(** ** Symbolic conversion *)
(* ================================================================== *)

(** C2, what the code does: for a function name that is none of [sqrt],
    [log10], [sin], [cos], the conversion evaluates
    [ParserError("Not a valid function", -1)]; the class takes one
    argument, so the call raises [TypeError] and no [ParserError] is
    raised.  The evaluator raises [UnknownFunctionError] on the same
    tree. *)
Theorem to_sympy_expr_unknown_function (H : Host) (fn : string)
  (p : ASTNode H) :
  known_function fn = false ->
  to_sympy_expr (FunctionCall fn p)
  = Raise (TypeError
      "ParserError.__init__() takes 2 positional arguments but 3 were given")
  /\ (forall e, to_sympy_expr (FunctionCall fn p) = Raise e ->
                e <> ParserError "Not a valid function")
  /\ (forall v, evaluate (FunctionCall fn p) v
                = Raise (UnknownFunctionError fn)).
Proof.
  unfold known_function. intros Hk.
  apply orb_false_iff in Hk. destruct Hk as [Hk Hcos].
  apply orb_false_iff in Hk. destruct Hk as [Hk Hsin].
  apply orb_false_iff in Hk. destruct Hk as [Hsqrt Hlog].
  assert (E : to_sympy_expr (FunctionCall fn p)
              = Raise (TypeError
      "ParserError.__init__() takes 2 positional arguments but 3 were given")).
  { simpl. rewrite Hsqrt, Hlog, Hsin, Hcos. reflexivity. }
  split; [exact E |]. split.
  - intros e Ee. rewrite E in Ee. inversion Ee. discriminate.
  - intros v. unfold evaluate. simpl.
    rewrite Hsqrt, Hlog, Hsin, Hcos. reflexivity.
Qed.

(** The hypothesis of C2 holds at [foo(5)]. *)
Lemma to_sympy_expr_unknown_function_witness :
  exists z : Z, forall H : Host,
    to_sympy_expr (FunctionCall "foo" (NumberLiteral (VInt z)))
    = Raise (TypeError
        "ParserError.__init__() takes 2 positional arguments but 3 were given").
Proof.
  exists 5. intros H.
  apply (@to_sympy_expr_unknown_function H "foo" (NumberLiteral (VInt 5))).
  reflexivity.
Defined.

(* ================================================================== *)
(** ** Sampler *)
(* ================================================================== *)

Section SamplerProperties.
Local Open Scope list_scope.

Variable X : Type.
Variable leb : X -> X -> bool.
Variable x_zero x_neg100 x_pos100 : X.
Variable linspace : X -> X -> nat -> list X.
Variable Y : Type.
Variable nan : Y.
Variable absdiff : Y -> Y -> Y.
Variable gt : Y -> Y -> bool.

Local Abbreviation sampling :=
  (adaptive_sampling leb x_zero x_neg100 x_pos100 linspace nan absdiff gt).
Local Abbreviation grid0 :=
  (initial_grid leb x_zero x_neg100 x_pos100 linspace).
Local Abbreviation refine x0 y0 tol :=
  (np_sort leb
     (union1d leb x0
        (new_x_of x_zero linspace x0 (high_curvature_of absdiff gt y0 tol)))).

(** The steps of a call that returned. *)
Lemma adaptive_sampling_Ok_inv func x_min x_max num must tol x y log :
  sampling func x_min x_max num must tol = (Ok (x, y), log) ->
  exists x0 y0 log0,
    grid0 x_min x_max num must = Ok x0
    /\ safe_evaluate nan func x0 [] = (Ok y0, log0)
    /\ x = refine x0 y0 tol
    /\ safe_evaluate nan func x log0 = (Ok y, log).
Proof.
  unfold adaptive_sampling. intros E.
  destruct (initial_grid leb x_zero x_neg100 x_pos100 linspace
              x_min x_max num must) as [x0 | e |]; try discriminate E.
  destruct (safe_evaluate nan func x0 []) as [[y0 | e |] log0] eqn:E0;
    try discriminate E.
  match type of E with
  | context [safe_evaluate nan func ?x1 log0] =>
      destruct (safe_evaluate nan func x1 log0) as [[y1 | e |] log1] eqn:E1;
      try discriminate E
  end.
  inversion E; subst. exists x0, y0, log0. auto.
Qed.




Section Ordered.
Hypothesis leb_total : forall a b, leb a b = true \/ leb b a = true.
Hypothesis leb_trans :
  forall a b c, leb a b = true -> leb b c = true -> leb a c = true.


(** What a call that returned has done: [func] was called on the
    initial grid [x0] and then on the returned grid [x], and nowhere
    else; [x] has the values of [x0] and, for each consecutive pair of
    [x0] whose sampled values differ by more than the tolerance, the ten
    values of [linspace] over the pair, and no other value. *)
Lemma adaptive_sampling_refined func x_min x_max num must tol x y log :
  sampling func x_min x_max num must tol = (Ok (x, y), log) ->
  exists x0,
    grid0 x_min x_max num must = Ok x0
    /\ log = x0 ++ x
    /\ y = map (absorbed nan func) x
    /\ forallb (absorbable func) x0 = true
    /\ (forall e, In e x0 -> occurs leb e x = true)
    /\ (forall i e,
          (S i < List.length x0)%nat ->
          gt (absdiff (absorbed nan func (nth i x0 x_zero))
                (absorbed nan func (nth (S i) x0 x_zero))) tol = true ->
          In e (linspace (nth i x0 x_zero) (nth (S i) x0 x_zero) 10) ->
          occurs leb e x = true)
    /\ (forall e, In e x ->
          In e x0
          \/ exists i,
               (S i < List.length x0)%nat
               /\ gt (absdiff (absorbed nan func (nth i x0 x_zero))
                        (absorbed nan func (nth (S i) x0 x_zero))) tol
                  = true
               /\ In e (linspace (nth i x0 x_zero) (nth (S i) x0 x_zero)
                          10)).
Proof.
  intros E. apply adaptive_sampling_Ok_inv in E.
  destruct E as (x0 & y0 & log0 & E0 & Ey0 & Ex & Ey).
  exists x0. split; [exact E0 |].
  unfold safe_evaluate in Ey0, Ey.
  apply safe_evaluate_loop_Ok in Ey0. destruct Ey0 as (Hy0 & Hlog0 & Ha0).
  apply safe_evaluate_loop_Ok in Ey. destruct Ey as (Hy & Hlog & _).
  simpl in Hy0, Hlog0, Hy. subst y0 log0.
  split; [exact Hlog |]. split; [exact Hy |]. split; [exact Ha0 |].
  rewrite (np_sort_union1d leb leb_total leb_trans) in Ex.
  assert (Hhigh : forall i,
            In i (high_curvature_of absdiff gt
                    (map (absorbed nan func) x0) tol)
            <-> (S i < List.length x0)%nat
                /\ gt (absdiff (absorbed nan func (nth i x0 x_zero))
                         (absorbed nan func (nth (S i) x0 x_zero))) tol
                   = true).
  { intros i.
    rewrite (high_curvature_In absdiff gt _ tol (absorbed nan func x_zero)).
    rewrite length_map, !map_nth. reflexivity. }
  subst x. split; [| split].
  - intros e He. apply (np_unique_occurs leb leb_total leb_trans).
    apply in_or_app. left. exact He.
  - intros i e Hi Hg He.
    apply (np_unique_occurs leb leb_total leb_trans).
    apply in_or_app. right. unfold new_x_of. apply in_flat_map.
    exists i. split; [apply Hhigh; split; assumption |].
    rewrite Nat.add_1_r. exact He.
  - intros e He. apply np_unique_In in He. apply in_app_or in He.
    destruct He as [He | He]; [left; exact He | right].
    unfold new_x_of in He. apply in_flat_map in He.
    destruct He as (j & Hj & He). apply Hhigh in Hj.
    destruct Hj as [Hlt Hg]. exists j.
    split; [exact Hlt |]. split; [exact Hg |].
    rewrite Nat.add_1_r in He. exact He.
Qed.

End Ordered.


End SamplerProperties.



(* ================================================================== *)
(** ** Sampler on binary64 *)
(* ================================================================== *)




(** C9, as the code has it, on the floats of the program: the
    refinement makes one pass.  For a call that returns [(x, y)], with
    [x0] the initial grid: [func] was called on the values of [x0] and
    then once on each value of [x], and [y] is what those last calls
    gave; every value of [x0] is a value of [x]; for each consecutive
    pair of [x0] whose sampled values differ by more than the tolerance
    the ten values of [np.linspace(x0[i], x0[i+1], 10)], the last of
    which is [x0[i+1]] itself, are values of [x]; and [x] has no other
    value. *)
Theorem refinement_single_pass
  (func : PrimFloat.float -> result PrimFloat.float)
  (x_min x_max : PrimFloat.float) (num : Z)
  (must : list PrimFloat.float) (tol : PrimFloat.float)
  (x y log : list PrimFloat.float) :
  adaptive_sampling_float func x_min x_max num must tol
  = (Ok (x, y), log) ->
  exists x0 : list PrimFloat.float,
    initial_grid_float x_min x_max num must = Ok x0
    /\ log = (x0 ++ x)%list
    /\ y = map (absorbed PrimFloat.nan func) x
    /\ (forall e, In e x0 -> float_in e x = true)
    /\ (forall i,
          (S i < List.length x0)%nat ->
          pair_exceeds_float func tol (nth i x0 PrimFloat.zero)
            (nth (S i) x0 PrimFloat.zero) = true ->
          List.length
            (linspace_float (nth i x0 PrimFloat.zero)
               (nth (S i) x0 PrimFloat.zero) 10) = 10%nat
          /\ In (nth (S i) x0 PrimFloat.zero)
               (linspace_float (nth i x0 PrimFloat.zero)
                  (nth (S i) x0 PrimFloat.zero) 10)
          /\ forall e,
               In e (linspace_float (nth i x0 PrimFloat.zero)
                       (nth (S i) x0 PrimFloat.zero) 10) ->
               float_in e x = true)
    /\ (forall e, In e x ->
          In e x0
          \/ exists i,
               (S i < List.length x0)%nat
               /\ pair_exceeds_float func tol (nth i x0 PrimFloat.zero)
                    (nth (S i) x0 PrimFloat.zero) = true
               /\ In e (linspace_float (nth i x0 PrimFloat.zero)
                          (nth (S i) x0 PrimFloat.zero) 10)).
Proof.
  intros E. unfold adaptive_sampling_float in E.
  apply adaptive_sampling_refined in E;
    [| exact float_sort_leb_total | exact float_sort_leb_trans].
  destruct E as (x0 & E0 & Hlog & Hy & _ & Hin0 & Hlin & Hmem).
  exists x0. split; [exact E0 |]. split; [exact Hlog |].
  split; [exact Hy |]. split; [| split].
  - intros e He. rewrite <- occurs_float. apply Hin0. exact He.
  - intros i Hi Hp. split; [apply linspace_float_length |].
    split; [apply linspace_float_last; lia |].
    intros e He. rewrite <- occurs_float. eapply Hlin; eassumption.
  - exact Hmem.
Qed.

(** The hypothesis of C9 holds for the jump, sampled on three points. *)
Lemma refinement_single_pass_witness :
  exists x y log x0,
    adaptive_sampling_float step_at_50_float float_neg10
      float_pos10 2 [] default_tolerance_float = (Ok (x, y), log)
    /\ initial_grid_float float_neg10 float_pos10 2 [] = Ok x0
    /\ log = (x0 ++ x)%list.
Proof.
  assert (E : exists x y log,
            adaptive_sampling_float step_at_50_float float_neg10
              float_pos10 2 [] default_tolerance_float
            = (Ok (x, y), log))
    by (vm_compute; do 3 eexists; reflexivity).
  destruct E as (x & y & log & E).
  destruct (refinement_single_pass _ _ _ _ _ _ E) as (x0 & E0 & Hlog & _).
  exists x, y, log, x0. split; [exact E |]. split; assumption.
Defined.

(** C9 as stated fails: a flagged pair does not add ten values.  On
    the grid [-100, 0, 100] the pair [(0, 100)] of the jump at [50] is
    refined and the grid returned has eleven values, eight more; on the
    grid [-100, 0, 99.99999999999999, 100] the pair of the jump at [100]
    is two adjacent floats, the ten values of [np.linspace] over it are
    its two ends, and the grid returned is the initial grid. *)
Lemma refinement_adds_eight_or_none :
  (exists x y log,
     adaptive_sampling_float step_at_50_float float_neg10
       float_pos10 2 [] default_tolerance_float = (Ok (x, y), log)
     /\ initial_grid_float float_neg10 float_pos10 2 []
        = Ok [float_neg100; PrimFloat.zero; float_pos100]
     /\ pair_exceeds_float step_at_50_float default_tolerance_float
          PrimFloat.zero float_pos100 = true
     /\ pair_exceeds_float step_at_50_float default_tolerance_float
          float_neg100 PrimFloat.zero = false
     /\ List.length x = 11%nat)
  /\ (exists x y log,
        adaptive_sampling_float step_at_100_float float_neg10
          float_pos10 2 [float_below_100] default_tolerance_float
        = (Ok (x, y), log)
        /\ x = [float_neg100; PrimFloat.zero; float_below_100;
                float_pos100]
        /\ initial_grid_float float_neg10 float_pos10 2
             [float_below_100] = Ok x
        /\ pair_exceeds_float step_at_100_float default_tolerance_float
             float_below_100 float_pos100 = true).
Proof.
  split; vm_compute; do 3 eexists; repeat split; reflexivity.
Qed.

(* ================================================================== *)
(** ** Further properties: lexer *)
(* ================================================================== *)

(** X1: what the lexer raises.  A [LexerError] with one of two messages
    and a position of the text counted from 1, ["Multiple decimal points"]
    on a ["."] and ["Invalid character"] on a character that is no letter,
    digit or white space; or the [ValueError] of [int] or [float] on a
    number, and then the text has a digit that is not decimal (a
    superscript) or more than [int_max_str_digits] characters.  So on a
    text of at most that many characters whose digits are all decimal the
    lexer raises nothing but a located [LexerError].  The [ValueError]
    does occur: on the one character [chr(178)], and on 4301 times
    ["1"]. *)
Theorem lexer_errors_located (H : Host) :
  (forall (text variable_symbol : string) (e : exn),
     @Lexer_with H text variable_symbol = Raise e ->
     lexer_error_at text e \/ conversion_error_of text e)
  /\ (forall (text variable_symbol : string) (e : exn),
        @Lexer_with H text variable_symbol = Raise e ->
        (forall i, isdigit (text_at text i) = true ->
                   isdecimal (text_at text i) = true) ->
        Z.of_nat (String.length text) <= int_max_str_digits ->
        lexer_error_at text e)
  /\ (exists m, @Lexer H (str1 (ascii_of_nat 178)) = Raise (ValueError m))
  /\ (exists m, @Lexer H (repeat_char "1" 4301) = Raise (ValueError m)).
Proof.
  assert (Hr : forall (text variable_symbol : string) (e : exn),
            @Lexer_with H text variable_symbol = Raise e ->
            lexer_error_at text e \/ conversion_error_of text e)
    by (intros text variable_symbol e; unfold Lexer_with; apply lex_raises).
  split; [exact Hr |]. split; [| split].
  - intros text variable_symbol e E Hdec Hlen.
    destruct (Hr _ _ _ E) as [Hl | [_ [(i & _ & Hd & Hn) | Hlong]]].
    + exact Hl.
    + rewrite (Hdec i Hd) in Hn. discriminate Hn.
    + lia.
  - eexists. reflexivity.
  - eexists. vm_compute. reflexivity.
Qed.

(** The hypothesis of X1 holds at ["3x,"], as at ["3.4.2.23"]. *)
Lemma lexer_errors_located_witness :
  (lexer_error_at "3x," (LexerError "Invalid character" 3)
   \/ conversion_error_of "3x," (LexerError "Invalid character" 3))
  /\ lexer_error_at "3.4.2.23" (LexerError "Multiple decimal points" 4).
Proof.
  split.
  - apply (proj1 (lexer_errors_located nan_host) "3x," "x"). reflexivity.
  - apply (proj1 (proj2 (lexer_errors_located nan_host)) "3.4.2.23" "x").
    + reflexivity.
    + intros i. do 8 (destruct i as [| i]; [vm_compute; tauto |]).
      vm_compute. discriminate.
    + vm_compute. discriminate.
Defined.

(** X2: every token the lexer returns is well formed: a number token
    carries a number, a token of one character that character, a
    function token a name that is not empty, and a variable token the
    name ["x"], whatever the variable symbol the lexer was given. *)
Theorem lexer_tokens_well_formed (H : Host) (text variable_symbol : string)
  (tokens : list (Token H)) :
  Lexer_with text variable_symbol = Ok tokens ->
  forallb lexer_token tokens = true.
Proof. apply Lexer_with_tokens. Qed.

(** The hypothesis of X2 holds at ["2*sin(t)"] with the variable ["t"]. *)
Lemma lexer_tokens_well_formed_witness :
  forallb lexer_token
    [@number_token nan_host (VInt 2); asterisk_token;
     mkToken function (TStr "sin"); mkToken lparen (TStr "(");
     mkToken variable (TStr "x"); mkToken rparen (TStr ")")]
  = true.
Proof.
  apply (@lexer_tokens_well_formed nan_host "2*sin(t)" "t"). reflexivity.
Defined.

(** X3: white space in front of the text changes nothing but the
    positions: the tokens are those of the rest of the text, and a
    lexical error of the rest is the same error one position further;
    so for [parse_expression]. *)
Theorem leading_white_space_skipped (H : Host) (c : ascii) (text : string) :
  isspace c = true ->
  Lexer (String c text) = at_next (fun ts => ts) (@Lexer H text)
  /\ parse_expression (String c text)
     = (tokens <- at_next (fun ts => ts) (@Lexer H text) ;; parse tokens).
Proof.
  intros Hs. pose proof (@Lexer_space H c text Hs) as E.
  split; [exact E |]. unfold parse_expression. rewrite E. reflexivity.
Qed.

(** The hypothesis of X3 holds at [" x+1"]. *)
Lemma leading_white_space_skipped_witness :
  @Lexer nan_host " x+1" = at_next (fun ts => ts) (Lexer "x+1")
  /\ @parse_expression nan_host " x+1"
     = (tokens <- at_next (fun ts => ts) (Lexer "x+1") ;; parse tokens).
Proof.
  apply (@leading_white_space_skipped nan_host " " "x+1"). reflexivity.
Defined.

(** X4: a bare name.  A letter other than ["x"] followed by letters
    and digits lexes to one function token, the ["x"] inside a name
    being part of the name; with no parenthesis after it,
    [parse_expression] raises
    [ParserError("Expected left parenthesis")]: no name but ["x"] stands
    on its own. *)
Theorem bare_name_rejected (H : Host) (c : ascii) (s : string) :
  isalpha c = true -> c <> "x"%char -> all_alnum s = true ->
  Lexer (String c s) = Ok [mkToken function (TStr (String c s))]
  /\ @parse_expression H (String c s)
     = Raise (ParserError "Expected left parenthesis").
Proof.
  intros Hc Hx Ha. pose proof (@Lexer_name H c s Hc Hx Ha) as E.
  split; [exact E |]. unfold parse_expression. rewrite E. reflexivity.
Qed.

(** The hypotheses of X4 hold at ["exp"] and at ["pi"]. *)
Lemma bare_name_rejected_witness :
  @parse_expression nan_host "exp"
  = Raise (ParserError "Expected left parenthesis")
  /\ @parse_expression nan_host "pi"
     = Raise (ParserError "Expected left parenthesis").
Proof.
  split.
  - apply (@bare_name_rejected nan_host "e" "xp");
      [reflexivity | discriminate | reflexivity].
  - apply (@bare_name_rejected nan_host "p" "i");
      [reflexivity | discriminate | reflexivity].
Defined.

(** X5: an empty or blank input.  A text of white space only, the
    empty text among them, lexes to no token, and [parse_expression]
    raises [ParserError("Nothing to parse at the end of the input")]. *)
Theorem blank_input_rejected (H : Host) (s : string) :
  all_space s = true ->
  @Lexer H s = Ok []
  /\ @parse_expression H s
     = Raise (ParserError "Nothing to parse at the end of the input").
Proof.
  intros Hs. pose proof (@Lexer_blank H s Hs) as E.
  split; [exact E |]. unfold parse_expression. rewrite E. reflexivity.
Qed.

(** The hypothesis of X5 holds at the empty text and at two spaces. *)
Lemma blank_input_rejected_witness :
  @parse_expression nan_host EmptyString
  = Raise (ParserError "Nothing to parse at the end of the input")
  /\ @parse_expression nan_host "  "
     = Raise (ParserError "Nothing to parse at the end of the input").
Proof.
  split.
  - apply (@blank_input_rejected nan_host EmptyString). reflexivity.
  - apply (@blank_input_rejected nan_host "  "). reflexivity.
Defined.

(* ================================================================== *)
(** ** Further properties: printing and parsing back *)
(* ================================================================== *)

(** X6: [__repr__] and [parse_expression] on integer literals of at most
    [int_max_str_digits] digits.  The text of a literal that is not
    negative parses back to the literal; a negative literal prints with
    its sign and parses to the prefix minus of its absolute value, which
    evaluates to the literal.  Past that many digits [__repr__] raises
    [ValueError].  The text of a tree carries no parentheses: the two
    groupings of three operands print the same, or raise the same. *)
Theorem repr_parse_integer_literal (H : Host) :
  (forall n : N,
     digit_count (Z.of_N n) <= int_max_str_digits ->
     (s <- ASTNode_repr (NumberLiteral (VInt (Z.of_N n))) ;;
      parse_expression s)
     = Ok (@NumberLiteral H (VInt (Z.of_N n))))
  /\ (forall p : positive,
        digit_count (Z.neg p) <= int_max_str_digits ->
        (s <- ASTNode_repr (NumberLiteral (VInt (Z.neg p))) ;;
         parse_expression s)
        = Ok (PrefixExpression "-" (@NumberLiteral H (VInt (Z.pos p)))))
  /\ (forall (z : Z) (v : value H),
        digit_count z <= int_max_str_digits ->
        (s <- ASTNode_repr (NumberLiteral (VInt z)) ;;
         t <- parse_expression s ;; evaluate t v) = Ok (VInt z))
  /\ (forall z : Z,
        int_max_str_digits < digit_count z ->
        exists m,
          ASTNode_repr (@NumberLiteral H (VInt z)) = Raise (ValueError m))
  /\ (forall (a b c : ASTNode H) (op1 op2 : string),
        ASTNode_repr (InfixExpression (InfixExpression a op1 b) op2 c)
        = ASTNode_repr (InfixExpression a op1 (InfixExpression b op2 c))).
Proof.
  assert (Hstr : forall z : Z,
            digit_count z <= int_max_str_digits ->
            ASTNode_repr (@NumberLiteral H (VInt z)) = Ok (str_of_Z z)).
  { intros z Hz. cbn [ASTNode_repr value_str]. unfold py_str_int.
    destruct (int_max_str_digits <? digit_count z) eqn:E;
      [apply Z.ltb_lt in E; lia | reflexivity]. }
  assert (Hnat : forall n : N,
            digit_count (Z.of_N n) <= int_max_str_digits ->
            parse_expression (str_of_N n)
            = Ok (@NumberLiteral H (VInt (Z.of_N n)))).
  { intros n Hn. destruct (str_of_N_digits n) as (Ev & Ed & Hne).
    unfold digit_count in Hn. rewrite Zabs2N.id in Hn.
    unfold parse_expression. rewrite (Lexer_digits Ed Hne Hn), Ev.
    reflexivity. }
  assert (Hpos : forall n : N, str_of_Z (Z.of_N n) = str_of_N n).
  { intros n. unfold str_of_Z.
    destruct (Z.of_N n <? 0) eqn:E; [apply Z.ltb_lt in E; lia |].
    rewrite N2Z.id. reflexivity. }
  assert (Hneg : forall p : positive,
            digit_count (Z.neg p) <= int_max_str_digits ->
            parse_expression (str_of_Z (Z.neg p))
            = Ok (PrefixExpression "-"
                    (@NumberLiteral H (VInt (Z.pos p))))).
  { intros p Hp. unfold str_of_Z.
    change (Z.neg p <? 0) with true. cbv iota.
    change (- Z.neg p) with (Z.pos p).
    change ("-" ++ str_of_N (Z.to_N (Z.pos p)))
      with (String "-" (str_of_N (Z.to_N (Z.pos p)))).
    rewrite parse_expression_minus.
    destruct (str_of_N_digits (Z.to_N (Z.pos p))) as (Ev & Ed & Hne).
    rewrite (Lexer_digits Ed Hne Hp), Ev. reflexivity. }
  split; [| split; [| split; [| split]]].
  - intros n Hn. rewrite (Hstr _ Hn). cbn [rbind]. rewrite Hpos.
    apply Hnat. exact Hn.
  - intros p Hp. rewrite (Hstr _ Hp). cbn [rbind]. apply Hneg. exact Hp.
  - intros z v Hz. rewrite (Hstr _ Hz). cbn [rbind].
    destruct z as [| p | p].
    + reflexivity.
    + change (Z.pos p) with (Z.of_N (N.pos p)) in *.
      rewrite Hpos, (Hnat _ Hz). reflexivity.
    + rewrite (Hneg _ Hz). reflexivity.
  - intros z Hz. cbn [ASTNode_repr value_str]. unfold py_str_int.
    apply Z.ltb_lt in Hz. rewrite Hz. eexists. reflexivity.
  - intros a b c op1 op2. cbn [ASTNode_repr].
    destruct (ASTNode_repr a) as [sa | ea |]; cbn [rbind];
      try reflexivity.
    destruct (ASTNode_repr b) as [sb | eb |]; cbn [rbind];
      try reflexivity.
    destruct (ASTNode_repr c) as [sc | ec |]; cbn [rbind];
      try reflexivity.
    rewrite !append_assoc. reflexivity.
Qed.

(** The hypotheses of X6 hold at [42] and at [-7]. *)
Lemma repr_parse_integer_literal_witness :
  (s <- ASTNode_repr (@NumberLiteral nan_host (VInt 42)) ;;
   parse_expression s)
  = Ok (@NumberLiteral nan_host (VInt 42))
  /\ (s <- ASTNode_repr (@NumberLiteral nan_host (VInt (-7))) ;;
      parse_expression s)
     = Ok (PrefixExpression "-" (@NumberLiteral nan_host (VInt 7))).
Proof.
  split.
  - apply (proj1 (repr_parse_integer_literal nan_host) 42%N).
    vm_compute. discriminate.
  - apply (proj1 (proj2 (repr_parse_integer_literal nan_host)) 7%positive).
    vm_compute. discriminate.
Defined.

(* ================================================================== *)
(** ** Further properties: parser *)
(* ================================================================== *)

(** X7: a prefix plus is dropped.  The handler of [plus] in prefix
    position is [lambda _: self.parseExpression()]: a token list that
    starts with a plus parses as the list without it, to the same tree or
    the same error, and a text that starts with ["+"] as the rest of the
    text (a lexical error of the rest is one position further). *)
Theorem prefix_plus_dropped (H : Host) :
  (forall (v : token_value H) (tokens : list (Token H)),
     parse (mkToken plus v :: tokens) = parse tokens)
  /\ (forall text : string,
        parse_expression (String "+" text)
        = (tokens <- at_next (fun ts => ts) (@Lexer H text) ;;
           parse tokens)).
Proof.
  split; [apply parse_plus_cons |].
  intros text. unfold parse_expression. rewrite Lexer_plus.
  destruct (Lexer text) as [tokens | e |]; simpl; try reflexivity.
  apply parse_plus_cons.
Qed.

(** X8: what [parse_expression] raises.  On tokens as the lexer builds
    them, [parse] raises nothing but [ParserError], with one of five
    messages; never [TypeError], [KeyError] or [IndexError].  So
    [parse_expression] raises a located [LexerError], the [ValueError]
    of [int] or [float] on a number (the text then has a digit that is
    not decimal or more than [int_max_str_digits] characters), or such
    a [ParserError]. *)
Theorem parse_expression_raises (H : Host) :
  (forall (tokens : list (Token H)) (e : exn),
     forallb lexer_token tokens = true ->
     parse tokens = Raise e ->
     exists m, e = ParserError m /\ parser_message m)
  /\ (forall (text : string) (e : exn),
        @parse_expression H text = Raise e ->
        lexer_error_at text e
        \/ conversion_error_of text e
        \/ exists m, e = ParserError m /\ parser_message m).
Proof.
  assert (Htok : forall (tokens : list (Token H)) (e : exn),
            forallb lexer_token tokens = true ->
            parse tokens = Raise e ->
            exists m, e = ParserError m /\ parser_message m).
  { intros tokens e Hw E. pose proof (parse_good tokens Hw) as Hg.
    rewrite E in Hg. exact Hg. }
  split; [exact Htok |].
  intros text e E. unfold parse_expression, Lexer in E.
  destruct (Lexer_with text "x") as [tokens | e' |] eqn:El; simpl in E.
  - right. right. apply (Htok tokens e); [| exact E].
    eapply Lexer_with_tokens; exact El.
  - inversion E; subst e'. unfold Lexer_with in El.
    apply lex_raises in El. tauto.
  - discriminate E.
Qed.

(** The hypotheses of X8 hold at ["5 +"] and at ["3 $"]. *)
Lemma parse_expression_raises_witness :
  (exists m,
     ParserError "Nothing to parse at the end of the input" = ParserError m
     /\ parser_message m)
  /\ (lexer_error_at "3 $" (LexerError "Invalid character" 3)
      \/ conversion_error_of "3 $" (LexerError "Invalid character" 3)
      \/ exists m,
           LexerError "Invalid character" 3 = ParserError m
           /\ parser_message m).
Proof.
  split.
  - apply (proj1 (parse_expression_raises nan_host)
             [number_token (VInt 5); plus_token]); reflexivity.
  - apply (proj2 (parse_expression_raises nan_host) "3 $"). reflexivity.
Defined.

(** X9: a tree that [parse_expression] returns has only operators the
    evaluator and the symbolic conversion know (prefix [-]; infix
    [+ - * / ^]).  So its conversion [to_sympy_expr] returns when every
    function called in it is one of [sqrt], [log10], [sin], [cos], and
    otherwise raises the [TypeError] of the ill-formed call of
    [ParserError]; it never raises a [ParserError]. *)
Theorem parsed_tree_converts (H : Host) (text : string) (t : ASTNode H) :
  parse_expression text = Ok t ->
  operators_valid t = true
  /\ (functions_known t = true -> exists e, to_sympy_expr t = Ok e)
  /\ (functions_known t = false ->
      to_sympy_expr t = Raise not_a_valid_function_TypeError)
  /\ (forall m, to_sympy_expr t <> Raise (ParserError m)).
Proof.
  intros E. unfold parse_expression, Lexer in E.
  apply rbind_Ok_inv in E. destruct E as (tokens & El & E).
  pose proof (parse_good tokens (Lexer_with_tokens _ _ El)) as Hg.
  rewrite E in Hg.
  split; [exact Hg |]. split; [| split].
  - intros Hk. apply to_sympy_expr_convertible; assumption.
  - intros Hk. destruct (to_sympy_expr t) as [e | e |] eqn:Es.
    + apply to_sympy_expr_Ok_inv in Es. destruct Es as [_ Es].
      congruence.
    + rewrite (to_sympy_expr_valid_raises _ Hg Es). reflexivity.
    + exfalso. revert Es. apply to_sympy_expr_total.
  - intros m Es. apply (to_sympy_expr_valid_raises _ Hg) in Es.
    discriminate Es.
Qed.

(** The hypothesis of X9 holds at ["2sqrt(x)"] and at ["foo(x)"]. *)
Lemma parsed_tree_converts_witness :
  (exists e,
     to_sympy_expr
       (InfixExpression (@NumberLiteral nan_host (VInt 2)) "*"
          (FunctionCall "sqrt" (VariableNode "x"))) = Ok e)
  /\ to_sympy_expr (FunctionCall "foo" (@VariableNode nan_host "x"))
     = Raise not_a_valid_function_TypeError.
Proof.
  split.
  - apply (@parsed_tree_converts nan_host "2sqrt(x)"); reflexivity.
  - apply (@parsed_tree_converts nan_host "foo(x)"); reflexivity.
Defined.

(** X10: implicit multiplication after a first operand.  When the token
    list starts with a number or a variable and the next token is a
    variable, a function name or an opening parenthesis, [parse] gives
    what it gives with an [asterisk] token between the two: the same
    tree, or the same error. *)
Theorem implicit_multiplication_is_asterisk (H : Host) (tok0 t1 : Token H)
  (rest : list (Token H)) :
  atom_token tok0 = true ->
  TokenType_in (type t1) implicitMultiplications = true ->
  parse (tok0 :: t1 :: rest) = parse (tok0 :: asterisk_token :: t1 :: rest).
Proof. apply parse_implicit_multiplication. Qed.

(** The hypotheses of X10 hold at the tokens of ["2x^2"]. *)
Lemma implicit_multiplication_is_asterisk_witness :
  parse [@number_token nan_host (VInt 2); mkToken variable (TStr "x");
         mkToken exponent (TStr "^"); number_token (VInt 2)]
  = parse [number_token (VInt 2); asterisk_token;
           mkToken variable (TStr "x"); mkToken exponent (TStr "^");
           number_token (VInt 2)].
Proof.
  apply (@implicit_multiplication_is_asterisk nan_host
           (number_token (VInt 2)) (mkToken variable (TStr "x"))
           [mkToken exponent (TStr "^"); number_token (VInt 2)]);
    reflexivity.
Defined.

(** X11: how two binary operators group.  For number operands [a], [b],
    [c] and any two of the operators [+ - * / ^], the tokens of
    [a op1 b op2 c] parse to [a op1 (b op2 c)] when the precedence of
    [op2] exceeds the precedence the right operand of [op1] is read with
    (its own; one less for [^]), and to [(a op1 b) op2 c] otherwise: a
    higher precedence binds tighter, operators of equal precedence group
    to the left, [^] to the right. *)
Theorem binary_operators_grouping (H : Host) (a b c : value H) :
  Forall
    (fun '(ty1, op1) =>
       Forall
         (fun '(ty2, op2) =>
            parse [number_token a; mkToken ty1 (TStr op1); number_token b;
                   mkToken ty2 (TStr op2); number_token c]
            = Ok (if right_operand_precedence ty1 <? operator_precedence ty2
                  then InfixExpression (NumberLiteral a) op1
                         (InfixExpression (NumberLiteral b) op2
                            (NumberLiteral c))
                  else InfixExpression
                         (InfixExpression (NumberLiteral a) op1
                            (NumberLiteral b)) op2 (NumberLiteral c)))
         binary_operators)
    binary_operators.
Proof.
  unfold binary_operators.
  repeat (constructor;
          [repeat (constructor; [reflexivity |]); constructor |]).
  constructor.
Qed.

(** X12: the parser has no use for a [dot] token.  The lexer makes a
    [dot] token of a ["."] that is not inside a number, and the parser
    registers no handler for it: a token list with a [dot] token never
    parses, and a text whose tokens include one makes
    [parse_expression] raise a [ParserError]. *)
Theorem dot_token_never_parses (H : Host) :
  (forall (tokens : list (Token H)) (t : ASTNode H),
     parse tokens = Ok t ->
     forallb (fun tok => negb (TokenType_eqb (type tok) dot)) tokens = true)
  /\ (forall (text : string) (tokens : list (Token H)),
        Lexer text = Ok tokens ->
        existsb (fun tok => TokenType_eqb (type tok) dot) tokens = true ->
        exists m,
          parse_expression text = Raise (ParserError m)
          /\ parser_message m).
Proof.
  assert (Hdot : forall (tokens : list (Token H)) (t : ASTNode H),
            parse tokens = Ok t ->
            forallb (fun tok => negb (TokenType_eqb (type tok) dot)) tokens
            = true).
  { intros tokens t E. apply forallb_forall. intros tok Hin.
    pose proof (@parse_no_dot _ _ _ _ E Hin) as Hne.
    destruct (type tok); try reflexivity. contradiction Hne. reflexivity. }
  split; [exact Hdot |].
  intros text tokens El Hex. unfold parse_expression. rewrite El.
  cbn [rbind].
  pose proof (parse_good tokens (Lexer_with_tokens _ _ El)) as Hg.
  destruct (parse tokens) as [t | e |] eqn:Ep.
  - exfalso. apply Hdot in Ep.
    apply existsb_exists in Hex. destruct Hex as (tok & Hin & Hty).
    apply (proj1 (forallb_forall _ _) Ep) in Hin.
    rewrite Hty in Hin. discriminate Hin.
  - destruct Hg as (m & -> & Hm). exists m. split; [reflexivity | exact Hm].
  - contradiction.
Qed.

(** The hypotheses of X12 hold at the tokens of ["3+4"], and at ["3."]
    and [".5"]. *)
Lemma dot_token_never_parses_witness :
  forallb (fun tok => negb (TokenType_eqb (type tok) dot))
    [@number_token nan_host (VInt 3); plus_token; number_token (VInt 4)]
  = true
  /\ (exists m,
        @parse_expression nan_host "3." = Raise (ParserError m)
        /\ parser_message m)
  /\ (exists m,
        @parse_expression nan_host ".5" = Raise (ParserError m)
        /\ parser_message m).
Proof.
  split; [| split].
  - apply (proj1 (dot_token_never_parses nan_host)
             [number_token (VInt 3); plus_token; number_token (VInt 4)]
             (InfixExpression (NumberLiteral (VInt 3)) "+"
                (NumberLiteral (VInt 4)))).
    reflexivity.
  - apply (proj2 (dot_token_never_parses nan_host) "3."
             [number_token (VInt 3); mkToken dot (TStr ".")]);
      reflexivity.
  - apply (proj2 (dot_token_never_parses nan_host) ".5"
             [mkToken dot (TStr "."); number_token (VInt 5)]);
      reflexivity.
Defined.

(** X13: parentheses around a whole input.  When a token list parses to
    a tree, the list between an opening and a closing parenthesis parses
    to the same tree: a parenthesized group is no node of its own. *)
Theorem parenthesized_input_same_tree (H : Host) (tokens : list (Token H))
  (lp rp : Token H) (t : ASTNode H) :
  type lp = lparen -> type rp = rparen ->
  parse tokens = Ok t ->
  parse (lp :: tokens ++ [rp]) = Ok t.
Proof. intros Hlp Hrp E. apply parse_wrapped; assumption. Qed.

(** The hypotheses of X13 hold at the tokens of ["2x"]. *)
Lemma parenthesized_input_same_tree_witness :
  parse [mkToken lparen (TStr "("); @number_token nan_host (VInt 2);
         mkToken variable (TStr "x"); mkToken rparen (TStr ")")]
  = Ok (InfixExpression (NumberLiteral (VInt 2)) "*" (VariableNode "x")).
Proof.
  apply (@parenthesized_input_same_tree nan_host
           [number_token (VInt 2); mkToken variable (TStr "x")]
           (mkToken lparen (TStr "(")) (mkToken rparen (TStr ")")));
    reflexivity.
Defined.

(** X14: a function call.  When a token list parses to a tree [T], a
    function name followed by the list between parentheses parses to the
    call of the function on [T]. *)
Theorem function_call_parses_argument (H : Host) (tokens : list (Token H))
  (fn lp rp : Token H) (name : string) (T : ASTNode H) :
  type fn = function -> tvalue fn = TStr name ->
  type lp = lparen -> type rp = rparen ->
  parse tokens = Ok T ->
  parse (fn :: lp :: tokens ++ [rp]) = Ok (FunctionCall name T).
Proof.
  intros Hfn Hname Hlp Hrp E. apply parse_function_call; assumption.
Qed.

(** The hypotheses of X14 hold at the tokens of ["sqrt(x+1)"]. *)
Lemma function_call_parses_argument_witness :
  parse [mkToken function (TStr "sqrt"); mkToken lparen (TStr "(");
         mkToken variable (TStr "x"); plus_token;
         @number_token nan_host (VInt 1); mkToken rparen (TStr ")")]
  = Ok (FunctionCall "sqrt"
          (InfixExpression (VariableNode "x") "+" (NumberLiteral (VInt 1)))).
Proof.
  apply (@function_call_parses_argument nan_host
           [mkToken variable (TStr "x"); plus_token; number_token (VInt 1)]
           (mkToken function (TStr "sqrt")) (mkToken lparen (TStr "("))
           (mkToken rparen (TStr ")")) "sqrt");
    reflexivity.
Defined.

(* ================================================================== *)
(** ** Further properties: evaluator *)
(* ================================================================== *)

(** X15: a tree with no [Variable] node evaluates to the same result,
    value or exception, under every binding of the variable. *)
Theorem evaluate_closed_tree (H : Host) (t : ASTNode H) :
  mentions_variable t = false ->
  forall v1 v2 : value H, evaluate t v1 = evaluate t v2.
Proof. apply evaluate_closed. Qed.

(** The hypothesis of X15 holds at the tree of ["sqrt(16)/0"]. *)
Lemma evaluate_closed_tree_witness :
  evaluate
    (InfixExpression (FunctionCall "sqrt" (NumberLiteral (VInt 16))) "/"
       (NumberLiteral (VInt 0))) (@VInt nan_host 1)
  = evaluate
      (InfixExpression (FunctionCall "sqrt" (NumberLiteral (VInt 16))) "/"
         (NumberLiteral (VInt 0))) (@VInt nan_host 2).
Proof.
  apply (@evaluate_closed_tree nan_host). reflexivity.
Defined.

(** X16: where the evaluator computes in the integers.  Under an integer
    binding, the evaluator returns an [int] exactly on the trees built
    from [int] literals, the variable, prefix [-] and [+], infix [+],
    [-], [*], and [^] with an exponent that is not negative; the [int]
    is the exact value of the integer arithmetic, on every host.  A
    division, a function call or a negative exponent never gives an
    [int]. *)
Theorem evaluate_integer_exact (H : Host) (t : ASTNode H) (x r : Z) :
  evaluate t (VInt x) = Ok (VInt r) <-> integer_value t x = Some r.
Proof.
  split; [apply integer_value_complete | apply integer_value_sound].
Qed.

(** Both directions of X16 at the tree of ["x^2-1"] under the binding
    [3], and at the tree of ["4/2"], which gives no [int]. *)
Lemma evaluate_integer_exact_witness :
  evaluate
    (InfixExpression
       (InfixExpression (VariableNode "x") "^" (NumberLiteral (VInt 2)))
       "-" (NumberLiteral (VInt 1))) (@VInt nan_host 3)
  = Ok (VInt 8)
  /\ (forall r : Z,
        evaluate
          (InfixExpression (NumberLiteral (VInt 4)) "/"
             (NumberLiteral (VInt 2))) (@VInt nan_host 0)
        <> Ok (VInt r)).
Proof.
  split.
  - apply (proj2 (@evaluate_integer_exact nan_host _ 3 8)). reflexivity.
  - intros r E.
    apply (proj1 (@evaluate_integer_exact nan_host _ 0 r)) in E.
    discriminate E.
Defined.

(* ================================================================== *)
(** ** Further properties: symbolic conversion *)
(* ================================================================== *)

(** X17: when [to_sympy_expr] returns.  The conversion returns exactly
    on the trees whose operators are prefix [-] and infix [+ - * / ^] and
    whose functions are [sqrt], [log10], [sin], [cos].  On any other tree
    it raises [ParserError("Not a valid prefix operator")],
    [ParserError("Not a valid infix operator")], or the [TypeError] of
    the ill-formed call [ParserError("Not a valid function", -1)]. *)
Theorem to_sympy_expr_returns_iff (H : Host) (t : ASTNode H) :
  ((exists e, to_sympy_expr t = Ok e)
   <-> operators_valid t && functions_known t = true)
  /\ (forall e, to_sympy_expr t = Raise e ->
        e = ParserError "Not a valid prefix operator"
        \/ e = ParserError "Not a valid infix operator"
        \/ e = not_a_valid_function_TypeError)
  /\ to_sympy_expr t <> OutOfFuel.
Proof.
  split; [| split].
  - split.
    + intros (e & E). apply to_sympy_expr_Ok_inv in E.
      destruct E as [-> ->]. reflexivity.
    + intros Hc. apply andb_true_iff in Hc. destruct Hc as [Hv Hk].
      apply to_sympy_expr_convertible; assumption.
  - apply to_sympy_expr_raises.
  - apply to_sympy_expr_total.
Qed.

(** X17 at the trees of ["sqrt(x)"], which converts, and of a prefix
    [+], which does not. *)
Lemma to_sympy_expr_returns_iff_witness :
  (exists e,
     to_sympy_expr (FunctionCall "sqrt" (@VariableNode nan_host "x")) = Ok e)
  /\ (ParserError "Not a valid prefix operator"
      = ParserError "Not a valid prefix operator"
      \/ ParserError "Not a valid prefix operator"
         = ParserError "Not a valid infix operator"
      \/ ParserError "Not a valid prefix operator"
         = not_a_valid_function_TypeError).
Proof.
  split.
  - apply (proj2 (proj1 (to_sympy_expr_returns_iff
                          (FunctionCall "sqrt" (@VariableNode nan_host "x"))))).
    reflexivity.
  - apply (proj1 (proj2 (to_sympy_expr_returns_iff
                          (PrefixExpression "+"
                             (@NumberLiteral nan_host (VInt 1)))))).
    reflexivity.
Defined.

(* ================================================================== *)
(** ** Further properties: sampler *)
(* ================================================================== *)

Section SamplerFurther.
Local Open Scope list_scope.

Variable X : Type.
Variable leb : X -> X -> bool.
Variable x_zero x_neg100 x_pos100 : X.
Variable linspace : X -> X -> nat -> list X.
Variable Y : Type.
Variable nan : Y.
Variable absdiff : Y -> Y -> Y.
Variable gt : Y -> Y -> bool.

Local Abbreviation sampling :=
  (adaptive_sampling leb x_zero x_neg100 x_pos100 linspace nan absdiff gt).
Local Abbreviation grid0 :=
  (initial_grid leb x_zero x_neg100 x_pos100 linspace).

(** X18: a negative number of points.  [np.linspace] raises
    [ValueError] before [func] is called once; with a number of points
    that is not negative the grid is never empty ([0] is in it), so
    [func] is called. *)
Theorem sampler_calls_func_unless_negative func x_min x_max num must tol :
  (num < 0 ->
   exists m,
     adaptive_sampling leb x_zero x_neg100 x_pos100 linspace nan absdiff gt
       func x_min x_max num must tol
     = (Raise (ValueError m), []))
  /\ (0 <= num ->
      snd (adaptive_sampling leb x_zero x_neg100 x_pos100 linspace nan
             absdiff gt func x_min x_max num must tol) <> []).
Proof.
  split.
  - intros Hn. unfold adaptive_sampling, initial_grid, np_linspace.
    apply Z.ltb_lt in Hn. rewrite Hn. unfold py_str_int.
    destruct (int_max_str_digits <? digit_count num); eexists; reflexivity.
  - intros Hn.
    assert (Hlen : forall l, List.length (np_sort leb l) = List.length l).
    { induction l as [| a l IH]; simpl; [reflexivity |].
      rewrite insert_sorted_length, IH. reflexivity. }
    unfold adaptive_sampling, initial_grid, np_linspace.
    destruct (num <? 0) eqn:E; [apply Z.ltb_lt in E; lia |].
    cbn [rbind].
    match goal with
    | |- context [union1d leb ?g ?m] =>
        assert (Hx0 : union1d leb g m <> []);
        [| generalize dependent (union1d leb g m)]
    end.
    { unfold union1d, np_unique.
      match goal with
      | |- context [np_sort leb ?l] =>
          pose proof (Hlen l) as Hl; destruct (np_sort leb l)
      end; [| discriminate].
      rewrite !length_app in Hl. simpl in Hl. lia. }
    intros x0 Hx0. unfold safe_evaluate.
    destruct (safe_evaluate_loop_log nan func x0 [] [])
      as (l0 & El0 & Hl0).
    specialize (Hl0 Hx0). simpl in El0.
    destruct (safe_evaluate_loop nan func x0 [] []) as [r0 log0].
    simpl in El0. subst log0.
    destruct r0 as [y0 | e |]; [| exact Hl0 | exact Hl0].
    match goal with
    | |- context [safe_evaluate_loop nan func ?x1 [] l0] =>
        destruct (safe_evaluate_loop_log nan func x1 [] l0)
          as (l1 & El1 & _);
        destruct (safe_evaluate_loop nan func x1 [] l0) as [r1 log1]
    end.
    simpl in El1. subst log1.
    assert (Hne : l0 ++ l1 <> [])
      by (destruct l0; [contradiction Hl0; reflexivity | discriminate]).
    destruct r1; exact Hne.
Qed.

Section OrderedGrid.
Hypothesis leb_total : forall a b, leb a b = true \/ leb b a = true.
Hypothesis leb_trans :
  forall a b c, leb a b = true -> leb b c = true -> leb a c = true.

(** X19: no refinement without a jump.  When no two values [func]
    gives (with [nan] for an [EvaluatorError]) differ by more than the
    tolerance, as for a constant function or a function that is
    undefined everywhere, a call that returns gives the initial grid
    unchanged, and [func] has been called twice on each of its points. *)
Theorem adaptive_sampling_flat func x_min x_max num must tol x y log :
  (forall a b,
     gt (absdiff (absorbed nan func a) (absorbed nan func b)) tol = false) ->
  sampling func x_min x_max num must tol = (Ok (x, y), log) ->
  grid0 x_min x_max num must = Ok x
  /\ y = map (absorbed nan func) x
  /\ log = x ++ x.
Proof.
  intros Hflat E. apply adaptive_sampling_Ok_inv in E.
  destruct E as (x0 & y0 & log0 & E0 & Ey0 & Ex & Ey).
  unfold safe_evaluate in Ey0, Ey.
  apply safe_evaluate_loop_Ok in Ey0. destruct Ey0 as (Hy0 & Hlog0 & _).
  apply safe_evaluate_loop_Ok in Ey. destruct Ey as (Hy & Hlog & _).
  simpl in Hy0, Hlog0, Hy. subst y0 log0.
  assert (Hh : high_curvature_of absdiff gt
                 (map (absorbed nan func) x0) tol = []).
  { destruct (high_curvature_of absdiff gt (map (absorbed nan func) x0) tol)
      as [| i l] eqn:Eh; [reflexivity |].
    assert (Hi : In i (high_curvature_of absdiff gt
                         (map (absorbed nan func) x0) tol))
      by (rewrite Eh; left; reflexivity).
    apply (high_curvature_In absdiff gt _ tol (absorbed nan func x_zero))
      in Hi.
    destruct Hi as [_ Hi]. rewrite !map_nth, Hflat in Hi. discriminate Hi. }
  rewrite Hh in Ex. cbn [new_x_of flat_map] in Ex.
  rewrite (np_sort_union1d leb leb_total leb_trans) in Ex.
  unfold union1d in Ex. rewrite app_nil_r in Ex.
  assert (Hs : StronglySorted (fun a b => x_lt leb a b = true) x0).
  { unfold initial_grid in E0.
    destruct (np_linspace linspace (py_min leb x_min x_neg100)
                (py_max leb x_max x_pos100) num) as [g | e |];
      try discriminate E0.
    simpl in E0. inversion E0. apply np_unique_sorted; assumption. }
  rewrite (np_unique_id leb Hs) in Ex. subst x0.
  split; [exact E0 |]. split; [exact Hy | exact Hlog].
Qed.

End OrderedGrid.

End SamplerFurther.

(** The hypothesis of X18 holds at [-1] and at [3] points. *)
Lemma sampler_calls_func_unless_negative_witness :
  (exists m,
     adaptive_sampling_Q step_at_50 (-10)%Q 10%Q (-1) [] default_tolerance
     = (Raise (ValueError m), []))
  /\ snd (adaptive_sampling_Q step_at_50 (-10)%Q 10%Q 3 []
            default_tolerance) <> [].
Proof.
  pose proof (sampler_calls_func_unless_negative Qle_bool 0%Q (-100)%Q
                100%Q linspaceQ YNan yabsdiff ygt step_at_50 (-10)%Q 10%Q)
    as T.
  split.
  - apply (proj1 (T (-1) [] default_tolerance)). lia.
  - apply (proj2 (T 3 [] default_tolerance)). lia.
Defined.

(** The hypotheses of X19 hold on the rationals for a constant. *)
Lemma adaptive_sampling_flat_witness :
  exists x y log,
    adaptive_sampling_Q constant_one (-10)%Q 10%Q 3 [5%Q] default_tolerance
    = (Ok (x, y), log)
    /\ initial_grid Qle_bool 0%Q (-100)%Q 100%Q linspaceQ (-10)%Q 10%Q 3
         [5%Q] = Ok x
    /\ log = (x ++ x)%list.
Proof.
  assert (E : exists x y log,
            adaptive_sampling_Q constant_one (-10)%Q 10%Q 3 [5%Q]
              default_tolerance = (Ok (x, y), log))
    by (vm_compute; do 3 eexists; reflexivity).
  destruct E as (x & y & log & E).
  destruct (@adaptive_sampling_flat Q Qle_bool 0%Q (-100)%Q 100%Q linspaceQ
              yval YNan yabsdiff ygt Qle_bool_total Qle_bool_trans
              constant_one (-10)%Q 10%Q 3 [5%Q] default_tolerance x y log)
    as (E0 & _ & Hlog).
  - intros a b. reflexivity.
  - exact E.
  - exists x, y, log. split; [exact E |]. split; assumption.
Defined.



(** X21: no refinement next to an undefined point.  For a call that
    returns [(x, y)], with [x0] the initial grid: a consecutive pair of
    [x0] with [func] raising [EvaluatorError] at one of its ends is not
    flagged, for NaN never exceeds the tolerance; so every value of [x]
    is a value of [x0] or one of the ten values of [np.linspace] over a
    pair of [x0] at both ends of which [func] returned a value. *)
Theorem undefined_neighbour_not_refined
  (func : PrimFloat.float -> result PrimFloat.float)
  (x_min x_max : PrimFloat.float) (num : Z)
  (must : list PrimFloat.float) (tol : PrimFloat.float)
  (x y log : list PrimFloat.float) :
  adaptive_sampling_float func x_min x_max num must tol
  = (Ok (x, y), log) ->
  exists x0 : list PrimFloat.float,
    initial_grid_float x_min x_max num must = Ok x0
    /\ (forall i,
          (S i < List.length x0)%nat ->
          (exists m, func (nth i x0 PrimFloat.zero)
                     = Raise (EvaluatorError m))
          \/ (exists m, func (nth (S i) x0 PrimFloat.zero)
                        = Raise (EvaluatorError m)) ->
          pair_exceeds_float func tol (nth i x0 PrimFloat.zero)
            (nth (S i) x0 PrimFloat.zero) = false
          /\ ~ In i (high_curvature_of float_abs_diff float_gt
                       (map (absorbed PrimFloat.nan func) x0) tol))
    /\ (forall e, In e x ->
          In e x0
          \/ exists i,
               (S i < List.length x0)%nat
               /\ defined_at func (nth i x0 PrimFloat.zero)
               /\ defined_at func (nth (S i) x0 PrimFloat.zero)
               /\ In e (linspace_float (nth i x0 PrimFloat.zero)
                          (nth (S i) x0 PrimFloat.zero) 10)).
Proof.
  intros E. unfold adaptive_sampling_float in E.
  apply adaptive_sampling_refined in E;
    [| exact float_sort_leb_total | exact float_sort_leb_trans].
  destruct E as (x0 & E0 & _ & _ & Habs & _ & _ & Hmem).
  exists x0. split; [exact E0 |]. split.
  - intros i Hi Hu.
    pose proof (@pair_exceeds_float_undefined func tol _ _ Hu) as Hp.
    split; [exact Hp |]. intros Hin.
    apply (high_curvature_In float_abs_diff float_gt _ tol
             (absorbed PrimFloat.nan func PrimFloat.zero)) in Hin.
    destruct Hin as [_ Hin]. rewrite !map_nth in Hin.
    unfold pair_exceeds_float in Hp. congruence.
  - intros e He. destruct (Hmem e He) as [H0 | (i & Hi & Hg & Hl)];
      [left; exact H0 | right].
    exists i. split; [exact Hi |].
    assert (Hdef : forall j, (j < List.length x0)%nat ->
              (exists m, func (nth j x0 PrimFloat.zero)
                         = Raise (EvaluatorError m))
              \/ defined_at func (nth j x0 PrimFloat.zero)).
    { intros j Hj. rewrite forallb_forall in Habs.
      specialize (Habs (nth j x0 PrimFloat.zero) (nth_In _ _ Hj)).
      unfold absorbable in Habs. unfold defined_at.
      destruct (func (nth j x0 PrimFloat.zero)) as [v | e' |];
        [right; eexists; reflexivity | | discriminate Habs].
      destruct e'; try discriminate Habs. left. eexists. reflexivity. }
    change (pair_exceeds_float func tol (nth i x0 PrimFloat.zero)
              (nth (S i) x0 PrimFloat.zero) = true) in Hg.
    destruct (Hdef i ltac:(lia)) as [Hu | Hd1];
      [rewrite (@pair_exceeds_float_undefined func tol _ _ (or_introl Hu))
         in Hg;
       discriminate Hg |].
    destruct (Hdef (S i) Hi) as [Hu | Hd2];
      [rewrite (@pair_exceeds_float_undefined func tol _ _ (or_intror Hu))
         in Hg;
       discriminate Hg |].
    split; [exact Hd1 |]. split; [exact Hd2 | exact Hl].
Qed.

(** The hypotheses of X21 hold for a function undefined below [0], on
    the pair of the grid points [-100] and [0]. *)
Lemma undefined_neighbour_not_refined_witness :
  exists x y log,
    adaptive_sampling_float undefined_below_0_float
      float_neg10 float_pos10 2 []
      default_tolerance_float = (Ok (x, y), log)
    /\ pair_exceeds_float undefined_below_0_float default_tolerance_float
         float_neg100 PrimFloat.zero = false.
Proof.
  assert (E : exists x y log,
            adaptive_sampling_float undefined_below_0_float
              float_neg10 float_pos10 2 []
              default_tolerance_float = (Ok (x, y), log))
    by (vm_compute; do 3 eexists; reflexivity).
  destruct E as (x & y & log & E).
  destruct (undefined_neighbour_not_refined _ _ _ _ _ _ E)
    as (x0 & E0 & Hu & _).
  assert (Ex0 : x0 = [float_neg100; PrimFloat.zero; float_pos100]).
  { vm_compute in E0. inversion E0. reflexivity. }
  subst x0. exists x, y, log. split; [exact E |].
  apply (Hu 0%nat); [simpl; lia |]. left. eexists. reflexivity.
Defined.

(** X22: what the refined grid is made of.  For a call that returns
    [(x, y)], with [x0] the initial grid: every value of [x0] occurs in
    [x], and every value of [x] is a value of [x0] or one of the ten
    values of [np.linspace] over a consecutive pair of [x0] whose sampled
    values differ by more than the tolerance. *)
Theorem refined_grid_members (func : Q -> result yval)
  (x_min x_max : Q) (num : Z) (must : list Q) (tol : yval)
  (x x0 : list Q) (y : list yval) (log : list Q) :
  adaptive_sampling_Q func x_min x_max num must tol = (Ok (x, y), log) ->
  initial_grid Qle_bool 0%Q (-100)%Q 100%Q linspaceQ x_min x_max num must
  = Ok x0 ->
  (forall e, In e x0 -> occurs Qle_bool e x = true)
  /\ (forall e, In e x ->
        In e x0
        \/ exists i,
             (S i < List.length x0)%nat
             /\ pair_exceeds func tol (nth i x0 0%Q) (nth (S i) x0 0%Q)
                = true
             /\ In e (linspaceQ (nth i x0 0%Q) (nth (S i) x0 0%Q) 10)).
Proof.
  intros E E0. unfold adaptive_sampling_Q in E.
  apply adaptive_sampling_Ok_inv in E.
  destruct E as (x0' & y0 & log0 & E0' & Ey0 & Ex & _).
  rewrite E0 in E0'. inversion E0'; subst x0'. clear E0'.
  unfold safe_evaluate in Ey0.
  apply safe_evaluate_loop_Ok in Ey0. destruct Ey0 as (Hy0 & _ & _).
  simpl in Hy0. subst y0.
  rewrite (np_sort_union1d Qle_bool Qle_bool_total Qle_bool_trans) in Ex.
  subst x. split.
  - intros e He.
    apply (np_unique_occurs Qle_bool Qle_bool_total Qle_bool_trans).
    apply in_or_app. left. exact He.
  - intros e He. apply refined_members in He.
    destruct He as [He | (j & Hj & He)]; [left; exact He | right].
    apply high_curvature_pair in Hj. destruct Hj as [Hlt Hp].
    exists j. split; [exact Hlt |]. split; assumption.
Qed.

(** The hypotheses of X22 hold for the jump, sampled on two points. *)
Lemma refined_grid_members_witness :
  exists x y log,
    adaptive_sampling_Q step_at_50 (-10)%Q 10%Q 2 [] default_tolerance
    = (Ok (x, y), log)
    /\ (forall e, In e [(-100)%Q; 0%Q; 100%Q] ->
                  occurs Qle_bool e x = true).
Proof.
  assert (E : exists x y log,
            adaptive_sampling_Q step_at_50 (-10)%Q 10%Q 2 []
              default_tolerance = (Ok (x, y), log))
    by (vm_compute; do 3 eexists; reflexivity).
  destruct E as (x & y & log & E).
  exists x, y, log. split; [exact E |].
  apply (@refined_grid_members step_at_50 (-10)%Q 10%Q 2 []
           default_tolerance x [(-100)%Q; 0%Q; 100%Q] y log).
  - exact E.
  - vm_compute. reflexivity.
Defined.
